(** * goptlib (package pt): extended OR port client, cookie file, status lines

    A shallow embedding of [pt.go].  Go byte slices and strings are lists of
    [Byte.byte]; unsigned machine integers are [N] with the truncations
    written out; the functions of Go's standard library that the package
    calls ([io.ReadFull], [bufio.Reader], [encoding/binary],
    [crypto/subtle], [fmt] verbs) are modelled in the first modules, the
    package's own functions in module [pt]. *)

From Stdlib Require Import String Decimal.
From Stdlib Require Import List NArith ZArith Lia Bool.
From Stdlib Require Import Strings.Byte.
Import ListNotations.

Local Open Scope list_scope.

(** ** Go values *)

Module Go.

(** A Go string or a []byte. *)
Definition bytes := list byte.

(** A string literal of the source, as its bytes. *)
Definition str (s : string) : bytes := list_byte_of_string s.

(** The conversion byte(v) of an unsigned integer: the low eight bits. *)
Definition byte_of_N (v : N) : byte :=
  match Byte.of_N (v mod 256) with
  | Some b => b
  | None => x00
  end.

(** make([]byte, n): n zero bytes. *)
Definition make (n : nat) : bytes := repeat x00 n.

(** copy of [got] into the front of the buffer [p]; [got] is never longer
    than [p] where the model uses it. *)
Definition overlay (got p : bytes) : bytes := got ++ skipn (length got) p.

(** The error values that reach the package.  [errorString] is the value
    of a call of errors.New in package pt.  io.EOF, io.ErrUnexpectedEOF and
    io.ErrNoProgress are the variables of package io, which that package
    made with errors.New as well: they are told from every other error by
    identity (err == io.EOF), not by their type.  The last two are the
    errors of package net and of os.Open. *)
Inductive error : Type :=
| errorString (msg : bytes)
| io_EOF
| io_ErrUnexpectedEOF
| io_ErrNoProgress
| net_OpError (timeout : bool) (msg : bytes)
| os_PathError (msg : bytes).

Definition errors_New (msg : bytes) : error := errorString msg.

(** The dynamic type of an error value, what a type switch sees:
    *errors.errorString for every value made by errors.New, those of
    package io included, *net.OpError and *os.PathError. *)
Inductive error_type : Type :=
| T_errorString | T_net_OpError | T_os_PathError.

Definition type_of (e : error) : error_type :=
  match e with
  | errorString _ => T_errorString
  | io_EOF | io_ErrUnexpectedEOF | io_ErrNoProgress => T_errorString
  | net_OpError _ _ => T_net_OpError
  | os_PathError _ => T_os_PathError
  end.

(** err.Error() *)
Definition Error (e : error) : bytes :=
  match e with
  | errorString m => m
  | io_EOF => str "EOF"
  | io_ErrUnexpectedEOF => str "unexpected EOF"
  | io_ErrNoProgress => str "multiple Read calls return no data or error"
  | net_OpError _ m => m
  | os_PathError m => m
  end.

End Go.
Export Go.

(** ** fmt verbs used by the package *)

Module fmt.

Definition hexdigit (n : N) : byte :=
  nth (N.to_nat n) (str "0123456789abcdef") x00.

(** %02x of a byte *)
Definition x02 (b : byte) : bytes :=
  [hexdigit (Byte.to_N b / 16); hexdigit (Byte.to_N b mod 16)].

(** %04x of a uint16 *)
Definition x04 (v : N) : bytes :=
  [hexdigit (v / 4096 mod 16); hexdigit (v / 256 mod 16);
   hexdigit (v / 16 mod 16); hexdigit (v mod 16)].

Definition decdigit (d : N) : byte := byte_of_N (48 + d).

Fixpoint of_uint (u : Decimal.uint) : bytes :=
  match u with
  | Nil => []
  | D0 u => decdigit 0 :: of_uint u
  | D1 u => decdigit 1 :: of_uint u
  | D2 u => decdigit 2 :: of_uint u
  | D3 u => decdigit 3 :: of_uint u
  | D4 u => decdigit 4 :: of_uint u
  | D5 u => decdigit 5 :: of_uint u
  | D6 u => decdigit 6 :: of_uint u
  | D7 u => decdigit 7 :: of_uint u
  | D8 u => decdigit 8 :: of_uint u
  | D9 u => decdigit 9 :: of_uint u
  end.

(** %d of a non-negative int *)
Definition d (n : nat) : bytes := of_uint (Nat.to_uint n).

End fmt.

(** ** Status lines: escape and formatLine *)

Module pt_line.

Definition backslash : byte := x5c.
Definition newline : byte := x0a.

(** One iteration of the loop of [escape]: what is appended for byte b. *)
Definition escape_byte (b : byte) : bytes :=
  if Byte.eqb b newline then str "\n"
  else if Byte.eqb b backslash then str "\\"
  else if (0 <? Byte.to_N b)%N && (Byte.to_N b <? 128)%N then [b]
  else str "\x" ++ fmt.x02 b.

(** func escape(s string) string *)
Definition escape (s : bytes) : bytes :=
  fold_left (fun buf b => buf ++ escape_byte b) s [].

(** func formatLine(keyword string, v ...string) string *)
Definition formatLine (keyword : bytes) (v : list bytes) : bytes :=
  fold_left (fun buf x => buf ++ (str " " ++ escape x)) v keyword.

(** A byte allowed in a status line: 1..127 and not a newline. *)
Definition line_byte (b : byte) : Prop :=
  (1 <= Byte.to_N b <= 127)%N /\ b <> newline.

Definition line_byteb (b : byte) : bool :=
  (1 <=? Byte.to_N b)%N && (Byte.to_N b <=? 127)%N && negb (Byte.eqb b newline).

(** The keywords the package itself passes to doError and Line. *)
Definition keywords : list bytes :=
  [str "ENV-ERROR"; str "VERSION-ERROR"; str "CMETHOD-ERROR";
   str "SMETHOD-ERROR"; str "CMETHOD"; str "CMETHODS"; str "SMETHOD";
   str "SMETHODS"; str "VERSION"].

End pt_line.

(** ** io: readers and ReadFull *)

Module io.

(** The interface io.Reader.  [Read n r] is r.Read(p) with len(p) = n: the
    bytes stored into p and the error, and the reader afterwards. *)
Class Reader (R : Type) := Read : nat -> R -> (bytes * option error) * R.

(** What successive Read calls on a file, a socket or the random device
    will deliver: non-empty chunks, one per call at most, and once they are
    used up the error [final] (io.EOF at the end of a file). *)
Record source : Type := mkSource {
  chunks : list (byte * bytes);
  final : error
}.

Definition chunk_bytes (c : byte * bytes) : bytes := fst c :: snd c.

Definition push_chunk (l : bytes) (cs : list (byte * bytes)) :=
  match l with
  | [] => cs
  | b :: bs => (b, bs) :: cs
  end.

(** All the bytes the source still holds, in order. *)
Definition pending (s : source) : bytes := flat_map chunk_bytes (chunks s).

Definition source_Read (n : nat) (s : source) : (bytes * option error) * source :=
  match chunks s with
  | [] => (([], Some (final s)), s)
  | c :: rest =>
      ((firstn n (chunk_bytes c), None),
       mkSource (push_chunk (skipn n (chunk_bytes c)) rest) (final s))
  end.

#[global] Instance source_Reader : Reader source := source_Read.

(** The end of io.ReadAtLeast:
    if n >= min { err = nil } else if n > 0 && err == EOF { err = ErrUnexpectedEOF } *)
Definition at_least_result (min : nat) (got : bytes) (err : option error)
  : option error :=
  if min <=? length got then None
  else match err with
       | Some io_EOF => if 0 <? length got then Some io_ErrUnexpectedEOF else err
       | _ => err
       end.

(** The loop of io.ReadAtLeast, for n < min && err == nil.  Every Read of
    the readers below returns a byte or an error (class [Stream]), so
    [fuel] = min iterations are enough and the fuel branch is not reached:
    lemmas [ReadFull_enough] and [ReadFull_short] give the result in every
    case. *)
Fixpoint ReadAtLeast_loop {R} `{Reader R} (fuel : nat) (r : R) (got : bytes)
    (min len : nat) : (bytes * option error) * R :=
  if min <=? length got then ((got, None), r)
  else
    match fuel with
    | 0 => ((got, Some io_ErrNoProgress), r)
    | S fuel' =>
        let '((bs, err), r') := Read (len - length got) r in
        match err with
        | None => ReadAtLeast_loop fuel' r' (got ++ bs) min len
        | Some _ => ((got ++ bs, at_least_result min (got ++ bs) err), r')
        end
    end.

(** io.ReadFull(r, p): the new contents of p and the error. *)
Definition ReadFull {R} `{Reader R} (r : R) (p : bytes)
  : (bytes * option error) * R :=
  let '((got, err), r') := ReadAtLeast_loop (length p) r [] (length p) (length p) in
  ((overlay got p, err), r').

(** The error of a ReadFull that found only [got] before the reader's
    error [e]. *)
Definition short_read (got : bytes) (e : error) : error :=
  match e with
  | io_EOF => match got with [] => io_EOF | _ => io_ErrUnexpectedEOF end
  | _ => e
  end.

(** A reader seen as a byte stream: the bytes it will still deliver
    ([pend]), the error that follows them ([fin]), the states the model
    reaches ([inv]) and what a Read leaves alone ([keeps]).  A Read of at
    least one byte returns a non-empty piece of the stream, or the error
    once the stream is used up. *)
Class Stream (R : Type) `{Reader R} : Type := {
  pend : R -> bytes;
  fin : R -> error;
  inv : R -> Prop;
  keeps : R -> R -> Prop;
  keeps_refl : forall r, keeps r r;
  keeps_trans : forall a b c, keeps a b -> keeps b c -> keeps a c;
  Read_data : forall n r, inv r -> 0 < n -> pend r <> [] ->
    exists bs r', Read n r = ((bs, None), r') /\ bs <> [] /\ (length bs <= n) /\
      pend r = bs ++ pend r' /\ fin r' = fin r /\ inv r' /\ keeps r r';
  Read_end : forall n r, inv r -> 0 < n -> pend r = [] ->
    exists r', Read n r = (([], Some (fin r)), r') /\
      pend r' = [] /\ fin r' = fin r /\ inv r' /\ keeps r r'
}.

End io.

(** ** net: a TCP connection *)

Module net.

(** The calls made on a connection, in order. *)
Inductive call : Type :=
| CallRead (n : nat) (got : bytes) (err : option error)
| CallWrite (p : bytes) (n : nat) (err : option error)
| CallSetDeadline (t : option Z)
| CallClose.

(** A *net.TCPConn.  [inp] is what the peer will send; [wres] says how the
    coming Write calls end: [None] for a complete write, [Some (k, e)] for
    an error e after k bytes; [deadline] is [None] for the zero time.Time. *)
Record TCPConn : Type := mkConn {
  inp : io.source;
  wres : list (option (nat * error));
  deadline : option Z;
  closed : bool;
  log : list call
}.

Definition Read (n : nat) (c : TCPConn) : (bytes * option error) * TCPConn :=
  let '((bs, err), s') := io.source_Read n (inp c) in
  ((bs, err),
   mkConn s' (wres c) (deadline c) (closed c) (log c ++ [CallRead n bs err])).

#[global] Instance TCPConn_Reader : io.Reader TCPConn := Read.

(** s.Write(p): the number of bytes written and the error. *)
Definition Write (p : bytes) (c : TCPConn) : (nat * option error) * TCPConn :=
  let '(n, err) :=
    match wres c with
    | Some (k, e) :: _ => (Nat.min k (length p), Some e)
    | _ => (length p, None)
    end in
  ((n, err),
   mkConn (inp c) (tl (wres c)) (deadline c) (closed c)
          (log c ++ [CallWrite p n err])).

Definition SetDeadline (t : option Z) (c : TCPConn) : TCPConn :=
  mkConn (inp c) (wres c) t (closed c) (log c ++ [CallSetDeadline t]).

Definition Close (c : TCPConn) : TCPConn :=
  mkConn (inp c) (wres c) (deadline c) true (log c ++ [CallClose]).

(** The bytes a sequence of calls put on the wire. *)
Definition written_by (k : call) : bytes :=
  match k with
  | CallWrite p n _ => firstn n p
  | _ => []
  end.

Definition written (l : list call) : bytes := flat_map written_by l.

Definition is_read (k : call) : bool :=
  match k with CallRead _ _ _ => true | _ => false end.

Definition is_io (k : call) : bool :=
  match k with CallRead _ _ _ | CallWrite _ _ _ => true | _ => false end.

(** The calls other than Read, in order. *)
Definition non_reads (l : list call) : list call :=
  filter (fun k => negb (is_read k)) l.

(** [c'] is [c] after some Read and Write calls and nothing else: the
    deadline and the open or closed state are as before. *)
Definition io_only (c c' : TCPConn) : Prop :=
  deadline c' = deadline c /\ closed c' = closed c /\
  exists l, log c' = log c ++ l /\ forallb is_io l = true.

(** The next k Write calls will be complete. *)
Definition writes_ok (k : nat) (c : TCPConn) : bool :=
  forallb (fun o => match o with None => true | Some _ => false end)
          (firstn k (wres c)).

(** [c'] is [c] after some Read calls and nothing else: only the input
    and the log of calls moved on. *)
Definition reads_only (c c' : TCPConn) : Prop :=
  wres c' = wres c /\ deadline c' = deadline c /\ closed c' = closed c /\
  exists l, log c' = log c ++ l /\ forallb is_read l = true.

End net.

(** ** bufio.Reader *)

Module bufio.

Definition defaultBufSize : nat := 4096.
Definition maxConsecutiveEmptyReads : nat := 100.

(** [buf] is the unread part b.buf[b.r:b.w]. *)
Record Reader (R : Type) : Type := mkReader {
  rd : R;
  buf : bytes;
  err : option error
}.
Arguments mkReader {R}.
Arguments rd {R}.
Arguments buf {R}.
Arguments err {R}.

Definition NewReader {R} (r : R) : Reader R := mkReader r [] None.

(** The loop of fill: for i := maxConsecutiveEmptyReads; i > 0; i-- *)
Fixpoint fill_loop {R} `{io.Reader R} (i : nat) (b : Reader R) : Reader R :=
  match i with
  | 0 => mkReader (rd b) (buf b) (Some io_ErrNoProgress)
  | S i' =>
      let '((bs, e), rd') := io.Read (defaultBufSize - length (buf b)) (rd b) in
      let b' := mkReader rd' (buf b ++ bs) (err b) in
      match e with
      | Some _ => mkReader rd' (buf b ++ bs) e
      | None => if 0 <? length bs then b' else fill_loop i' b'
      end
  end.

Definition fill {R} `{io.Reader R} (b : Reader R) : Reader R :=
  fill_loop maxConsecutiveEmptyReads b.

(** b.readErr() *)
Definition readErr {R} (b : Reader R) : option error * Reader R :=
  (err b, mkReader (rd b) (buf b) None).

(** b.ReadByte().  The loop for b.r == b.w runs at most twice: fill leaves
    a byte in the buffer or an error in b.err. *)
Definition ReadByte {R} `{io.Reader R} (b : Reader R)
  : (byte * option error) * Reader R :=
  let take (b : Reader R) (k : unit -> (byte * option error) * Reader R) :=
    match buf b with
    | c :: rest => ((c, None), mkReader (rd b) rest (err b))
    | [] =>
        match err b with
        | Some _ => let '(e, b') := readErr b in ((x00, e), b')
        | None => k tt
        end
    end in
  take b (fun _ =>
    let b1 := fill b in
    take b1 (fun _ => ((x00, Some io_ErrNoProgress), b1))).

(** b.Read(p) with len(p) = n. *)
Definition Read {R} `{io.Reader R} (n : nat) (b : Reader R)
  : (bytes * option error) * Reader R :=
  match n with
  | 0 =>
      if 0 <? length (buf b) then (([], None), b)
      else let '(e, b') := readErr b in (([], e), b')
  | _ =>
      match buf b with
      | [] =>
          match err b with
          | Some _ => let '(e, b') := readErr b in (([], e), b')
          | None =>
              if defaultBufSize <=? n then
                let '((bs, e), rd') := io.Read n (rd b) in
                let '(e', b') := readErr (mkReader rd' [] e) in
                ((bs, e'), b')
              else
                let '((bs, e), rd') := io.Read defaultBufSize (rd b) in
                match bs with
                | [] => let '(e', b') := readErr (mkReader rd' [] e) in
                        (([], e'), b')
                | _ => ((firstn n bs, None), mkReader rd' (skipn n bs) e)
                end
          end
      | _ => ((firstn n (buf b), None),
              mkReader (rd b) (skipn n (buf b)) (err b))
      end
  end.

#[global] Instance Reader_Reader {R} `{io.Reader R} : io.Reader (Reader R) :=
  Read.

(** b.Buffered() *)
Definition Buffered {R} (b : Reader R) : nat := length (buf b).

End bufio.

(** ** crypto/subtle and encoding/binary *)

Module subtle.

(** int((uint32(x^y) - 1) >> 31) *)
Definition ConstantTimeByteEq (x y : byte) : Z :=
  Z.shiftr ((Z.of_N (N.lxor (Byte.to_N x) (Byte.to_N y)) - 1) mod 2 ^ 32) 31.

(** The loop v |= x[i] ^ y[i], for slices of one length. *)
Fixpoint xor_fold (v : byte) (x y : bytes) : byte :=
  match x, y with
  | a :: x', b :: y' =>
      xor_fold (byte_of_N (N.lor (Byte.to_N v) (N.lxor (Byte.to_N a) (Byte.to_N b))))
               x' y'
  | _, _ => v
  end.

Definition ConstantTimeCompare (x y : bytes) : Z :=
  if negb (length x =? length y) then 0%Z
  else ConstantTimeByteEq (xor_fold x00 x y) x00.

End subtle.

Module binary.

(** binary.BigEndian.PutUint16: b[0] = byte(v >> 8); b[1] = byte(v) *)
Definition PutUint16 (v : N) : bytes :=
  [byte_of_N (N.shiftr v 8); byte_of_N v].

(** binary.BigEndian.Uint16: uint16(b[1]) | uint16(b[0])<<8 *)
Definition Uint16 (b0 b1 : byte) : N :=
  N.lor (Byte.to_N b1) (N.shiftl (Byte.to_N b0) 8).

End binary.

(** ** crypto/hmac with crypto/sha256 *)

Module hmac.

(** HMAC-SHA256 of a message under a key, the one function of the crypto
    library the package relies on. *)
Class HMAC_SHA256 := hmac_sha256 : bytes -> bytes -> bytes.

(** The hash.Hash returned by hmac.New(sha256.New, key): the key and what
    has been written so far. *)
Record Hash : Type := mkHash { key : bytes; msg : bytes }.

Definition New (k : bytes) : Hash := mkHash k [].
Definition Write (h : Hash) (p : bytes) : Hash := mkHash (key h) (msg h ++ p).
Definition Sum `{HMAC_SHA256} (h : Hash) (b : bytes) : bytes :=
  b ++ hmac_sha256 (key h) (msg h).

End hmac.

(** ** A state and error monad for the functions that return error *)

Module M.

Inductive res (A : Type) : Type :=
| Ok (a : A)
| Err (e : error).
Arguments Ok {A}.
Arguments Err {A}.

Definition M (St A : Type) : Type := St -> res A * St.

Definition ret {St A} (a : A) : M St A := fun s => (Ok a, s).

Definition bind {St A B} (m : M St A) (k : A -> M St B) : M St B :=
  fun s =>
    match m s with
    | (Ok a, s') => k a s'
    | (Err e, s') => (Err e, s')
    end.

(** return errors.New(...), or return err *)
Definition fail {St A} (e : error) : M St A := fun s => (Err e, s).

(** v, err := f(); if err != nil { return err } *)
Definition try {St A} (f : St -> (A * option error) * St) : M St A :=
  fun s =>
    match f s with
    | ((_, Some e), s') => (Err e, s')
    | ((a, None), s') => (Ok a, s')
    end.

Definition get {St} : M St St := fun s => (Ok s, s).

(** Every error that [m] returns from a state in [I] satisfies [P], and
    [m] keeps the states in [I]. *)
Definition errs {St A} (I : St -> Prop) (P : error -> Prop) (m : M St A) : Prop :=
  forall s, I s -> I (snd (m s)) /\ forall e, fst (m s) = Err e -> P e.

(** The error a function of type error returns: nil or the error. *)
Definition error_of {A} (r : res A) : option error :=
  match r with
  | Ok _ => None
  | Err e => Some e
  end.

End M.
Export M.

Notation "x <- m ;; k" := (bind m (fun x => k))
  (at level 61, m at next level, right associativity).
Notation "' pat <- m ;; k" := (bind m (fun x => match x with pat => k end))
  (at level 61, pat pattern, m at next level, right associativity).

(** ** package pt *)

Module pt.

Import hmac.

Definition TCPAddr := bytes.

(** type ServerInfo struct; the pointers are nil for [None]. *)
Record ServerInfo : Type := mkServerInfo {
  OrAddr : option TCPAddr;
  ExtendedOrAddr : option TCPAddr;
  AuthCookie : bytes
}.

(** An error that the connection s or rand.Reader produced, as the caller
    of Read, Write or io.ReadFull receives it: the error that ends the
    reads, io.ErrUnexpectedEOF for an io.EOF in the middle of a ReadFull,
    or the error of a Write. *)
Definition transport_error (s : net.TCPConn) (rnd : io.source) (e : error) : Prop :=
  e = io.final (net.inp s) \/ e = io.final rnd \/ e = io_ErrUnexpectedEOF \/
  exists k, In (Some (k, e)) (net.wres s).

(** An error that the package made itself, with errors.New. *)
Definition own (e : error) : Prop := exists msg, e = errors_New msg.

(** An error made by errors.New in the package, or one of the transport. *)
Definition own_or_transport (s : net.TCPConn) (rnd : io.source) (e : error) : Prop :=
  own e \/ transport_error s rnd e.

(** The connection [c] reads from the same peer as [s], and its coming
    writes are among those of [s]. *)
Definition same_conn (s c : net.TCPConn) : Prop :=
  io.final (net.inp c) = io.final (net.inp s) /\
  incl (net.wres c) (net.wres s).

Fixpoint bytes_Equal (a b : bytes) : bool :=
  match a, b with
  | [], [] => true
  | x :: a', y :: b' => Byte.eqb x y && bytes_Equal a' b'
  | _, _ => false
  end.

Definition is_EOF (err : option error) : bool :=
  match err with
  | Some io_EOF => true
  | _ => false
  end.

Definition authCookieHeader : bytes :=
  str "! Extended ORPort Auth Cookie !" ++ [x0a].

(** func readAuthCookieFile(filename string) ([]byte, error).  [open] is
    os.Open: an error, or the file as the source its Read calls draw from. *)
Definition readAuthCookieFile (open : bytes -> res io.source) (filename : bytes)
  : bytes * option error :=
  let header := make 32 in
  let cookie := make 32 in
  match open filename with
  | Err err => (cookie, Some err)
  | Ok f =>
      let '((header, err), f) := io.ReadFull f header in
      match err with
      | Some _ => (cookie, err)
      | None =>
          let '((cookie, err), f) := io.ReadFull f cookie in
          match err with
          | Some _ => (cookie, err)
          | None =>
              (* Check that the file ends here. *)
              let '((got, err), f) := io.Read 1 f in
              if negb (length got =? 0) then
                (cookie, Some (errors_New (str "file is longer than 64 bytes")))
              else if negb (is_EOF err) then
                (cookie, Some (errors_New (str "did not find EOF at end of file")))
              else if negb (bytes_Equal header authCookieHeader) then
                (cookie, Some (errors_New (str "missing auth cookie header")))
              else (cookie, None)
          end
      end
  end.

(** The error of readAuthCookieFile, told from the contents of the file and
    the error that ends its reads; lemma [readAuthCookieFile_cases] shows
    that this is what the function returns. *)
Definition cookie_error (content : bytes) (final : error) : option error :=
  if length content <? 32 then Some (io.short_read content final)
  else if length content <? 64 then
    Some (io.short_read (skipn 32 content) final)
  else if 64 <? length content then
    Some (errors_New (str "file is longer than 64 bytes"))
  else if negb (is_EOF (Some final)) then
    Some (errors_New (str "did not find EOF at end of file"))
  else if negb (bytes_Equal (firstn 32 content) authCookieHeader) then
    Some (errors_New (str "missing auth cookie header"))
  else None.

Section Hashes.
Context `{HMAC_SHA256}.

(** func computeServerHash(info *ServerInfo, clientNonce, serverNonce []byte) []byte *)
Definition computeServerHash (info : ServerInfo) (clientNonce serverNonce : bytes)
  : bytes :=
  let h := hmac.New (AuthCookie info) in
  let h := hmac.Write h (str "ExtORPort authentication server-to-client hash") in
  let h := hmac.Write h clientNonce in
  let h := hmac.Write h serverNonce in
  hmac.Sum h [].

(** func computeClientHash(info *ServerInfo, clientNonce, serverNonce []byte) []byte *)
Definition computeClientHash (info : ServerInfo) (clientNonce serverNonce : bytes)
  : bytes :=
  let h := hmac.New (AuthCookie info) in
  let h := hmac.Write h (str "ExtORPort authentication client-to-server hash") in
  let h := hmac.Write h clientNonce in
  let h := hmac.Write h serverNonce in
  hmac.Sum h [].

(** The state of extOrPortAuthenticate: the bufio.Reader r, whose
    underlying reader [bufio.rd r] is the connection s itself, and
    rand.Reader. *)
Record hs : Type := mkHs {
  r : bufio.Reader net.TCPConn;
  rand_Reader : io.source
}.

(** The connection s. *)
Definition sock (st : hs) : net.TCPConn := bufio.rd (r st).

(** What r will still deliver: its buffer, then what the peer sends. *)
Definition stream (st : hs) : bytes :=
  bufio.buf (r st) ++ io.pending (net.inp (sock st)).

(** r holds no error that it has not yet returned. *)
Definition hs_ok (st : hs) : Prop := bufio.err (r st) = None.

(** [st'] is [st] after reads through r and nothing else. *)
Definition reads_step (st st' : hs) : Prop :=
  hs_ok st' /\ net.reads_only (sock st) (sock st') /\
  rand_Reader st' = rand_Reader st /\
  io.final (net.inp (sock st')) = io.final (net.inp (sock st)).

(** A step of the handshake that makes only Read and Write calls on s and
    leaves r without a pending error. *)
Definition hs_frame {A} (m : M hs A) : Prop :=
  forall st, hs_ok st ->
    hs_ok (snd (m st)) /\ net.io_only (sock st) (sock (snd (m st))).

(** The state [st] is one of a handshake on [s] with rand.Reader [rnd]. *)
Definition same_env (s : net.TCPConn) (rnd : io.source) (st : hs) : Prop :=
  hs_ok st /\ same_conn s (sock st) /\
  io.final (rand_Reader st) = io.final rnd.

(** s.Write(p) *)
Definition s_Write (p : bytes) (st : hs) : (nat * option error) * hs :=
  let '(ne, s') := net.Write p (bufio.rd (r st)) in
  (ne, mkHs (bufio.mkReader s' (bufio.buf (r st)) (bufio.err (r st)))
            (rand_Reader st)).

(** r.ReadByte() *)
Definition r_ReadByte (st : hs) : (byte * option error) * hs :=
  let '(be, r') := bufio.ReadByte (r st) in (be, mkHs r' (rand_Reader st)).

(** io.ReadFull(r, p) *)
Definition r_ReadFull (p : bytes) (st : hs) : (bytes * option error) * hs :=
  let '(be, r') := io.ReadFull (r st) p in (be, mkHs r' (rand_Reader st)).

(** io.ReadFull(rand.Reader, p) *)
Definition rand_ReadFull (p : bytes) (st : hs) : (bytes * option error) * hs :=
  let '(be, g') := io.ReadFull (rand_Reader st) p in (be, mkHs (r st) g').

Definition set_true (authTypes : byte -> bool) (b : byte) : byte -> bool :=
  fun x => if Byte.eqb x b then true else authTypes x.

(** The loop for count = 0; count < 256; count++ with [n] iterations left;
    gives count and authTypes at the loop's exit. *)
Fixpoint authTypes_loop (n count : nat) (authTypes : byte -> bool)
  : M hs (nat * (byte -> bool)) :=
  match n with
  | 0 => ret (count, authTypes)
  | S n' =>
      b <- try r_ReadByte ;;
      if Byte.eqb b x00 then ret (count, authTypes)
      else authTypes_loop n' (S count) (set_true authTypes b)
  end.

Definition authenticate (info : ServerInfo) : M hs unit :=
  (* Read auth types. *)
  '(count, authTypes) <- authTypes_loop 256 0 (fun _ => false) ;;
  if 256 <=? count then
    fail (errors_New (str "read 256 auth types without seeing \x00"))
  (* We support only type 1, SAFE_COOKIE. *)
  else if negb (authTypes x01) then
    fail (errors_New (str "server didn't offer auth type 1"))
  else
    _ <- try (s_Write [x01]) ;;
    clientNonce <- try (rand_ReadFull (make 32)) ;;
    _ <- try (s_Write clientNonce) ;;
    serverHash <- try (r_ReadFull (make 32)) ;;
    serverNonce <- try (r_ReadFull (make 32)) ;;
    let expectedServerHash := computeServerHash info clientNonce serverNonce in
    if negb (subtle.ConstantTimeCompare serverHash expectedServerHash =? 1)%Z then
      fail (errors_New (str "mismatch in server hash"))
    else
      let clientHash := computeClientHash info clientNonce serverNonce in
      _ <- try (s_Write clientHash) ;;
      status <- try (r_ReadFull (make 1)) ;;
      if negb (Byte.eqb (nth 0 status x00) x01) then
        fail (errors_New (str "server rejected authentication"))
      else
        st <- get ;;
        if negb (bufio.Buffered (r st) =? 0) then
          fail (errors_New (fmt.d (bufio.Buffered (r st)) ++
                  str " bytes left after extended OR port authentication"))
        else ret tt.

(** func extOrPortAuthenticate(s *net.TCPConn, info *ServerInfo) error:
    the error, the connection and rand.Reader afterwards. *)
Definition extOrPortAuthenticate (s : net.TCPConn) (rnd : io.source)
    (info : ServerInfo) : option error * net.TCPConn * io.source :=
  let '(res, st) := authenticate info (mkHs (bufio.NewReader s) rnd) in
  (error_of res, bufio.rd (r st), rand_Reader st).

End Hashes.

(** A step of the session setup that makes only Read and Write calls. *)
Definition conn_frame {A} (m : M net.TCPConn A) : Prop :=
  forall c, net.io_only c (snd (m c)).

Definition extOrCmdDone : N := 0x0000.
Definition extOrCmdUserAddr : N := 0x0001.
Definition extOrCmdTransport : N := 0x0002.
Definition extOrCmdOkay : N := 0x1000.
Definition extOrCmdDeny : N := 0x1001.

(** uint16(v) *)
Definition uint16 (v : N) : N := (v mod 65536)%N.

(** The contents of buf when extOrPortWriteCommand writes it. *)
Definition frame (cmd : N) (body : bytes) : bytes :=
  binary.PutUint16 cmd ++ binary.PutUint16 (uint16 (N.of_nat (length body)))
    ++ body.

(** func extOrPortWriteCommand(s *net.TCPConn, cmd uint16, body []byte) error *)
Definition extOrPortWriteCommand (cmd : N) (body : bytes) : M net.TCPConn unit :=
  if (65535 <? N.of_nat (length body))%N then
    fail (errors_New (str "command exceeds maximum length of 65535"))
  else
    _ <- try (net.Write (frame cmd body)) ;;
    ret tt.

(** conn.RemoteAddr().String() is the argument [remoteAddr]. *)
Definition extOrPortSendUserAddr (remoteAddr : bytes) : M net.TCPConn unit :=
  extOrPortWriteCommand extOrCmdUserAddr remoteAddr.

Definition extOrPortSendTransport (methodName : bytes) : M net.TCPConn unit :=
  extOrPortWriteCommand extOrCmdTransport methodName.

Definition extOrPortSendDone : M net.TCPConn unit :=
  extOrPortWriteCommand extOrCmdDone [].

(** func extOrPortRecvCommand(s *net.TCPConn) (cmd uint16, body []byte, err error) *)
Definition extOrPortRecvCommand : M net.TCPConn (N * bytes) :=
  data <- try (fun s => io.ReadFull s (make 4)) ;;
  let cmd := binary.Uint16 (nth 0 data x00) (nth 1 data x00) in
  let bodyLen := binary.Uint16 (nth 2 data x00) (nth 3 data x00) in
  body <- try (fun s => io.ReadFull s (make (N.to_nat bodyLen))) ;;
  ret (cmd, body).

(** func extOrPortSetup(s *net.TCPConn, conn net.Conn, methodName string) error *)
Definition extOrPortSetup (remoteAddr methodName : bytes) : M net.TCPConn unit :=
  _ <- extOrPortSendUserAddr remoteAddr ;;
  _ <- extOrPortSendTransport methodName ;;
  _ <- extOrPortSendDone ;;
  '(cmd, _) <- extOrPortRecvCommand ;;
  if (cmd =? extOrCmdDeny)%N then
    fail (errors_New (str "server returned DENY after our USERADDR and DONE"))
  else if negb (cmd =? extOrCmdOkay)%N then
    fail (errors_New (str "server returned unknown command 0x" ++ fmt.x04 cmd
                        ++ str " after our USERADDR and DONE"))
  else ret tt.

(** What ConnectOr finds around it: net.DialTCP, time.Now() in
    nanoseconds, and rand.Reader. *)
Record world : Type := mkWorld {
  DialTCP : option TCPAddr -> res net.TCPConn;
  Now : Z;
  rnd : io.source
}.

(** What ConnectOr leaves: the returned connection (nil for [None]) and
    error, the state of the connection it dialled, if any, and rand.Reader. *)
Record outcome : Type := mkOutcome {
  ret_conn : option net.TCPConn;
  ret_err : option error;
  dialled : option net.TCPConn;
  rnd' : io.source
}.

Definition Second : Z := 1000000000.

(** func ConnectOr(info, conn, methodName): the connection and the error. *)
Definition ConnectOr `{HMAC_SHA256} (w : world) (info : ServerInfo)
    (remoteAddr methodName : bytes) : outcome :=
  match ExtendedOrAddr info with
  | None =>
      match DialTCP w (OrAddr info) with
      | Ok s => mkOutcome (Some s) None (Some s) (rnd w)
      | Err err => mkOutcome None (Some err) None (rnd w)
      end
  | Some _ =>
      match DialTCP w (ExtendedOrAddr info) with
      | Err err => mkOutcome None (Some err) None (rnd w)
      | Ok s =>
          let s := net.SetDeadline (Some (Now w + 5 * Second)%Z) s in
          let '(err, s, g) := extOrPortAuthenticate s (rnd w) info in
          match err with
          | Some _ => let s := net.Close s in mkOutcome None err (Some s) g
          | None =>
              let '(res, s) := extOrPortSetup remoteAddr methodName s in
              match error_of res with
              | Some err => let s := net.Close s in
                            mkOutcome None (Some err) (Some s) g
              | None =>
                  let s := net.SetDeadline None s in
                  mkOutcome (Some s) None (Some s) g
              end
          end
      end
  end.

End pt.

(** ** The error kinds of the specification *)

Module spec.

(** The kinds of failure the specification names (its section 7).  The
    package has no type or value for them: they are here to state what its
    error values do and do not tell. *)
Inductive kind : Type :=
| ConfigError | ProtocolViolation | AuthRejected | Timeout | IOError.

End spec.

(** ** Sample inputs, used to run the functions at concrete values *)

Module sample.

(** A source that delivers the given pieces, one per Read. *)
Definition chunked (l : list bytes) (fin : error) : io.source :=
  io.mkSource (flat_map (fun c => io.push_chunk c []) l) fin.

Definition secret : bytes := repeat x05 16 ++ repeat xa7 16.

Definition open_as (f : io.source) : bytes -> res io.source := fun _ => Ok f.

Definition cookie_file : io.source :=
  chunked [pt.authCookieHeader ++ secret] io_EOF.

(** The cookie file with one more byte at its end. *)
Definition long_file : io.source :=
  chunked [pt.authCookieHeader; secret ++ [x0a]] io_EOF.

(** A fresh connection on which the peer will send the given pieces and
    then close, and every Write is complete. *)
Definition conn (l : list bytes) : net.TCPConn :=
  net.mkConn (chunked l io_EOF) [] None false [].

(** The frame of an OKAY command with an empty body, and a reply that
    arrives in two pieces with one byte after the frame. *)
Definition okay : bytes := [x10; x00; x00; x00].
Definition okay_conn : net.TCPConn := conn [[x10; x00]; [x00; x00; x2a]].

(** A TRANSPORT command with the body obfs3, arriving in three pieces and
    followed by one more byte. *)
Definition obfs3_conn : net.TCPConn :=
  conn [[x00]; [x02; x00; x05; x6f; x62]; str "fs3" ++ [x2a]].

(** A stand-in for HMAC-SHA256 in the examples: 32 bytes that depend on
    the key and on the message.  It has none of the security of HMAC. *)
Definition toy_hmac : hmac.HMAC_SHA256 :=
  fun key msg =>
    map (fun ab => byte_of_N (N.lxor (Byte.to_N (fst ab)) (Byte.to_N (snd ab))))
        (combine (firstn 32 (key ++ make 32)) (firstn 32 (rev msg ++ make 32))).

Definition info : pt.ServerInfo :=
  pt.mkServerInfo (Some (str "127.0.0.1:9001")) (Some (str "127.0.0.1:9002"))
                  secret.

(** The same configuration without an extended OR port. *)
Definition info_direct : pt.ServerInfo :=
  pt.mkServerInfo (Some (str "127.0.0.1:9001")) None secret.

(** rand.Reader: the bytes it will give. *)
Definition rand_Reader : io.source :=
  chunked [repeat x3c 20; repeat xd2 30] io_EOF.

Definition client_nonce : bytes := repeat x3c 20 ++ repeat xd2 12.
Definition server_nonce : bytes := repeat x11 32.

Definition server_hash : bytes :=
  @pt.computeServerHash toy_hmac info client_nonce server_nonce.

(** What a peer that holds the cookie sends: the auth types, its hash and
    nonce, the status byte, and later the reply to DONE. *)
Definition peer (reply : bytes) : list bytes :=
  [[x02; x01; x00]; server_hash ++ firstn 10 server_nonce;
   skipn 10 server_nonce; [x01]; reply].

(** A peer that answers with a hash that is not the expected one. *)
Definition bad_peer : list bytes :=
  [[x02; x01; x00]; repeat x00 32 ++ server_nonce].

Definition deny : bytes := [x10; x01; x00; x00].

Definition timeout : error := net_OpError true (str "i/o timeout").

(** A peer that accepts the connection and then sends nothing before the
    deadline. *)
Definition silent_conn : net.TCPConn :=
  net.mkConn (io.mkSource [] timeout) [] None false [].

(** The error of the handshake with a peer that offers only auth type 2,
    and with a peer that sends 256 auth types and no zero byte. *)
Definition reject_error : option error :=
  fst (fst (@pt.extOrPortAuthenticate toy_hmac (conn [[x02; x00]]) rand_Reader info)).

Definition violation_error : option error :=
  fst (fst (@pt.extOrPortAuthenticate toy_hmac (conn [repeat x02 256])
              rand_Reader info)).

Definition world (c : net.TCPConn) : pt.world :=
  pt.mkWorld (fun _ => Ok c) 1700000000000000000 rand_Reader.

End sample.

(** ** strings: Split, SplitN and Join as the package calls them *)

Module strings.

(** strings.Split(s, sep) for a separator of one byte: the pieces of s
    between the separators, one more than there are separators. *)
Fixpoint Split (s : bytes) (sep : byte) : list bytes :=
  match s with
  | [] => [[]]
  | c :: s' =>
      if Byte.eqb c sep then [] :: Split s' sep
      else match Split s' sep with
           | piece :: pieces => (c :: piece) :: pieces
           | [] => [[c]]
           end
  end.

(** strings.SplitN(s, sep, 2) for a separator of one byte: s cut at its
    first separator, or s alone when it has none. *)
Fixpoint SplitN2 (s : bytes) (sep : byte) : list bytes :=
  match s with
  | [] => [[]]
  | c :: s' =>
      if Byte.eqb c sep then [[]; s']
      else match SplitN2 s' sep with
           | piece :: pieces => (c :: piece) :: pieces
           | [] => [[c]]
           end
  end.

(** strings.Join(a, sep) for a separator of one byte. *)
Fixpoint Join (a : list bytes) (sep : byte) : bytes :=
  match a with
  | [] => []
  | x :: rest =>
      match rest with
      | [] => x
      | _ => x ++ sep :: Join rest sep
      end
  end.

End strings.

(** ** package pt: the environment, the status lines and the setup *)

Module pt_env.

Import pt_line.

(** type ptErr struct *)
Record ptErr : Type := mkPtErr {
  Keyword : bytes;
  Args : list bytes
}.

(** func (err *ptErr) Error() string *)
Definition ptErr_Error (err : ptErr) : bytes :=
  formatLine (Keyword err) (Args err).

(** An inverse of [escape], not part of the package: it reads back the
    bytes that escape wrote, and is here to state that escape loses
    nothing. *)
Definition unhex (c : byte) : option N :=
  let n := Byte.to_N c in
  if (48 <=? n)%N && (n <=? 57)%N then Some (n - 48)%N
  else if (97 <=? n)%N && (n <=? 102)%N then Some (n - 87)%N
  else None.

Fixpoint unescape (s : bytes) : option bytes :=
  match s with
  | [] => Some []
  | c :: s1 =>
      if Byte.eqb c backslash then
        match s1 with
        | [] => None
        | d :: s2 =>
            if Byte.eqb d x6e then option_map (cons newline) (unescape s2)
            else if Byte.eqb d backslash then
              option_map (cons backslash) (unescape s2)
            else if Byte.eqb d x78 then
              match s2 with
              | h1 :: h0 :: s3 =>
                  match unhex h1, unhex h0 with
                  | Some n1, Some n0 =>
                      option_map (cons (byte_of_N (16 * n1 + n0))) (unescape s3)
                  | _, _ => None
                  end
              | _ => None
              end
            else None
        end
      else option_map (cons c) (unescape s1)
  end.

(** The functions of this part print on standard output and return, as
    their error, a *ptErr and nothing else.  [P A] is such a function: from
    the bytes written to standard output so far to its result and the
    bytes written after it. *)
Inductive result (A : Type) : Type :=
| Done (a : A)
| Failed (e : ptErr).
Arguments Done {A}.
Arguments Failed {A}.

Definition P (A : Type) : Type := bytes -> result A * bytes.

Definition pret {A} (a : A) : P A := fun out => (Done a, out).

Definition pbind {A B} (m : P A) (k : A -> P B) : P B :=
  fun out =>
    match m out with
    | (Done a, out') => k a out'
    | (Failed e, out') => (Failed e, out')
    end.

(** return zero, doError(...): the error is printed and returned. *)
Definition praise {A} (f : bytes -> ptErr * bytes) : P A :=
  fun out => let '(e, out') := f out in (Failed e, out').

(** [m] prints nothing when it succeeds, and when it fails it prints the
    line of the error it returns and nothing else. *)
Definition reports {A} (m : P A) : Prop :=
  forall out,
    match m out with
    | (Done _, out') => out' = out
    | (Failed e, out') => out' = out ++ ptErr_Error e ++ [newline]
    end.

(** func Line(keyword string, v ...string): fmt.Println of the line. *)
Definition Line (keyword : bytes) (v : list bytes) (out : bytes) : bytes :=
  out ++ formatLine keyword v ++ [newline].

(** func doError(keyword string, v ...string) *ptErr *)
Definition doError (keyword : bytes) (v : list bytes) (out : bytes)
  : ptErr * bytes :=
  (mkPtErr keyword v, Line keyword v out).

(** Standard output went from [out] to [out'] by one line: bytes in
    1..127 without a newline, and the newline that ends them. *)
Definition one_line (out out' : bytes) : Prop :=
  exists l, out' = out ++ l ++ [newline] /\ Forall line_byte l.

Definition EnvError (msg : bytes) := doError (str "ENV-ERROR") [msg].
Definition VersionError (msg : bytes) := doError (str "VERSION-ERROR") [msg].
Definition CmethodError (methodName msg : bytes) :=
  doError (str "CMETHOD-ERROR") [methodName; msg].
Definition SmethodError (methodName msg : bytes) :=
  doError (str "SMETHOD-ERROR") [methodName; msg].

(** func Cmethod(name string, socks string, addr net.Addr); [addr] is
    addr.String(). *)
Definition Cmethod (name socks addr : bytes) := Line (str "CMETHOD") [name; socks; addr].
Definition CmethodsDone := Line (str "CMETHODS") [str "DONE"].
Definition Smethod (name addr : bytes) := Line (str "SMETHOD") [name; addr].
Definition SmethodsDone := Line (str "SMETHODS") [str "DONE"].

Definition is_empty (s : bytes) : bool :=
  match s with [] => true | _ => false end.

(** type ClientInfo struct *)
Record ClientInfo : Type := mkClientInfo { MethodNames : list bytes }.

(** type BindAddr struct *)
Record BindAddr : Type := mkBindAddr {
  MethodName : bytes;
  Addr : pt.TCPAddr
}.

(** type ServerInfo struct, with all its fields; [pt.ServerInfo] above is
    this record without BindAddrs, which ConnectOr does not read. *)
Record ServerInfo : Type := mkServerInfo {
  BindAddrs : list BindAddr;
  OrAddr : option pt.TCPAddr;
  ExtendedOrAddr : option pt.TCPAddr;
  AuthCookie : bytes
}.

Definition for_ConnectOr (info : ServerInfo) : pt.ServerInfo :=
  pt.mkServerInfo (OrAddr info) (ExtendedOrAddr info) (AuthCookie info).

(** The inner loop of getClientTransports and of filterBindAddrs: whether
    [name] is one of methodNames. *)
Fixpoint offered_in (name : bytes) (methodNames : list bytes) : bool :=
  match methodNames with
  | [] => false
  | methodName :: rest =>
      if pt.bytes_Equal name methodName then true else offered_in name rest
  end.

(** The inner loop of getClientTransports: the methodName it appends. *)
Fixpoint first_equal (requested : bytes) (methodNames : list bytes) : option bytes :=
  match methodNames with
  | [] => None
  | methodName :: rest =>
      if pt.bytes_Equal requested methodName then Some methodName
      else first_equal requested rest
  end.

(** func filterBindAddrs(addrs []BindAddr, methodNames []string) []BindAddr *)
Definition filterBindAddrs (addrs : list BindAddr) (methodNames : list bytes)
  : list BindAddr :=
  fold_left
    (fun result ba =>
       if offered_in (MethodName ba) methodNames then result ++ [ba] else result)
    addrs [].

Section Env.

(** os.Getenv: the value, empty for a variable that is not set. *)
Variable Getenv : bytes -> bytes.
(** net.ResolveTCPAddr("tcp", addr) *)
Variable ResolveTCPAddr : bytes -> res pt.TCPAddr.
(** The verb %q of fmt. *)
Variable Quote : bytes -> bytes.
(** os.Open, as for [pt.readAuthCookieFile]. *)
Variable Open : bytes -> res io.source.

(** func getenv(key string) string *)
Definition getenv (key : bytes) : bytes := Getenv key.

(** func getenvRequired(key string) (string, error) *)
Definition getenvRequired (key : bytes) : P bytes :=
  let value := Getenv key in
  if is_empty value then
    praise (EnvError (str "no " ++ key ++ str " environment variable"))
  else pret value.

(** The loop of getManagedTransportVer over the offered versions. *)
Fixpoint find_version (offers : list bytes) : P bytes :=
  match offers with
  | [] => praise (VersionError (str "no-version"))
  | offered :: rest =>
      if pt.bytes_Equal offered (str "1") then pret offered
      else find_version rest
  end.

(** func getManagedTransportVer() (string, error) *)
Definition getManagedTransportVer : P bytes :=
  pbind (getenvRequired (str "TOR_PT_MANAGED_TRANSPORT_VER"))
    (fun managedTransportVer =>
       find_version (strings.Split managedTransportVer x2c)).

(** func getClientTransports(methodNames []string) ([]string, error) *)
Definition getClientTransports (methodNames : list bytes) : P (list bytes) :=
  pbind (getenvRequired (str "TOR_PT_CLIENT_TRANSPORTS"))
    (fun clientTransports =>
       if pt.bytes_Equal clientTransports (str "*") then pret methodNames
       else
         pret (fold_left
                 (fun result requested =>
                    match first_equal requested methodNames with
                    | Some methodName => result ++ [methodName]
                    | None => result
                    end)
                 (strings.Split clientTransports x2c) [])).

(** func ClientSetup(methodNames []string) (ClientInfo, error): the info,
    the error, and standard output afterwards. *)
Definition ClientSetup (methodNames : list bytes) (out : bytes)
  : (ClientInfo * option ptErr) * bytes :=
  let info := mkClientInfo [] in
  match getManagedTransportVer out with
  | (Failed err, out) => ((info, Some err), out)
  | (Done ver, out) =>
      let out := Line (str "VERSION") [ver] out in
      match getClientTransports methodNames out with
      | (Failed err, out) => ((info, Some err), out)
      | (Done names, out) => ((mkClientInfo names, None), out)
      end
  end.

(** func resolveBindAddr(bindAddr string) ( *net.TCPAddr, error) *)
Definition resolveBindAddr (bindAddr : bytes) : res pt.TCPAddr :=
  match ResolveTCPAddr bindAddr with
  | Ok addr => Ok addr
  | Err err =>
      let parts := strings.Split bindAddr x3a in
      if length parts <=? 2 then Err err
      else
        ResolveTCPAddr
          (str "[" ++ strings.Join (firstn (length parts - 1) parts) x3a
             ++ str "]:" ++ nth (length parts - 1) parts [])
  end.

(** [spec] is the method name of [ba], a dash, and an address that
    resolves to the address of [ba]. *)
Definition spec_of (spec : bytes) (ba : BindAddr) : Prop :=
  exists hostport,
    spec = MethodName ba ++ x2d :: hostport /\
    ~ In x2d (MethodName ba) /\
    resolveBindAddr hostport = Ok (Addr ba).

(** The loop of getServerBindAddrs over the comma-separated specs. *)
Fixpoint parse_bindaddrs (specs : list bytes) (result : list BindAddr)
  : P (list BindAddr) :=
  match specs with
  | [] => pret result
  | spec :: rest =>
      match strings.SplitN2 spec x2d with
      | [name; hostport] =>
          match resolveBindAddr hostport with
          | Err err =>
              praise (EnvError (str "TOR_PT_SERVER_BINDADDR: " ++ Quote spec
                                  ++ str ": " ++ Error err))
          | Ok addr => parse_bindaddrs rest (result ++ [mkBindAddr name addr])
          end
      | _ =>
          praise (EnvError (str "TOR_PT_SERVER_BINDADDR: " ++ Quote spec
                              ++ str ": doesn't contain " ++ [x22; x2d; x22]))
      end
  end.

(** func getServerBindAddrs(methodNames []string) ([]BindAddr, error) *)
Definition getServerBindAddrs (methodNames : list bytes) : P (list BindAddr) :=
  pbind (getenvRequired (str "TOR_PT_SERVER_BINDADDR"))
    (fun serverBindAddr =>
  pbind (parse_bindaddrs (strings.Split serverBindAddr x2c) [])
    (fun result =>
  pbind (getenvRequired (str "TOR_PT_SERVER_TRANSPORTS"))
    (fun serverTransports =>
       let result :=
         if negb (pt.bytes_Equal serverTransports (str "*")) then
           filterBindAddrs result (strings.Split serverTransports x2c)
         else result in
       pret (filterBindAddrs result methodNames)))).

(** func ServerSetup(methodNames []string) (ServerInfo, error): the info,
    the error, and standard output afterwards. *)
Definition ServerSetup (methodNames : list bytes) (out : bytes)
  : (ServerInfo * option ptErr) * bytes :=
  let info := mkServerInfo [] None None [] in
  match getManagedTransportVer out with
  | (Failed err, out) => ((info, Some err), out)
  | (Done ver, out) =>
  let out := Line (str "VERSION") [ver] out in
  match getenvRequired (str "TOR_PT_ORPORT") out with
  | (Failed err, out) => ((info, Some err), out)
  | (Done orPort, out) =>
  match ResolveTCPAddr orPort with
  | Err err =>
      let '(e, out) :=
        EnvError (str "cannot resolve TOR_PT_ORPORT " ++ Quote orPort
                    ++ str ": " ++ Error err) out in
      ((info, Some e), out)
  | Ok orAddr =>
  let info := mkServerInfo [] (Some orAddr) None [] in
  match getServerBindAddrs methodNames out with
  | (Failed err, out) => ((info, Some err), out)
  | (Done bindAddrs, out) =>
  let info := mkServerInfo bindAddrs (Some orAddr) None [] in
  let extendedOrPort := getenv (str "TOR_PT_EXTENDED_SERVER_PORT") in
  let extended :=
    if negb (is_empty extendedOrPort) then
      match ResolveTCPAddr extendedOrPort with
      | Err err => Err err
      | Ok a => Ok (Some a)
      end
    else Ok None in
  match extended with
  | Err err =>
      let '(e, out) :=
        EnvError (str "cannot resolve TOR_PT_EXTENDED_SERVER_PORT "
                    ++ Quote extendedOrPort ++ str ": " ++ Error err) out in
      ((info, Some e), out)
  | Ok extendedOrAddr =>
  let info := mkServerInfo bindAddrs (Some orAddr) extendedOrAddr [] in
  let authCookieFilename := getenv (str "TOR_PT_AUTH_COOKIE_FILE") in
  if negb (is_empty authCookieFilename) then
    let '(cookie, err) := pt.readAuthCookieFile Open authCookieFilename in
    let info := mkServerInfo bindAddrs (Some orAddr) extendedOrAddr cookie in
    match err with
    | Some err =>
        let '(e, out) :=
          EnvError (str "error reading TOR_PT_AUTH_COOKIE_FILE "
                      ++ Quote authCookieFilename ++ str ": " ++ Error err) out in
        ((info, Some e), out)
    | None => ((info, None), out)
    end
  else ((info, None), out)
  end end end end end.

End Env.

(** What ClientSetup and ServerSetup leave on standard output: the
    VERSION line alone when they return no error; with an error, the line
    of that error, after the VERSION line or alone. *)
Definition setup_output (out : bytes) (err : option ptErr) (out' : bytes)
  : Prop :=
  match err with
  | None => out' = out ++ str "VERSION 1" ++ [newline]
  | Some e =>
      out' = out ++ ptErr_Error e ++ [newline] \/
      out' = out ++ str "VERSION 1" ++ [newline] ++ ptErr_Error e ++ [newline]
  end.

End pt_env.

(** ** The pieces in which the peer's bytes arrive *)

Module segments.

(** The bytes of a list of pieces. *)
Definition flat (cs : list (byte * bytes)) : bytes :=
  flat_map io.chunk_bytes cs.

(** What the bufio.Reader of a connection will still deliver: its buffer,
    then what the peer sends. *)
Definition unread (b : bufio.Reader net.TCPConn) : bytes :=
  bufio.buf b ++ io.pending (net.inp (bufio.rd b)).

(** The pieces [post] have not been touched: they are the last pieces the
    connection will deliver. *)
Definition aligned (post : list (byte * bytes)) (b : bufio.Reader net.TCPConn)
  : Prop :=
  exists q, io.chunks (net.inp (bufio.rd b)) = q ++ post.

(** From [b] to [b'] bytes were only consumed, and the pieces [post] were
    not touched unless bytes of them were consumed. *)
Definition keeps (post : list (byte * bytes)) (b b' : bufio.Reader net.TCPConn)
  : Prop :=
  length (unread b') <= length (unread b) /\
  (aligned post b -> length (flat post) <= length (unread b') ->
   aligned post b').

End segments.

(** ** Peers for the examples of the handshake *)

Module sample_run.

(** The pieces of an answer up to the server nonce, and the piece of an
    OKAY command followed by one more byte. *)
Definition pre : list (byte * bytes) :=
  io.chunks (sample.chunked
               [[x02; x01; x00];
                sample.server_hash ++ firstn 10 sample.server_nonce;
                skipn 10 sample.server_nonce] io_EOF).

Definition more : list (byte * bytes) :=
  io.chunks (sample.chunked [sample.okay ++ [x2a]] io_EOF).

(** A peer whose status byte 1 comes in one piece with [extra]. *)
Definition answer (extra : bytes) : net.TCPConn :=
  net.mkConn (io.mkSource (pre ++ (x01, extra) :: more) io_EOF) [] None false [].

(** A peer that answers with the status byte 0. *)
Definition status_zero : net.TCPConn :=
  sample.conn [[x02; x01; x00]; sample.server_hash ++ sample.server_nonce; [x00]].

(** A peer that closes after 7 bytes of its hash. *)
Definition cut_short : net.TCPConn :=
  sample.conn [[x02; x01; x00]; firstn 7 sample.server_hash].

(** A connection on which the first Write fails. *)
Definition broken : net.TCPConn :=
  net.mkConn (sample.chunked [[x01; x00]] io_EOF)
    [Some (0, net_OpError false (str "broken pipe"))] None false [].

End sample_run.

(** ** An environment for the examples of the setup functions *)

Module sample_env.

Definition lookup (env : list (bytes * bytes)) (key : bytes) : bytes :=
  match find (fun kv => pt.bytes_Equal (fst kv) key) env with
  | Some kv => snd kv
  | None => []
  end.

Definition cookie_path : bytes := str "/var/lib/tor/extended_orport_auth_cookie".

(** The environment tor gives a server transport. *)
Definition server_env : list (bytes * bytes) :=
  [ (str "TOR_PT_MANAGED_TRANSPORT_VER", str "2,1");
    (str "TOR_PT_ORPORT", str "127.0.0.1:9001");
    (str "TOR_PT_EXTENDED_SERVER_PORT", str "127.0.0.1:9002");
    (str "TOR_PT_SERVER_BINDADDR",
     str "obfs3-127.0.0.1:5001,dummy-::1:5002,scramble-127.0.0.1:5003");
    (str "TOR_PT_SERVER_TRANSPORTS", str "dummy,obfs3");
    (str "TOR_PT_AUTH_COOKIE_FILE", cookie_path) ].

Definition Getenv : bytes -> bytes := lookup server_env.

(** The same environment with a bind address that has no dash. *)
Definition Getenv_bad : bytes -> bytes :=
  lookup ((str "TOR_PT_SERVER_BINDADDR", str "obfs3-127.0.0.1:5001,dummy")
            :: server_env).

(** A resolver that takes host:port with one colon, or a host in
    brackets, and returns the string it was given. *)
Definition ResolveTCPAddr (addr : bytes) : res pt.TCPAddr :=
  if (length (filter (Byte.eqb x3a) addr) =? 1)
     || match addr with c :: _ => Byte.eqb c x5b | [] => false end
  then Ok addr
  else Err (errors_New (str "too many colons in address")).

(** %q for a string of printable ASCII without quotes or backslashes. *)
Definition Quote (s : bytes) : bytes := [x22] ++ s ++ [x22].

(** A file system with the cookie file, and with a cookie file that is
    one byte too long. *)
Definition Open (fn : bytes) : res io.source :=
  if pt.bytes_Equal fn cookie_path then Ok sample.cookie_file
  else Err (os_PathError (str "open: no such file or directory")).

Definition Open_long (fn : bytes) : res io.source := Ok sample.long_file.

Definition bindaddrs : list pt_env.BindAddr :=
  [ pt_env.mkBindAddr (str "obfs3") (str "127.0.0.1:5001");
    pt_env.mkBindAddr (str "dummy") (str "[::1]:5002");
    pt_env.mkBindAddr (str "scramble") (str "127.0.0.1:5003") ].

End sample_env.

(** * Properties *)

(** ** Lists and bytes *)

Lemma fold_left_app_flat_map {A B} (f : A -> list B) (l : list A) (acc : list B) :
  fold_left (fun buf a => buf ++ f a) l acc = acc ++ flat_map f l.
Proof.
  revert acc; induction l as [|a l IH]; intro acc; simpl.
  - now rewrite app_nil_r.
  - now rewrite IH, app_assoc.
Qed.

Lemma Forall_flat_map {A B} (P : B -> Prop) (f : A -> list B) (l : list A) :
  (forall a, In a l -> Forall P (f a)) -> Forall P (flat_map f l).
Proof.
  induction l as [|a l IH]; intro H; simpl.
  - constructor.
  - apply Forall_app; split; [apply H; now left | apply IH; intros; apply H; now right].
Qed.

Lemma firstn_app_exact {A} (l1 l2 : list A) (n : nat) :
  length l1 = n -> firstn n (l1 ++ l2) = l1.
Proof.
  intros <-. rewrite firstn_app, Nat.sub_diag, firstn_all, firstn_O.
  apply app_nil_r.
Qed.

Lemma skipn_app_exact {A} (l1 l2 : list A) (n : nat) :
  length l1 = n -> skipn n (l1 ++ l2) = l2.
Proof.
  intros <-. rewrite skipn_app, Nat.sub_diag, skipn_all, skipn_O. reflexivity.
Qed.

Lemma byte_eqb_eq (a b : byte) : Byte.eqb a b = true <-> a = b.
Proof.
  split; [apply Byte.byte_dec_bl | apply Byte.byte_dec_lb].
Qed.

Lemma byte_eqb_neq (a b : byte) : Byte.eqb a b = false <-> a <> b.
Proof.
  rewrite <- byte_eqb_eq. destruct (Byte.eqb a b); split; congruence.
Qed.

(** ** Status lines *)

Section Lines.
Import pt_line.

Lemma line_byteb_spec (b : byte) : line_byteb b = true -> line_byte b.
Proof.
  unfold line_byteb, line_byte. intro H.
  apply andb_prop in H as [H Hn]. apply andb_prop in H as [H1 H2].
  apply N.leb_le in H1. apply N.leb_le in H2.
  apply negb_true_iff, byte_eqb_neq in Hn. tauto.
Qed.

Lemma Forall_line_byteb (l : bytes) : forallb line_byteb l = true -> Forall line_byte l.
Proof.
  intro H. apply Forall_forall. intros b Hb.
  apply line_byteb_spec. rewrite forallb_forall in H. now apply H.
Qed.

Lemma escape_byte_line (b : byte) : Forall line_byte (escape_byte b).
Proof.
  apply Forall_line_byteb. destruct b; reflexivity.
Qed.

Lemma escape_flat_map (s : bytes) : escape s = flat_map escape_byte s.
Proof.
  unfold escape. now rewrite fold_left_app_flat_map.
Qed.

Lemma escape_line (s : bytes) : Forall line_byte (escape s).
Proof.
  rewrite escape_flat_map. apply Forall_flat_map. intros; apply escape_byte_line.
Qed.

Lemma escape_byte_hex (b : byte) :
  (Byte.to_N b = 0 \/ 128 <= Byte.to_N b)%N ->
  escape_byte b = [backslash; x78] ++ fmt.x02 b /\ length (escape_byte b) = 4.
Proof.
  intro H.
  assert (E : ((Byte.to_N b =? 0) || (128 <=? Byte.to_N b))%N = true).
  { apply orb_true_iff. rewrite N.eqb_eq, N.leb_le. exact H. }
  clear H. destruct b; try discriminate E; split; reflexivity.
Qed.

Lemma escape_byte_plain (b : byte) :
  b <> newline -> b <> backslash -> (1 <= Byte.to_N b <= 127)%N ->
  escape_byte b = [b].
Proof.
  intros Hn Hb [H1 H2]. unfold escape_byte.
  apply byte_eqb_neq in Hn, Hb. rewrite Hn, Hb.
  replace (0 <? Byte.to_N b)%N with true by (symmetry; apply N.ltb_lt; lia).
  replace (Byte.to_N b <? 128)%N with true by (symmetry; apply N.ltb_lt; lia).
  reflexivity.
Qed.

Lemma formatLine_flat_map (keyword : bytes) (v : list bytes) :
  formatLine keyword v = keyword ++ flat_map (fun x => str " " ++ escape x) v.
Proof.
  unfold formatLine. apply fold_left_app_flat_map.
Qed.

Lemma keywords_line : Forall (Forall line_byte) keywords.
Proof.
  unfold keywords.
  repeat (apply Forall_cons; [apply Forall_line_byteb; reflexivity|]).
  constructor.
Qed.

(** C10 (as amended).  escape returns only bytes in 1..127 and no newline:
    newline becomes backslash n, backslash is doubled, a byte that is 0 or
    at least 128 becomes the four characters backslash x and two hex
    digits, every other byte is kept.  formatLine writes the keyword as it
    is, unescaped, then a space and the escaped argument for each argument;
    so a status line whose keyword holds only bytes in 1..127 other than
    newline (as every keyword the package uses does) is a single line of
    such bytes. *)
Theorem formatLine_single_ascii_line (keyword : bytes) (v : list bytes) :
  Forall line_byte keyword ->
  Forall line_byte (formatLine keyword v) /\
  formatLine keyword v = keyword ++ flat_map (fun x => x20 :: escape x) v /\
  (forall s, Forall line_byte (escape s) /\ escape s = flat_map escape_byte s) /\
  escape_byte newline = [backslash; x6e] /\
  escape_byte backslash = [backslash; backslash] /\
  (forall b, (Byte.to_N b = 0 \/ 128 <= Byte.to_N b)%N ->
     escape_byte b = [backslash; x78] ++ fmt.x02 b /\ length (escape_byte b) = 4) /\
  (forall b, b <> newline -> b <> backslash -> (1 <= Byte.to_N b <= 127)%N ->
     escape_byte b = [b]) /\
  Forall (Forall line_byte) keywords.
Proof.
  intro Hk. split; [|split; [|split; [|split; [|split; [|split; [|split]]]]]].
  - rewrite formatLine_flat_map. apply Forall_app; split; [exact Hk|].
    apply Forall_flat_map. intros x _. apply Forall_app; split.
    + apply Forall_line_byteb; reflexivity.
    + apply escape_line.
  - apply formatLine_flat_map.
  - intro s; split; [apply escape_line | apply escape_flat_map].
  - reflexivity.
  - reflexivity.
  - apply escape_byte_hex.
  - apply escape_byte_plain.
  - apply keywords_line.
Qed.

Lemma formatLine_single_ascii_line_witness :
  Forall line_byte (formatLine (str "CMETHOD") [str "foo"; [x0a; xff]]).
Proof.
  apply (formatLine_single_ascii_line (str "CMETHOD") [str "foo"; [x0a; xff]]).
  apply Forall_line_byteb; reflexivity.
Defined.

(** C10 as stated fails: the keyword is not escaped, so a keyword with a
    newline gives a status line of two lines. *)
Lemma formatLine_keyword_not_escaped :
  formatLine [x41; x0a; x42] [str "x"] = [x41; x0a; x42; x20; x78] /\
  ~ Forall line_byte (formatLine [x41; x0a; x42] [str "x"]).
Proof.
  split; [reflexivity|].
  intro H. apply Forall_forall with (x := x0a) in H.
  - destruct H as [_ H]. now apply H.
  - right; now left.
Qed.

End Lines.

(** ** Readers as byte streams *)

Section ReadFullSpec.
Context {R : Type} `{io.Stream R}.

Lemma at_least_short (n : nat) (got : bytes) (e : error) :
  length got < n ->
  io.at_least_result n got (Some e) = Some (io.short_read got e).
Proof.
  intro Hlt. unfold io.at_least_result, io.short_read.
  replace (n <=? length got) with false by (symmetry; apply Nat.leb_gt; lia).
  destruct e; try reflexivity. destruct got; reflexivity.
Qed.

Lemma short_read_app_nonempty (got bs : bytes) (e : error) :
  got <> [] -> io.short_read (got ++ bs) e = io.short_read got e.
Proof.
  intro Hg. destruct got as [|g got]; [congruence|]. reflexivity.
Qed.

(** The loop of io.ReadAtLeast, when the stream holds enough bytes. *)
Lemma ReadAtLeast_loop_enough (fuel : nat) :
  forall (r : R) (got : bytes) (n : nat),
    io.inv r -> n <= length got + fuel -> length got <= n ->
    n - length got <= length (io.pend r) ->
    exists r',
      io.ReadAtLeast_loop fuel r got n n
        = ((got ++ firstn (n - length got) (io.pend r), None), r') /\
      io.pend r' = skipn (n - length got) (io.pend r) /\
      io.fin r' = io.fin r /\ io.inv r' /\ io.keeps r r'.
Proof.
  induction fuel as [|fuel IH]; intros r got n Hinv Hfuel Hgot Hen.
  - assert (E : n - length got = 0) by lia.
    exists r. simpl. replace (n <=? length got) with true
      by (symmetry; apply Nat.leb_le; lia).
    rewrite E. simpl. rewrite app_nil_r.
    repeat split; auto using io.keeps_refl.
  - simpl. destruct (n <=? length got) eqn:Hle.
    + apply Nat.leb_le in Hle. assert (E : n - length got = 0) by lia.
      exists r. rewrite E. simpl. rewrite app_nil_r.
      repeat split; auto using io.keeps_refl.
    + apply Nat.leb_gt in Hle.
      assert (Hne : io.pend r <> []).
      { intro E. rewrite E in Hen. simpl in Hen. lia. }
      assert (Hpos : 0 < n - length got) by lia.
      destruct (io.Read_data (n - length got) r Hinv Hpos Hne)
        as (bs & r1 & HR & Hbs & Hlen & Hp & Hf & Hi & Hk).
      rewrite HR.
      assert (Hbl : 0 < length bs) by (destruct bs; [congruence | simpl; lia]).
      destruct (IH r1 (got ++ bs) n Hi) as (r' & HL & Hp' & Hf' & Hi' & Hk').
      * rewrite length_app. lia.
      * rewrite length_app. lia.
      * rewrite length_app. rewrite Hp, length_app in Hen. lia.
      * exists r'. rewrite HL. rewrite length_app in *.
        replace (n - (length got + length bs)) with (n - length got - length bs)
          in * by lia.
        rewrite Hp. rewrite firstn_app, skipn_app.
        rewrite (firstn_all2 bs) by lia. rewrite (skipn_all2 bs) by lia.
        rewrite <- app_assoc. simpl.
        repeat split; eauto using io.keeps_trans; congruence.
Qed.

(** The loop of io.ReadAtLeast, when the stream ends too early. *)
Lemma ReadAtLeast_loop_short (fuel : nat) :
  forall (r : R) (got : bytes) (n : nat),
    io.inv r -> n <= length got + fuel -> length got <= n ->
    length (io.pend r) < n - length got ->
    exists r',
      io.ReadAtLeast_loop fuel r got n n
        = ((got ++ io.pend r, Some (io.short_read (got ++ io.pend r) (io.fin r))), r') /\
      io.pend r' = [] /\ io.fin r' = io.fin r /\ io.inv r' /\ io.keeps r r'.
Proof.
  induction fuel as [|fuel IH]; intros r got n Hinv Hfuel Hgot Hsh.
  - lia.
  - simpl. replace (n <=? length got) with false
      by (symmetry; apply Nat.leb_gt; lia).
    assert (Hpos : 0 < n - length got) by lia.
    destruct (io.pend r) as [|p0 ps] eqn:Hp.
    + destruct (io.Read_end (n - length got) r Hinv Hpos Hp)
        as (r' & HR & Hp' & Hf & Hi & Hk).
      rewrite HR. exists r'. rewrite at_least_short by (rewrite app_nil_r; lia).
      repeat split; auto.
    + assert (Hne : io.pend r <> []) by (rewrite Hp; discriminate).
      destruct (io.Read_data (n - length got) r Hinv Hpos Hne)
        as (bs & r1 & HR & Hbs & Hlen & Hpp & Hf & Hi & Hk).
      rewrite HR.
      assert (Hbl : 0 < length bs) by (destruct bs; [congruence | simpl; lia]).
      assert (Hl : length (p0 :: ps) = length bs + length (io.pend r1)).
      { rewrite <- Hp, Hpp. apply length_app. }
      destruct (IH r1 (got ++ bs) n Hi) as (r' & HL & Hp' & Hf' & Hi' & Hk').
      * rewrite length_app. lia.
      * rewrite length_app. lia.
      * rewrite length_app. lia.
      * exists r'. rewrite HL. rewrite <- Hp, Hpp, <- app_assoc.
        repeat split; eauto using io.keeps_trans; congruence.
Qed.

(** io.ReadFull on a stream that holds at least len(p) bytes. *)
Lemma ReadFull_enough (r : R) (p : bytes) :
  io.inv r -> length p <= length (io.pend r) ->
  exists r',
    io.ReadFull r p = ((firstn (length p) (io.pend r), None), r') /\
    io.pend r' = skipn (length p) (io.pend r) /\
    io.fin r' = io.fin r /\ io.inv r' /\ io.keeps r r'.
Proof.
  intros Hinv Hen. unfold io.ReadFull.
  destruct (ReadAtLeast_loop_enough (length p) r [] (length p) Hinv)
    as (r' & HL & Hp & Hf & Hi & Hk); simpl; try lia.
  rewrite HL. simpl in *. rewrite Nat.sub_0_r in *.
  exists r'. unfold overlay. rewrite skipn_all2 by (rewrite length_firstn; lia).
  rewrite app_nil_r. auto.
Qed.

(** io.ReadFull on a stream that ends before len(p) bytes: the bytes that
    were there are in p, and the error is that of the stream, with
    io.ErrUnexpectedEOF for an io.EOF after some bytes. *)
Lemma ReadFull_short (r : R) (p : bytes) :
  io.inv r -> length (io.pend r) < length p ->
  exists r',
    io.ReadFull r p
      = ((overlay (io.pend r) p, Some (io.short_read (io.pend r) (io.fin r))), r') /\
    io.pend r' = [] /\ io.fin r' = io.fin r /\ io.inv r' /\ io.keeps r r'.
Proof.
  intros Hinv Hsh. unfold io.ReadFull.
  destruct (ReadAtLeast_loop_short (length p) r [] (length p) Hinv)
    as (r' & HL & Hp & Hf & Hi & Hk); simpl; try lia.
  rewrite HL. simpl in *. exists r'. auto.
Qed.

End ReadFullSpec.

Section Sources.

Lemma pending_push_chunk (l : bytes) (cs : list (byte * bytes)) :
  flat_map io.chunk_bytes (io.push_chunk l cs) = l ++ flat_map io.chunk_bytes cs.
Proof.
  destruct l; reflexivity.
Qed.

Lemma source_Read_data (n : nat) (s : io.source) :
  True -> 0 < n -> io.pending s <> [] ->
  exists bs s', io.source_Read n s = ((bs, None), s') /\ bs <> [] /\
    (length bs <= n) /\ io.pending s = bs ++ io.pending s' /\
    io.final s' = io.final s /\ True /\ True.
Proof.
  intros _ Hn Hp. unfold io.source_Read, io.pending in *.
  destruct (io.chunks s) as [|[b bs] rest]; [now elim Hp|].
  eexists; eexists; split; [reflexivity|].
  destruct n as [|n]; [lia|]. simpl.
  repeat split; auto.
  - discriminate.
  - rewrite length_firstn. lia.
  - rewrite pending_push_chunk. rewrite app_assoc.
    now rewrite firstn_skipn.
Qed.

Lemma source_Read_end (n : nat) (s : io.source) :
  True -> 0 < n -> io.pending s = [] ->
  exists s', io.source_Read n s = (([], Some (io.final s)), s') /\
    io.pending s' = [] /\ io.final s' = io.final s /\ True /\ True.
Proof.
  intros _ Hn Hp. unfold io.source_Read, io.pending in *.
  destruct (io.chunks s) as [|[b bs] rest] eqn:E; [|discriminate].
  exists s. rewrite E. auto.
Qed.

End Sources.

#[global] Instance source_Stream : io.Stream io.source := {|
  io.pend := io.pending;
  io.fin := io.final;
  io.inv := fun _ => True;
  io.keeps := fun _ _ => True;
  io.keeps_refl := fun _ => I;
  io.keeps_trans := fun _ _ _ _ _ => I;
  io.Read_data := source_Read_data;
  io.Read_end := source_Read_end
|}.

Section Conns.

Lemma reads_only_refl (c : net.TCPConn) : net.reads_only c c.
Proof.
  repeat split. exists []. now rewrite app_nil_r.
Qed.

Lemma reads_only_trans (a b c : net.TCPConn) :
  net.reads_only a b -> net.reads_only b c -> net.reads_only a c.
Proof.
  intros (W1 & D1 & C1 & l1 & L1 & R1) (W2 & D2 & C2 & l2 & L2 & R2).
  repeat split; try congruence.
  exists (l1 ++ l2). rewrite L2, L1, app_assoc. split; [reflexivity|].
  rewrite forallb_app, R1, R2. reflexivity.
Qed.

Lemma reads_only_Read (n : nat) (c : net.TCPConn) :
  net.reads_only c (snd (net.Read n c)).
Proof.
  unfold net.Read. destruct (io.source_Read n (net.inp c)) as [[bs e] s'].
  simpl. repeat split. eexists; split; reflexivity.
Qed.

(** Read calls put nothing on the wire. *)
Lemma reads_only_written (c c' : net.TCPConn) :
  net.reads_only c c' -> net.written (net.log c') = net.written (net.log c).
Proof.
  intros (_ & _ & _ & l & L & Rl). rewrite L. unfold net.written.
  rewrite flat_map_app.
  assert (E : flat_map net.written_by l = []).
  { clear L. induction l as [|k l IH]; [reflexivity|]. simpl in *.
    apply andb_prop in Rl as [Hk Hl]. rewrite (IH Hl).
    destruct k; try discriminate. reflexivity. }
  rewrite E. apply app_nil_r.
Qed.

Lemma reads_only_non_reads (c c' : net.TCPConn) :
  net.reads_only c c' -> net.non_reads (net.log c') = net.non_reads (net.log c).
Proof.
  intros (_ & _ & _ & l & L & Rl). rewrite L. unfold net.non_reads.
  rewrite filter_app.
  assert (E : filter (fun k => negb (net.is_read k)) l = []).
  { clear L. induction l as [|k l IH]; [reflexivity|]. simpl in *.
    apply andb_prop in Rl as [Hk Hl]. rewrite Hk. simpl. exact (IH Hl). }
  rewrite E. apply app_nil_r.
Qed.

Lemma reads_only_io_only (c c' : net.TCPConn) :
  net.reads_only c c' -> net.io_only c c'.
Proof.
  intros (_ & D & C & l & L & Rl). split; [exact D|]. split; [exact C|].
  exists l. split; [exact L|].
  rewrite forallb_forall in *. intros k Hk. specialize (Rl k Hk).
  destruct k; try discriminate; reflexivity.
Qed.

Lemma conn_Read_data (n : nat) (c : net.TCPConn) :
  True -> 0 < n -> io.pending (net.inp c) <> [] ->
  exists bs c', net.Read n c = ((bs, None), c') /\ bs <> [] /\
    (length bs <= n) /\ io.pending (net.inp c) = bs ++ io.pending (net.inp c') /\
    io.final (net.inp c') = io.final (net.inp c) /\ True /\ net.reads_only c c'.
Proof.
  intros _ Hn Hp.
  destruct (source_Read_data n (net.inp c) I Hn Hp)
    as (bs & s' & HR & Hbs & Hlen & Hpp & Hf & _ & _).
  pose proof (reads_only_Read n c) as Hk.
  unfold net.Read in *. rewrite HR in *. simpl in Hk.
  eexists; eexists; split; [reflexivity|]. simpl. auto 10.
Qed.

Lemma conn_Read_end (n : nat) (c : net.TCPConn) :
  True -> 0 < n -> io.pending (net.inp c) = [] ->
  exists c', net.Read n c = (([], Some (io.final (net.inp c))), c') /\
    io.pending (net.inp c') = [] /\
    io.final (net.inp c') = io.final (net.inp c) /\ True /\ net.reads_only c c'.
Proof.
  intros _ Hn Hp.
  destruct (source_Read_end n (net.inp c) I Hn Hp) as (s' & HR & Hpp & Hf & _ & _).
  pose proof (reads_only_Read n c) as Hk.
  unfold net.Read in *. rewrite HR in *. simpl in Hk.
  eexists; split; [reflexivity|]. simpl. auto 10.
Qed.

End Conns.

#[global] Instance TCPConn_Stream : io.Stream net.TCPConn := {|
  io.pend := fun c => io.pending (net.inp c);
  io.fin := fun c => io.final (net.inp c);
  io.inv := fun _ => True;
  io.keeps := net.reads_only;
  io.keeps_refl := reads_only_refl;
  io.keeps_trans := reads_only_trans;
  io.Read_data := conn_Read_data;
  io.Read_end := conn_Read_end
|}.

Section Bufio.
Context {R : Type} `{io.Stream R}.

Lemma defaultBufSize_pos : 0 < bufio.defaultBufSize.
Proof.
  unfold bufio.defaultBufSize. lia.
Qed.

Lemma firstn_nonempty {A} (n : nat) (l : list A) :
  0 < n -> l <> [] -> firstn n l <> [].
Proof.
  destruct n; [lia|]. destruct l; [congruence|]. discriminate.
Qed.

Lemma bufio_Read_data (n : nat) (b : bufio.Reader R) :
  bufio.err b = None /\ io.inv (bufio.rd b) -> 0 < n ->
  bufio.buf b ++ io.pend (bufio.rd b) <> [] ->
  exists bs b', bufio.Read n b = ((bs, None), b') /\ bs <> [] /\
    (length bs <= n) /\
    bufio.buf b ++ io.pend (bufio.rd b)
      = bs ++ (bufio.buf b' ++ io.pend (bufio.rd b')) /\
    io.fin (bufio.rd b') = io.fin (bufio.rd b) /\
    (bufio.err b' = None /\ io.inv (bufio.rd b')) /\
    io.keeps (bufio.rd b) (bufio.rd b').
Proof.
  intros [He Hi] Hn Hp. destruct b as [rd buf err]. simpl in *. subst err.
  destruct n as [|n]; [lia|]. unfold bufio.Read.
  cbv beta iota delta [bufio.buf bufio.err bufio.rd].
  destruct buf as [|c rest].
  - simpl in Hp. destruct (bufio.defaultBufSize <=? S n).
    + destruct (io.Read_data (S n) rd Hi Hn Hp)
        as (bs & rd' & HR & Hbs & Hlen & Hpp & Hf & Hi' & Hk).
      rewrite HR. unfold bufio.readErr. simpl.
      exists bs, (bufio.mkReader rd' [] None). simpl. auto 10.
    + destruct (io.Read_data bufio.defaultBufSize rd Hi defaultBufSize_pos Hp)
        as (bs & rd' & HR & Hbs & Hlen & Hpp & Hf & Hi' & Hk).
      rewrite HR. destruct bs as [|b0 bs]; [congruence|].
      exists (firstn (S n) (b0 :: bs)),
             (bufio.mkReader rd' (skipn (S n) (b0 :: bs)) None).
      split; [reflexivity|]. split; [discriminate|].
      split; [rewrite length_firstn; lia|].
      cbv beta iota delta [bufio.buf bufio.err bufio.rd].
      rewrite app_assoc, firstn_skipn. simpl. auto 10.
  - exists (firstn (S n) (c :: rest)),
           (bufio.mkReader rd (skipn (S n) (c :: rest)) None).
    split; [reflexivity|]. split; [discriminate|].
    split; [rewrite length_firstn; lia|].
    cbv beta iota delta [bufio.buf bufio.err bufio.rd].
    rewrite app_assoc, firstn_skipn.
    repeat split; auto using io.keeps_refl.
Qed.

Lemma bufio_Read_end (n : nat) (b : bufio.Reader R) :
  bufio.err b = None /\ io.inv (bufio.rd b) -> 0 < n ->
  bufio.buf b ++ io.pend (bufio.rd b) = [] ->
  exists b', bufio.Read n b = (([], Some (io.fin (bufio.rd b))), b') /\
    bufio.buf b' ++ io.pend (bufio.rd b') = [] /\
    io.fin (bufio.rd b') = io.fin (bufio.rd b) /\
    (bufio.err b' = None /\ io.inv (bufio.rd b')) /\
    io.keeps (bufio.rd b) (bufio.rd b').
Proof.
  intros [He Hi] Hn Hp. destruct b as [rd buf err]. simpl in *. subst err.
  apply app_eq_nil in Hp as [Hb Hp]. subst buf.
  destruct n as [|n]; [lia|]. unfold bufio.Read.
  cbv beta iota delta [bufio.buf bufio.err bufio.rd].
  destruct (bufio.defaultBufSize <=? S n).
  - destruct (io.Read_end (S n) rd Hi Hn Hp) as (rd' & HR & Hpp & Hf & Hi' & Hk).
    rewrite HR. unfold bufio.readErr. simpl.
    exists (bufio.mkReader rd' [] None). simpl. auto 10.
  - destruct (io.Read_end bufio.defaultBufSize rd Hi defaultBufSize_pos Hp)
      as (rd' & HR & Hpp & Hf & Hi' & Hk).
    rewrite HR. unfold bufio.readErr. simpl.
    exists (bufio.mkReader rd' [] None). simpl. auto 10.
Qed.

End Bufio.

#[global] Instance bufio_Stream {R : Type} `{io.Stream R}
  : io.Stream (bufio.Reader R) := {|
  io.pend := fun b => bufio.buf b ++ io.pend (bufio.rd b);
  io.fin := fun b => io.fin (bufio.rd b);
  io.inv := fun b => bufio.err b = None /\ io.inv (bufio.rd b);
  io.keeps := fun b b' => io.keeps (bufio.rd b) (bufio.rd b');
  io.keeps_refl := fun b => io.keeps_refl (bufio.rd b);
  io.keeps_trans := fun a b c => io.keeps_trans (bufio.rd a) (bufio.rd b) (bufio.rd c);
  io.Read_data := bufio_Read_data;
  io.Read_end := bufio_Read_end
|}.

Section BufioReadByte.
Context {R : Type} `{io.Stream R}.

(** fill on an empty buffer: one Read of the underlying reader. *)
Lemma fill_loop_empty_data (i : nat) (rd : R) :
  io.inv rd -> io.pend rd <> [] ->
  exists bs rd',
    bufio.fill_loop (S i) (bufio.mkReader rd [] None) = bufio.mkReader rd' bs None /\
    bs <> [] /\ io.pend rd = bs ++ io.pend rd' /\ io.fin rd' = io.fin rd /\
    io.inv rd' /\ io.keeps rd rd'.
Proof.
  intros Hi Hp. simpl. change 4096 with bufio.defaultBufSize.
  destruct (io.Read_data bufio.defaultBufSize rd Hi defaultBufSize_pos Hp)
    as (bs & rd' & HR & Hbs & Hlen & Hpp & Hf & Hi' & Hk).
  rewrite HR. destruct bs as [|b0 bs]; [congruence|].
  exists (b0 :: bs), rd'. simpl. repeat split; auto; discriminate.
Qed.

Lemma fill_loop_empty_end (i : nat) (rd : R) :
  io.inv rd -> io.pend rd = [] ->
  exists rd', bufio.fill_loop (S i) (bufio.mkReader rd [] None)
                = bufio.mkReader rd' [] (Some (io.fin rd)) /\
    io.pend rd' = [] /\ io.fin rd' = io.fin rd /\ io.inv rd' /\ io.keeps rd rd'.
Proof.
  intros Hi Hp. simpl. change 4096 with bufio.defaultBufSize.
  destruct (io.Read_end bufio.defaultBufSize rd Hi defaultBufSize_pos Hp)
    as (rd' & HR & Hpp & Hf & Hi' & Hk).
  rewrite HR. exists rd'. simpl. repeat split; auto.
Qed.

(** ReadByte returns the next byte of the stream. *)
Lemma ReadByte_data (b : bufio.Reader R) (c : byte) (rest : bytes) :
  io.inv b -> io.pend b = c :: rest ->
  exists b', bufio.ReadByte b = ((c, None), b') /\ io.pend b' = rest /\
    io.fin b' = io.fin b /\ io.inv b' /\ io.keeps b b'.
Proof.
  intros [He Hi] Hp. destruct b as [rd buf err]. simpl in *. subst err.
  unfold bufio.ReadByte. cbv beta iota delta [bufio.buf bufio.err bufio.rd].
  destruct buf as [|c0 buf].
  - simpl in Hp.
    assert (Hne : io.pend rd <> []) by (rewrite Hp; discriminate).
    destruct (fill_loop_empty_data 99 rd Hi Hne)
      as (bs & rd' & HF & Hbs & Hpp & Hf & Hi' & Hk).
    unfold bufio.fill. change bufio.maxConsecutiveEmptyReads with (S 99).
    rewrite HF. destruct bs as [|b0 bs]; [congruence|].
    rewrite Hpp in Hp. simpl in Hp. injection Hp as -> Hrest.
    eexists; split; [reflexivity|]. simpl. auto 10.
  - simpl in Hp. injection Hp as -> Hrest.
    eexists; split; [reflexivity|]. simpl.
    repeat split; auto using io.keeps_refl.
Qed.

(** ReadByte at the end of the stream returns the stream's error. *)
Lemma ReadByte_end (b : bufio.Reader R) :
  io.inv b -> io.pend b = [] ->
  exists b', bufio.ReadByte b = ((x00, Some (io.fin b)), b') /\ io.pend b' = [] /\
    io.fin b' = io.fin b /\ io.inv b' /\ io.keeps b b'.
Proof.
  intros [He Hi] Hp. destruct b as [rd buf err]. simpl in *. subst err.
  apply app_eq_nil in Hp as [Hb Hp]. subst buf.
  unfold bufio.ReadByte. cbv beta iota delta [bufio.buf bufio.err bufio.rd].
  destruct (fill_loop_empty_end 99 rd Hi Hp) as (rd' & HF & Hpp & Hf & Hi' & Hk).
  unfold bufio.fill. change bufio.maxConsecutiveEmptyReads with (S 99).
  rewrite HF. unfold bufio.readErr. simpl.
  eexists; split; [reflexivity|]. simpl. auto 10.
Qed.

End BufioReadByte.

(** ** Bytes as numbers, crypto/subtle, encoding/binary *)

Section ByteArith.
Local Open Scope N_scope.

Lemma to_N_lt_256 (b : byte) : Byte.to_N b < 256.
Proof.
  pose proof (Byte.to_N_bounded b). lia.
Qed.

Lemma to_N_byte_of_N (v : N) : Byte.to_N (byte_of_N v) = v mod 256.
Proof.
  unfold byte_of_N. destruct (Byte.of_N (v mod 256)) as [b|] eqn:E.
  - now apply Byte.to_of_N.
  - apply Byte.of_N_None_iff in E.
    pose proof (N.mod_lt v 256 ltac:(discriminate)). lia.
Qed.

Lemma to_N_inj (a b : byte) : Byte.to_N a = Byte.to_N b -> a = b.
Proof.
  intro E. pose proof (Byte.of_to_N a) as Ha. rewrite E, Byte.of_to_N in Ha.
  congruence.
Qed.

Lemma byte_of_to_N (b : byte) : byte_of_N (Byte.to_N b) = b.
Proof.
  apply to_N_inj. rewrite to_N_byte_of_N. apply N.mod_small, to_N_lt_256.
Qed.

Lemma testbit_high_256 (v i : N) : v < 256 -> 8 <= i -> N.testbit v i = false.
Proof.
  intros Hv Hi. rewrite <- (N.mod_small v (2 ^ 8)) by exact Hv.
  now apply N.mod_pow2_bits_high.
Qed.

Lemma lt_256_of_bits (v : N) :
  (forall i, 8 <= i -> N.testbit v i = false) -> v < 256.
Proof.
  intro Hb. replace v with (v mod 2 ^ 8).
  - apply N.mod_lt. discriminate.
  - apply N.bits_inj. intro i. destruct (N.lt_ge_cases i 8) as [Hi|Hi].
    + now apply N.mod_pow2_bits_low.
    + rewrite N.mod_pow2_bits_high by exact Hi. symmetry. now apply Hb.
Qed.

Lemma lxor_lt_256 (a b : N) : a < 256 -> b < 256 -> N.lxor a b < 256.
Proof.
  intros Ha Hb. apply lt_256_of_bits. intros i Hi.
  rewrite N.lxor_spec, !testbit_high_256 by assumption. reflexivity.
Qed.

Lemma lor_lt_256 (a b : N) : a < 256 -> b < 256 -> N.lor a b < 256.
Proof.
  intros Ha Hb. apply lt_256_of_bits. intros i Hi.
  rewrite N.lor_spec, !testbit_high_256 by assumption. reflexivity.
Qed.

(** One step of the loop v |= x[i] ^ y[i] leaves v zero exactly when v was
    zero and the two bytes are equal. *)
Lemma xor_step_zero (v a b : byte) :
  byte_of_N (N.lor (Byte.to_N v) (N.lxor (Byte.to_N a) (Byte.to_N b))) = x00
  <-> v = x00 /\ a = b.
Proof.
  assert (Hlt : N.lor (Byte.to_N v) (N.lxor (Byte.to_N a) (Byte.to_N b)) < 256)
    by auto using lor_lt_256, lxor_lt_256, to_N_lt_256.
  split.
  - intro E. apply (f_equal Byte.to_N) in E.
    rewrite to_N_byte_of_N, N.mod_small in E by exact Hlt.
    change (Byte.to_N x00) with 0 in E.
    apply N.lor_eq_0_iff in E as [Ev Ex]. apply N.lxor_eq in Ex.
    split; apply to_N_inj; [exact Ev | exact Ex].
  - intros [-> ->]. rewrite N.lxor_nilpotent. reflexivity.
Qed.

(** binary.BigEndian.Uint16 reads back what PutUint16 stored. *)
Lemma Uint16_PutUint16 (v : N) :
  v < 65536 ->
  binary.Uint16 (byte_of_N (N.shiftr v 8)) (byte_of_N v) = v.
Proof.
  intro Hv. unfold binary.Uint16. rewrite !to_N_byte_of_N.
  change 256 with (2 ^ 8). apply N.bits_inj. intro i.
  rewrite N.lor_spec. destruct (N.lt_ge_cases i 8) as [Hi|Hi].
  - rewrite N.mod_pow2_bits_low by exact Hi.
    rewrite N.shiftl_spec_low by exact Hi. apply orb_false_r.
  - rewrite N.mod_pow2_bits_high by exact Hi.
    rewrite N.shiftl_spec_high' by exact Hi. rewrite orb_false_l.
    destruct (N.lt_ge_cases (i - 8) 8) as [Hj|Hj].
    + rewrite N.mod_pow2_bits_low by exact Hj.
      rewrite N.shiftr_spec'. f_equal. lia.
    + rewrite N.mod_pow2_bits_high by exact Hj.
      symmetry. rewrite <- (N.mod_small v (2 ^ 16)) by exact Hv.
      apply N.mod_pow2_bits_high. lia.
Qed.

Lemma lt_65536_of_bits (v : N) :
  (forall i, 16 <= i -> N.testbit v i = false) -> v < 65536.
Proof.
  intro Hb. replace v with (v mod 2 ^ 16).
  - apply N.mod_lt. discriminate.
  - apply N.bits_inj. intro i. destruct (N.lt_ge_cases i 16) as [Hi|Hi].
    + now apply N.mod_pow2_bits_low.
    + rewrite N.mod_pow2_bits_high by exact Hi. symmetry. now apply Hb.
Qed.

Lemma Uint16_bits (b0 b1 : byte) (i : N) :
  N.testbit (binary.Uint16 b0 b1) i
  = if i <? 8 then N.testbit (Byte.to_N b1) i
    else N.testbit (Byte.to_N b0) (i - 8).
Proof.
  unfold binary.Uint16. rewrite N.lor_spec.
  destruct (i <? 8) eqn:Hi; [apply N.ltb_lt in Hi | apply N.ltb_ge in Hi].
  - rewrite N.shiftl_spec_low by exact Hi. apply orb_false_r.
  - rewrite N.shiftl_spec_high' by exact Hi.
    rewrite (testbit_high_256 _ i (to_N_lt_256 b1) Hi). reflexivity.
Qed.

Lemma Uint16_lt (b0 b1 : byte) : binary.Uint16 b0 b1 < 65536.
Proof.
  apply lt_65536_of_bits. intros i Hi. rewrite Uint16_bits.
  replace (i <? 8) with false by (symmetry; apply N.ltb_ge; lia).
  apply testbit_high_256; [apply to_N_lt_256 | lia].
Qed.

(** binary.BigEndian.PutUint16 stores back the two bytes Uint16 was read
    from. *)
Lemma PutUint16_Uint16 (b0 b1 : byte) :
  binary.PutUint16 (binary.Uint16 b0 b1) = [b0; b1].
Proof.
  unfold binary.PutUint16. f_equal; [|f_equal]; apply to_N_inj;
    rewrite to_N_byte_of_N; change 256 with (2 ^ 8); apply N.bits_inj; intro i;
    (destruct (N.lt_ge_cases i 8) as [Hi|Hi];
     [rewrite N.mod_pow2_bits_low by exact Hi
     |rewrite N.mod_pow2_bits_high by exact Hi;
      rewrite (testbit_high_256 _ i (to_N_lt_256 _) Hi); reflexivity]).
  - rewrite N.shiftr_spec', Uint16_bits.
    replace (i + 8 <? 8) with false by (symmetry; apply N.ltb_ge; lia).
    f_equal. lia.
  - rewrite Uint16_bits.
    replace (i <? 8) with true by (symmetry; apply N.ltb_lt; exact Hi).
    reflexivity.
Qed.

End ByteArith.

Section Subtle.

Lemma ConstantTimeByteEq_zero (v : byte) :
  subtle.ConstantTimeByteEq v x00 = if Byte.eqb v x00 then 1%Z else 0%Z.
Proof.
  destruct v; reflexivity.
Qed.

Lemma xor_fold_zero (x : bytes) :
  forall (y : bytes) (v : byte),
    length x = length y ->
    (subtle.xor_fold v x y = x00 <-> v = x00 /\ x = y).
Proof.
  induction x as [|a x IH]; intros [|b y] v Hlen; simpl in *; try discriminate.
  - tauto.
  - injection Hlen as Hlen. rewrite (IH y _ Hlen), xor_step_zero.
    split.
    + intros [[-> ->] ->]. auto.
    + intros [-> E]. injection E as -> ->. auto.
Qed.

(** subtle.ConstantTimeCompare returns 1 if the slices are equal and 0
    otherwise. *)
Lemma ConstantTimeCompare_spec (x y : bytes) :
  (subtle.ConstantTimeCompare x y = 1%Z <-> x = y) /\
  (subtle.ConstantTimeCompare x y = 0%Z <-> x <> y).
Proof.
  unfold subtle.ConstantTimeCompare.
  destruct (length x =? length y) eqn:El; simpl.
  - apply Nat.eqb_eq in El. rewrite ConstantTimeByteEq_zero.
    pose proof (xor_fold_zero x y x00 El) as Hz.
    destruct (Byte.eqb (subtle.xor_fold x00 x y) x00) eqn:Eb.
    + apply byte_eqb_eq in Eb. apply Hz in Eb as [_ ->].
      split; split; congruence.
    + apply byte_eqb_neq in Eb.
      assert (x <> y) by (intro E; apply Eb, Hz; auto).
      split; split; try congruence; intro; tauto.
  - apply Nat.eqb_neq in El.
    assert (x <> y) by congruence.
    split; split; try congruence; try discriminate; intro; tauto.
Qed.

Lemma ConstantTimeCompare_eqb (x y : bytes) :
  (subtle.ConstantTimeCompare x y =? 1)%Z = true <-> x = y.
Proof.
  rewrite Z.eqb_eq. apply ConstantTimeCompare_spec.
Qed.

End Subtle.

(** ** The cookie file *)

Section Cookie.
Import pt.

Lemma bytes_Equal_eq (a : bytes) : forall b, bytes_Equal a b = true <-> a = b.
Proof.
  induction a as [|x a IH]; intros [|y b]; simpl; try (split; congruence).
  rewrite andb_true_iff, byte_eqb_eq, IH. split.
  - intros [-> ->]; reflexivity.
  - intro E; injection E; auto.
Qed.

Lemma length_make (n : nat) : length (make n) = n.
Proof.
  apply repeat_length.
Qed.

Lemma source_ReadFull_enough (f : io.source) (p : bytes) :
  length p <= length (io.pending f) ->
  exists f',
    io.ReadFull f p = ((firstn (length p) (io.pending f), None), f') /\
    io.pending f' = skipn (length p) (io.pending f) /\
    io.final f' = io.final f.
Proof.
  intro Hen.
  destruct (@ReadFull_enough _ _ source_Stream f p I Hen) as (f' & HR & Hp & Hf & _).
  exists f'. auto.
Qed.

Lemma source_ReadFull_short (f : io.source) (p : bytes) :
  length (io.pending f) < length p ->
  exists f',
    io.ReadFull f p
      = ((overlay (io.pending f) p,
          Some (io.short_read (io.pending f) (io.final f))), f').
Proof.
  intro Hsh.
  destruct (@ReadFull_short _ _ source_Stream f p I Hsh) as (f' & HR & _).
  exists f'. auto.
Qed.

(** What readAuthCookieFile returns for a file that opens, by the file's
    contents and the error that ends its reads. *)
Lemma readAuthCookieFile_cases (open : bytes -> res io.source) (filename : bytes)
    (f : io.source) :
  open filename = Ok f ->
  readAuthCookieFile open filename
  = (if length (io.pending f) <? 32 then make 32
     else overlay (firstn 32 (skipn 32 (io.pending f))) (make 32),
     cookie_error (io.pending f) (io.final f)).
Proof.
  intro Hopen. unfold readAuthCookieFile, cookie_error. rewrite Hopen.
  destruct (length (io.pending f) <? 32) eqn:E32.
  - apply Nat.ltb_lt in E32.
    destruct (source_ReadFull_short f (make 32)) as (f1 & HR).
    { rewrite length_make. exact E32. }
    rewrite HR. reflexivity.
  - apply Nat.ltb_ge in E32.
    destruct (source_ReadFull_enough f (make 32)) as (f1 & HR & Hp1 & Hf1).
    { rewrite length_make. exact E32. }
    rewrite HR. rewrite length_make in *.
    assert (Hl1 : length (io.pending f1) = length (io.pending f) - 32)
      by (rewrite Hp1; apply length_skipn).
    destruct (length (io.pending f) <? 64) eqn:E64.
    + apply Nat.ltb_lt in E64.
      destruct (source_ReadFull_short f1 (make 32)) as (f2 & HR2).
      { rewrite length_make. lia. }
      rewrite HR2. rewrite Hp1, Hf1.
      rewrite (firstn_all2 (skipn 32 (io.pending f)))
        by (rewrite length_skipn; lia).
      reflexivity.
    + apply Nat.ltb_ge in E64.
      destruct (source_ReadFull_enough f1 (make 32)) as (f2 & HR2 & Hp2 & Hf2).
      { rewrite length_make. lia. }
      rewrite HR2. rewrite length_make in *.
      assert (Hl2 : length (io.pending f2) = length (io.pending f) - 64)
        by (rewrite Hp2, length_skipn; lia).
      assert (Hov : overlay (firstn 32 (skipn 32 (io.pending f))) (make 32)
                    = firstn 32 (skipn 32 (io.pending f))).
      { unfold overlay. rewrite (skipn_all2 (make 32)); [apply app_nil_r|].
        rewrite length_make, length_firstn, length_skipn. lia. }
      rewrite Hov, Hp1.
      destruct (64 <? length (io.pending f)) eqn:E65.
      * apply Nat.ltb_lt in E65.
        destruct (source_Read_data 1 f2 I) as (bs & f3 & HR3 & Hbs & _).
        { lia. } { intro E. rewrite E in Hl2. simpl in Hl2. lia. }
        change (io.Read 1 f2) with (io.source_Read 1 f2). rewrite HR3.
        destruct bs; [congruence|]. reflexivity.
      * apply Nat.ltb_ge in E65.
        destruct (source_Read_end 1 f2 I) as (f3 & HR3 & _).
        { lia. } { apply length_zero_iff_nil. lia. }
        change (io.Read 1 f2) with (io.source_Read 1 f2). rewrite HR3.
        rewrite Hf2, Hf1. change (negb (length (@nil byte) =? 0)) with false.
        cbv iota.
        destruct (negb (is_EOF (Some (io.final f)))); [reflexivity|].
        destruct (negb (bytes_Equal (firstn 32 (io.pending f)) authCookieHeader));
          reflexivity.
Qed.

End Cookie.

Section CookieClaims.
Import pt.

Lemma authCookieHeader_length : length authCookieHeader = 32.
Proof.
  reflexivity.
Qed.

Lemma cookie_error_None (content : bytes) (final : error) :
  cookie_error content final = None <->
  length content = 64 /\ final = io_EOF /\ firstn 32 content = authCookieHeader.
Proof.
  unfold cookie_error.
  destruct (length content <? 32) eqn:E32;
    [apply Nat.ltb_lt in E32; split; [discriminate | lia] |].
  destruct (length content <? 64) eqn:E64;
    [apply Nat.ltb_lt in E64; split; [discriminate | lia] |].
  destruct (64 <? length content) eqn:E65;
    [apply Nat.ltb_lt in E65; split; [discriminate | lia] |].
  apply Nat.ltb_ge in E64, E65.
  destruct final; cbn [is_EOF negb];
    try (split; [discriminate | intros (_ & Hf & _); discriminate Hf]).
  destruct (bytes_Equal (firstn 32 content) authCookieHeader) eqn:Eh; cbn [negb].
  - apply bytes_Equal_eq in Eh. split; auto. intros _. repeat split; auto. lia.
  - split; [discriminate|]. intros (_ & _ & Hh).
    apply bytes_Equal_eq in Hh. congruence.
Qed.

Lemma cookie_of_64 (content : bytes) :
  length content = 64 ->
  overlay (firstn 32 (skipn 32 content)) (make 32) = skipn 32 content.
Proof.
  intro Hl. rewrite (firstn_all2 (skipn 32 content)) by (rewrite length_skipn; lia).
  unfold overlay. rewrite (skipn_all2 (make 32)); [apply app_nil_r|].
  rewrite length_make, length_skipn. lia.
Qed.

(** C2.  For a file that opens and whose reads end with io.EOF,
    readAuthCookieFile returns the trailing 32 bytes and no error exactly
    when the file is 64 bytes long and its first 32 bytes are the header
    "! Extended ORPort Auth Cookie !" followed by one 0x0A byte; for every
    other length, shorter or longer, and for every other header it returns
    an error. *)
Theorem readAuthCookieFile_accepts_iff (open : bytes -> res io.source)
    (filename : bytes) (f : io.source) (cookie : bytes) :
  open filename = Ok f -> io.final f = io_EOF ->
  (readAuthCookieFile open filename = (cookie, None) <->
     length (io.pending f) = 64 /\
     firstn 32 (io.pending f) = str "! Extended ORPort Auth Cookie !" ++ [x0a] /\
     cookie = skipn 32 (io.pending f)) /\
  (length (io.pending f) <> 64 \/
   firstn 32 (io.pending f) <> str "! Extended ORPort Auth Cookie !" ++ [x0a] ->
     exists e, snd (readAuthCookieFile open filename) = Some e).
Proof.
  intros Hopen Hfin. rewrite (readAuthCookieFile_cases open filename f Hopen).
  fold authCookieHeader. split; [split|].
  - intro E. pose proof (f_equal fst E) as Ec. pose proof (f_equal snd E) as Ee.
    cbn [fst snd] in Ec, Ee.
    apply cookie_error_None in Ee as (Hl & _ & Hh).
    replace (length (io.pending f) <? 32) with false in Ec
      by (symmetry; apply Nat.ltb_ge; lia).
    rewrite cookie_of_64 in Ec by exact Hl. auto.
  - intros (Hl & Hh & ->).
    replace (length (io.pending f) <? 32) with false
      by (symmetry; apply Nat.ltb_ge; lia).
    rewrite cookie_of_64 by exact Hl. f_equal.
    apply cookie_error_None. auto.
  - intro Hbad. simpl snd.
    destruct (cookie_error (io.pending f) (io.final f)) as [e|] eqn:Ee;
      [now exists e|].
    apply cookie_error_None in Ee as (Hl & _ & Hh). tauto.
Qed.

Lemma readAuthCookieFile_accepts_iff_witness :
  readAuthCookieFile (sample.open_as sample.cookie_file) [] = (sample.secret, None).
Proof.
  apply (readAuthCookieFile_accepts_iff (sample.open_as sample.cookie_file) []
           sample.cookie_file sample.secret); repeat split; reflexivity.
Defined.

(** C9.  When readAuthCookieFile fails after the first 64 bytes were read,
    because the file is longer than 64 bytes, or the read at position 64
    ends with an error other than io.EOF, or the header does not match,
    the slice it returns next to the error holds the 32 bytes of file
    positions 32..63. *)
Theorem readAuthCookieFile_error_returns_cookie (open : bytes -> res io.source)
    (filename : bytes) (f : io.source) :
  open filename = Ok f -> 64 <= length (io.pending f) ->
  length (firstn 32 (skipn 32 (io.pending f))) = 32 /\
  (64 < length (io.pending f) ->
     readAuthCookieFile open filename
     = (firstn 32 (skipn 32 (io.pending f)),
        Some (errors_New (str "file is longer than 64 bytes")))) /\
  (length (io.pending f) = 64 -> io.final f <> io_EOF ->
     readAuthCookieFile open filename
     = (firstn 32 (skipn 32 (io.pending f)),
        Some (errors_New (str "did not find EOF at end of file")))) /\
  (length (io.pending f) = 64 -> io.final f = io_EOF ->
   firstn 32 (io.pending f) <> authCookieHeader ->
     readAuthCookieFile open filename
     = (firstn 32 (skipn 32 (io.pending f)),
        Some (errors_New (str "missing auth cookie header")))).
Proof.
  intros Hopen Hlen. rewrite (readAuthCookieFile_cases open filename f Hopen).
  assert (Hc : length (firstn 32 (skipn 32 (io.pending f))) = 32)
    by (rewrite length_firstn, length_skipn; lia).
  assert (Hov : overlay (firstn 32 (skipn 32 (io.pending f))) (make 32)
                = firstn 32 (skipn 32 (io.pending f))).
  { unfold overlay. rewrite (skipn_all2 (make 32)); [apply app_nil_r|].
    rewrite length_make. lia. }
  unfold cookie_error.
  replace (length (io.pending f) <? 32) with false
    by (symmetry; apply Nat.ltb_ge; lia).
  replace (length (io.pending f) <? 64) with false
    by (symmetry; apply Nat.ltb_ge; lia).
  rewrite Hov. split; [exact Hc|]. split; [|split].
  - intro Hl. replace (64 <? length (io.pending f)) with true
      by (symmetry; apply Nat.ltb_lt; lia).
    reflexivity.
  - intros Hl Hf. rewrite Hl. simpl (64 <? 64).
    destruct (io.final f); try reflexivity. congruence.
  - intros Hl Hf Hh. rewrite Hl, Hf. simpl (64 <? 64).
    destruct (bytes_Equal (firstn 32 (io.pending f)) authCookieHeader) eqn:Eh.
    + apply bytes_Equal_eq in Eh. congruence.
    + reflexivity.
Qed.

Lemma readAuthCookieFile_error_returns_cookie_witness :
  readAuthCookieFile (sample.open_as sample.long_file) []
  = (sample.secret, Some (errors_New (str "file is longer than 64 bytes"))).
Proof.
  apply (readAuthCookieFile_error_returns_cookie
           (sample.open_as sample.long_file) [] sample.long_file);
    [reflexivity | vm_compute; lia | vm_compute; lia].
Defined.

End CookieClaims.

(** ** Reading and writing on a connection *)

Section ConnIO.

Lemma conn_ReadFull_enough (c : net.TCPConn) (p : bytes) :
  length p <= length (io.pending (net.inp c)) ->
  exists c',
    io.ReadFull c p = ((firstn (length p) (io.pending (net.inp c)), None), c') /\
    io.pending (net.inp c') = skipn (length p) (io.pending (net.inp c)) /\
    io.final (net.inp c') = io.final (net.inp c) /\
    net.reads_only c c'.
Proof.
  intro Hen.
  destruct (@ReadFull_enough _ _ TCPConn_Stream c p I Hen)
    as (c' & HR & Hp & Hf & _ & Hk).
  exists c'. auto.
Qed.

Lemma conn_ReadFull_short (c : net.TCPConn) (p : bytes) :
  length (io.pending (net.inp c)) < length p ->
  exists c',
    io.ReadFull c p
      = ((overlay (io.pending (net.inp c)) p,
          Some (io.short_read (io.pending (net.inp c)) (io.final (net.inp c)))), c') /\
    net.reads_only c c'.
Proof.
  intro Hsh.
  destruct (@ReadFull_short _ _ TCPConn_Stream c p I Hsh)
    as (c' & HR & _ & _ & _ & Hk).
  exists c'. auto.
Qed.

(** A Write that is complete: the bytes go on the wire, nothing else moves. *)
Lemma Write_ok (k : nat) (p : bytes) (c : net.TCPConn) :
  net.writes_ok (S k) c = true ->
  exists c',
    net.Write p c = ((length p, None), c') /\
    net.inp c' = net.inp c /\ net.deadline c' = net.deadline c /\
    net.closed c' = net.closed c /\
    net.log c' = net.log c ++ [net.CallWrite p (length p) None] /\
    net.writes_ok k c' = true.
Proof.
  unfold net.writes_ok, net.Write.
  destruct (net.wres c) as [|[[n e]|] rest]; simpl; intro Hk.
  - eexists; split; [reflexivity|]. simpl. rewrite firstn_nil. auto 10.
  - discriminate.
  - eexists; split; [reflexivity|]. simpl. auto 10.
Qed.

Lemma written_app (l1 l2 : list net.call) :
  net.written (l1 ++ l2) = net.written l1 ++ net.written l2.
Proof.
  apply flat_map_app.
Qed.

Lemma written_complete (p : bytes) :
  net.written [net.CallWrite p (length p) None] = p.
Proof.
  unfold net.written. cbn [flat_map net.written_by].
  rewrite firstn_all. apply app_nil_r.
Qed.

Lemma non_reads_write (l : list net.call) (p : bytes) (n : nat) (e : option error) :
  net.non_reads (l ++ [net.CallWrite p n e])
  = net.non_reads l ++ [net.CallWrite p n e].
Proof.
  unfold net.non_reads. now rewrite filter_app.
Qed.

Lemma writes_ok_le (k : nat) (c : net.TCPConn) :
  net.writes_ok (S k) c = true -> net.writes_ok k c = true.
Proof.
  unfold net.writes_ok. generalize (net.wres c). clear c.
  induction k as [|k IH]; intros l Hl; [reflexivity|].
  destruct l as [|o l]; [reflexivity|].
  change (firstn (S (S k)) (o :: l)) with (o :: firstn (S k) l) in Hl.
  change (firstn (S k) (o :: l)) with (o :: firstn k l).
  simpl in *. apply andb_prop in Hl as [Ho Hl]. rewrite Ho. simpl.
  exact (IH l Hl).
Qed.

Lemma written_non_reads (l : list net.call) :
  net.written (net.non_reads l) = net.written l.
Proof.
  unfold net.written, net.non_reads.
  induction l as [|k l IH]; [reflexivity|]. simpl.
  destruct k; simpl; rewrite IH; reflexivity.
Qed.

Lemma reads_only_writes_ok (k : nat) (c c' : net.TCPConn) :
  net.reads_only c c' -> net.writes_ok k c' = net.writes_ok k c.
Proof.
  intros (W & _). unfold net.writes_ok. now rewrite W.
Qed.

End ConnIO.

(** ** Command framing *)

Section Framing.
Import pt.
Local Open Scope N_scope.

Lemma frame_layout (cmd : N) (body : bytes) :
  N.of_nat (length body) <= 65535 ->
  frame cmd body
  = [byte_of_N (N.shiftr cmd 8); byte_of_N cmd;
     byte_of_N (N.shiftr (N.of_nat (length body)) 8);
     byte_of_N (N.of_nat (length body))] ++ body.
Proof.
  intro Hl. unfold frame, uint16, binary.PutUint16.
  rewrite N.mod_small by lia. reflexivity.
Qed.

Lemma WriteCommand_ok (k : nat) (cmd : N) (body : bytes) (c : net.TCPConn) :
  N.of_nat (length body) <= 65535 ->
  net.writes_ok (S k) c = true ->
  exists c',
    extOrPortWriteCommand cmd body c = (Ok tt, c') /\
    net.inp c' = net.inp c /\ net.deadline c' = net.deadline c /\
    net.closed c' = net.closed c /\
    net.log c' = net.log c
      ++ [net.CallWrite (frame cmd body) (length (frame cmd body)) None] /\
    net.writes_ok k c' = true.
Proof.
  intros Hl Hw. unfold extOrPortWriteCommand.
  replace (65535 <? N.of_nat (length body)) with false
    by (symmetry; apply N.ltb_ge; exact Hl).
  destruct (Write_ok k (frame cmd body) c Hw) as (c' & HW & H).
  unfold bind, try. rewrite HW. exists c'. auto.
Qed.

(** A body longer than 65535 bytes is refused and nothing is written. *)
Lemma WriteCommand_too_long (cmd : N) (body : bytes) (c : net.TCPConn) :
  65535 < N.of_nat (length body) ->
  extOrPortWriteCommand cmd body c
  = (Err (errors_New (str "command exceeds maximum length of 65535")), c).
Proof.
  intro Hl. unfold extOrPortWriteCommand.
  replace (65535 <? N.of_nat (length body)) with true
    by (symmetry; apply N.ltb_lt; exact Hl).
  reflexivity.
Qed.

(** extOrPortRecvCommand on a connection whose input starts with a frame. *)
Lemma RecvCommand_frame (cmd : N) (body rest : bytes) (c : net.TCPConn) :
  cmd < 65536 -> N.of_nat (length body) <= 65535 ->
  io.pending (net.inp c) = frame cmd body ++ rest ->
  exists c',
    extOrPortRecvCommand c = (Ok (cmd, body), c') /\
    io.pending (net.inp c') = rest /\
    io.final (net.inp c') = io.final (net.inp c) /\
    net.reads_only c c'.
Proof.
  intros Hcmd Hl Hp. rewrite frame_layout in Hp by exact Hl.
  unfold extOrPortRecvCommand, bind, try.
  destruct (conn_ReadFull_enough c (make 4)) as (c1 & HR & Hp1 & Hf1 & Hk1).
  { rewrite Hp, length_make. simpl. lia. }
  rewrite HR. rewrite length_make in *. rewrite Hp in *.
  cbn [app firstn skipn nth] in *.
  rewrite !Uint16_PutUint16 by lia. rewrite Nat2N.id.
  destruct (conn_ReadFull_enough c1 (make (length body)))
    as (c2 & HR2 & Hp2 & Hf2 & Hk2).
  { rewrite Hp1, length_make, length_app. lia. }
  rewrite HR2. rewrite length_make in *. rewrite Hp1 in *.
  rewrite firstn_app, Nat.sub_diag, firstn_all, firstn_O, app_nil_r.
  rewrite skipn_app, Nat.sub_diag, skipn_all, skipn_O in Hp2.
  exists c2. unfold ret. split; [reflexivity|]. split; [exact Hp2|].
  split; [congruence|]. apply (reads_only_trans _ _ _ Hk1 Hk2).
Qed.

(** C3.  extOrPortWriteCommand puts on the wire two big-endian bytes of
    the command id, two big-endian bytes of the body's length and then the
    body, nothing more; extOrPortRecvCommand, reading these bytes from a
    connection in whatever pieces they arrive, returns the same id and
    body and leaves whatever follows them unread.  This holds for every
    16-bit id and every body of 0 to 65535 bytes. *)
Theorem command_roundtrip (cmd : N) (body rest : bytes) (w rd : net.TCPConn) :
  cmd < 65536 -> N.of_nat (length body) <= 65535 ->
  net.writes_ok 1 w = true ->
  exists w' sent,
    extOrPortWriteCommand cmd body w = (Ok tt, w') /\
    net.written (net.log w') = net.written (net.log w) ++ sent /\
    sent = [byte_of_N (cmd / 256); byte_of_N cmd;
            byte_of_N (N.of_nat (length body) / 256);
            byte_of_N (N.of_nat (length body))] ++ body /\
    (io.pending (net.inp rd) = sent ++ rest ->
     exists rd',
       extOrPortRecvCommand rd = (Ok (cmd, body), rd') /\
       io.pending (net.inp rd') = rest).
Proof.
  intros Hcmd Hl Hw.
  destruct (WriteCommand_ok 0 cmd body w Hl Hw) as (w' & HW & _ & _ & _ & Hlog & _).
  exists w', (frame cmd body). split; [exact HW|]. split; [|split].
  - rewrite Hlog, written_app. f_equal. apply written_complete.
  - rewrite frame_layout by exact Hl. rewrite !N.shiftr_div_pow2. reflexivity.
  - intro Hp.
    destruct (RecvCommand_frame cmd body rest rd Hcmd Hl Hp) as (rd' & HR & Hp' & _).
    exists rd'. auto.
Qed.

End Framing.

Lemma command_roundtrip_witness :
  exists w' sent,
    pt.extOrPortWriteCommand 2 (str "obfs3") (sample.conn []) = (Ok tt, w') /\
    net.written (net.log w') = net.written (net.log (sample.conn [])) ++ sent /\
    sent = [byte_of_N (2 / 256); byte_of_N 2;
            byte_of_N (N.of_nat (length (str "obfs3")) / 256);
            byte_of_N (N.of_nat (length (str "obfs3")))] ++ str "obfs3" /\
    (io.pending (net.inp sample.obfs3_conn) = sent ++ [x2a] ->
     exists rd',
       pt.extOrPortRecvCommand sample.obfs3_conn = (Ok (2%N, str "obfs3"), rd') /\
       io.pending (net.inp rd') = [x2a]).
Proof.
  apply (command_roundtrip 2 (str "obfs3") [x2a] (sample.conn []) sample.obfs3_conn).
  - reflexivity.
  - vm_compute. discriminate.
  - reflexivity.
Defined.

(** ** Session setup *)

Section Setup.
Import pt.
Local Open Scope N_scope.

(** extOrPortSetup when the three commands are written completely and a
    whole command with id [cmd] comes back. *)
Lemma Setup_run (remoteAddr methodName : bytes) (c : net.TCPConn)
    (cmd : N) (body rest : bytes) :
  N.of_nat (length remoteAddr) <= 65535 ->
  N.of_nat (length methodName) <= 65535 ->
  net.writes_ok 3 c = true ->
  cmd < 65536 -> N.of_nat (length body) <= 65535 ->
  io.pending (net.inp c) = frame cmd body ++ rest ->
  exists c' reads,
    extOrPortSetup remoteAddr methodName c
    = (if cmd =? extOrCmdDeny then
         Err (errors_New (str "server returned DENY after our USERADDR and DONE"))
       else if negb (cmd =? extOrCmdOkay) then
         Err (errors_New (str "server returned unknown command 0x" ++ fmt.x04 cmd
                            ++ str " after our USERADDR and DONE"))
       else Ok tt, c') /\
    net.log c' = net.log c
      ++ [net.CallWrite (frame extOrCmdUserAddr remoteAddr)
            (length (frame extOrCmdUserAddr remoteAddr)) None;
          net.CallWrite (frame extOrCmdTransport methodName)
            (length (frame extOrCmdTransport methodName)) None;
          net.CallWrite (frame extOrCmdDone [])
            (length (frame extOrCmdDone [])) None]
      ++ reads /\
    forallb net.is_read reads = true /\
    io.pending (net.inp c') = rest /\
    net.deadline c' = net.deadline c /\ net.closed c' = net.closed c.
Proof.
  intros Hra Hmn Hw Hcmd Hbody Hp.
  unfold extOrPortSetup, extOrPortSendUserAddr, extOrPortSendTransport,
    extOrPortSendDone.
  destruct (WriteCommand_ok 2 extOrCmdUserAddr remoteAddr c Hra Hw)
    as (c1 & HW1 & Hi1 & Hd1 & Hc1 & Hl1 & Hw1).
  destruct (WriteCommand_ok 1 extOrCmdTransport methodName c1 Hmn Hw1)
    as (c2 & HW2 & Hi2 & Hd2 & Hc2 & Hl2 & Hw2).
  destruct (WriteCommand_ok 0 extOrCmdDone [] c2 ltac:(simpl; lia) Hw2)
    as (c3 & HW3 & Hi3 & Hd3 & Hc3 & Hl3 & _).
  assert (Hp3 : io.pending (net.inp c3) = frame cmd body ++ rest)
    by (rewrite Hi3, Hi2, Hi1; exact Hp).
  destruct (RecvCommand_frame cmd body rest c3 Hcmd Hbody Hp3)
    as (c4 & HR & Hp4 & _ & (_ & Hd4 & Hc4 & reads & Hl4 & Hreads)).
  unfold bind at 1. rewrite HW1. unfold bind at 1. rewrite HW2.
  unfold bind at 1. rewrite HW3. unfold bind at 1. rewrite HR.
  exists c4, reads. split.
  - destruct (cmd =? extOrCmdDeny); [reflexivity|].
    destruct (cmd =? extOrCmdOkay); reflexivity.
  - split; [|repeat split; auto; congruence].
    rewrite Hl4, Hl3, Hl2, Hl1. rewrite <- !app_assoc. reflexivity.
Qed.

Lemma bind_Ok_inv {St A B} (m : M St A) (k : A -> M St B) (s s' : St) (b : B) :
  bind m k s = (Ok b, s') ->
  exists a s1, m s = (Ok a, s1) /\ k a s1 = (Ok b, s').
Proof.
  unfold bind. destruct (m s) as [[a|e] s1]; [|discriminate].
  intro E. exists a, s1. auto.
Qed.

Lemma WriteCommand_Ok_inv (cmd : N) (body : bytes) (c c' : net.TCPConn) :
  extOrPortWriteCommand cmd body c = (Ok tt, c') -> net.inp c' = net.inp c.
Proof.
  unfold extOrPortWriteCommand.
  destruct (65535 <? N.of_nat (length body)); [discriminate|].
  intro E. apply bind_Ok_inv in E as (n & c1 & Et & Er).
  unfold ret in Er. injection Er as <-.
  unfold try, net.Write in Et.
  destruct (net.wres c) as [|[[k e]|] rest]; try discriminate;
    injection Et as _ <-; reflexivity.
Qed.

Lemma ReadFull_Ok_inv (p : bytes) (c c' : net.TCPConn) (data : bytes) :
  try (fun s => io.ReadFull s p) c = (Ok data, c') ->
  io.pending (net.inp c) = data ++ io.pending (net.inp c') /\
  length data = length p.
Proof.
  unfold try.
  destruct (Nat.le_gt_cases (length p) (length (io.pending (net.inp c))))
    as [Hen|Hsh].
  - destruct (conn_ReadFull_enough c p Hen) as (c1 & HR & Hp & _).
    rewrite HR. intro E. assert (Ed : data = firstn (length p) (io.pending (net.inp c)))
      by congruence.
    assert (Ec : c' = c1) by congruence. subst c' data. rewrite Hp.
    split; [symmetry; apply firstn_skipn | rewrite length_firstn; lia].
  - destruct (conn_ReadFull_short c p Hsh) as (c1 & HR & _).
    rewrite HR. discriminate.
Qed.

(** A command that extOrPortRecvCommand returns was on the wire as its
    frame. *)
Lemma RecvCommand_Ok_inv (c c' : net.TCPConn) (cmd : N) (body : bytes) :
  extOrPortRecvCommand c = (Ok (cmd, body), c') ->
  io.pending (net.inp c) = frame cmd body ++ io.pending (net.inp c').
Proof.
  unfold extOrPortRecvCommand. intro E.
  apply bind_Ok_inv in E as (data & c1 & E1 & E).
  apply bind_Ok_inv in E as (body' & c2 & E2 & E).
  apply ReadFull_Ok_inv in E1 as [Hp1 Hl1].
  apply ReadFull_Ok_inv in E2 as [Hp2 Hl2].
  rewrite length_make in Hl1, Hl2.
  destruct data as [|d0 [|d1 [|d2 [|d3 [|]]]]]; try discriminate Hl1.
  cbn [nth] in *. unfold ret in E.
  assert (Ecmd : cmd = binary.Uint16 d0 d1) by congruence.
  assert (Eb : body = body') by congruence.
  assert (Ec : c' = c2) by congruence. subst cmd body' c2.
  rewrite Hp1, Hp2. unfold frame, uint16.
  rewrite Hl2, N2Nat.id, N.mod_small by apply Uint16_lt.
  rewrite !PutUint16_Uint16. rewrite <- app_assoc. reflexivity.
Qed.

(** extOrPortSetup returns nil only after an OKAY command arrived. *)
Lemma Setup_Ok_inv (remoteAddr methodName : bytes) (c c' : net.TCPConn) :
  extOrPortSetup remoteAddr methodName c = (Ok tt, c') ->
  exists body,
    io.pending (net.inp c) = frame extOrCmdOkay body ++ io.pending (net.inp c').
Proof.
  unfold extOrPortSetup, extOrPortSendUserAddr, extOrPortSendTransport,
    extOrPortSendDone.
  intro E.
  apply bind_Ok_inv in E as ([] & c1 & E1 & E).
  apply bind_Ok_inv in E as ([] & c2 & E2 & E).
  apply bind_Ok_inv in E as ([] & c3 & E3 & E).
  apply bind_Ok_inv in E as ([cmd body] & c4 & E4 & E).
  apply WriteCommand_Ok_inv in E1, E2, E3.
  apply RecvCommand_Ok_inv in E4.
  destruct (cmd =? extOrCmdDeny); [discriminate|].
  destruct (cmd =? extOrCmdOkay) eqn:Eo; [|discriminate].
  apply N.eqb_eq in Eo. subst cmd. cbn [negb] in E. unfold ret in E.
  assert (Ec : c' = c4) by congruence. subst c4.
  exists body. rewrite <- E1, <- E2, <- E3. exact E4.
Qed.

(** C6.  extOrPortSetup writes the USERADDR, TRANSPORT and DONE commands,
    in this order and before it reads anything, then reads one command and
    no more.  It returns nil if and only if that command's id is OKAY
    (0x1000); for DENY (0x1001) it returns the DENY error, and for every
    other id an error that names the unknown command. *)
Theorem extOrPortSetup_sequence (remoteAddr methodName : bytes) (c : net.TCPConn)
    (cmd : N) (body rest : bytes) :
  N.of_nat (length remoteAddr) <= 65535 ->
  N.of_nat (length methodName) <= 65535 ->
  net.writes_ok 3 c = true ->
  cmd < 65536 -> N.of_nat (length body) <= 65535 ->
  io.pending (net.inp c) = frame cmd body ++ rest ->
  exists c' reads,
    snd (extOrPortSetup remoteAddr methodName c) = c' /\
    net.log c' = net.log c
      ++ [net.CallWrite (frame 0x0001 remoteAddr)
            (length (frame 0x0001 remoteAddr)) None;
          net.CallWrite (frame 0x0002 methodName)
            (length (frame 0x0002 methodName)) None;
          net.CallWrite (frame 0x0000 []) (length (frame 0x0000 [])) None]
      ++ reads /\
    forallb net.is_read reads = true /\
    io.pending (net.inp c') = rest /\
    (fst (extOrPortSetup remoteAddr methodName c) = Ok tt <-> cmd = 0x1000) /\
    (cmd = 0x1001 ->
     fst (extOrPortSetup remoteAddr methodName c)
     = Err (errors_New (str "server returned DENY after our USERADDR and DONE"))) /\
    (cmd <> 0x1000 -> cmd <> 0x1001 ->
     fst (extOrPortSetup remoteAddr methodName c)
     = Err (errors_New (str "server returned unknown command 0x" ++ fmt.x04 cmd
                          ++ str " after our USERADDR and DONE"))) /\
    (forall c0 c1,
       extOrPortSetup remoteAddr methodName c0 = (Ok tt, c1) ->
       exists body0,
         io.pending (net.inp c0) = frame 0x1000 body0 ++ io.pending (net.inp c1)).
Proof.
  intros Hra Hmn Hw Hcmd Hbody Hp.
  destruct (Setup_run remoteAddr methodName c cmd body rest Hra Hmn Hw Hcmd Hbody Hp)
    as (c' & reads & HS & Hlog & Hreads & Hp' & _).
  exists c', reads. rewrite HS. cbn [fst snd].
  split; [reflexivity|]. split; [exact Hlog|]. split; [exact Hreads|].
  split; [exact Hp'|].
  pose proof (Setup_Ok_inv remoteAddr methodName) as HD.
  unfold extOrCmdDeny, extOrCmdOkay in *.
  destruct (cmd =? 4097) eqn:Ed; [apply N.eqb_eq in Ed | apply N.eqb_neq in Ed];
    (destruct (cmd =? 4096) eqn:Eo; [apply N.eqb_eq in Eo | apply N.eqb_neq in Eo]);
    cbn [negb]; (split; [split|split; [|split; [|exact HD]]]);
    try congruence; try lia; intros; try lia; try discriminate.
Qed.

End Setup.

(** ** The steps of the handshake *)

Section HandshakeSteps.
Import pt.

Lemma hs_inv (st : hs) : hs_ok st -> io.inv (r st).
Proof.
  intro Hok. split; [exact Hok | exact I].
Qed.

Lemma reads_step_refl (st : hs) : hs_ok st -> reads_step st st.
Proof.
  intro Hok. repeat split; auto. exists []. now rewrite app_nil_r.
Qed.

Lemma reads_step_trans (a b c : hs) :
  reads_step a b -> reads_step b c -> reads_step a c.
Proof.
  intros (_ & R1 & G1 & F1) (O2 & R2 & G2 & F2).
  split; [exact O2|]. split; [exact (reads_only_trans _ _ _ R1 R2)|].
  split; congruence.
Qed.

Lemma r_ReadByte_data (st : hs) (c : byte) (rest : bytes) :
  hs_ok st -> stream st = c :: rest ->
  exists st', r_ReadByte st = ((c, None), st') /\ stream st' = rest /\
              reads_step st st'.
Proof.
  intros Hok Hs.
  destruct (@ReadByte_data _ _ TCPConn_Stream (r st) c rest (hs_inv st Hok) Hs)
    as (b' & HR & Hp & Hf & [Hok' _] & Hk).
  unfold r_ReadByte. rewrite HR.
  exists (mkHs b' (rand_Reader st)). repeat split; auto; apply Hk.
Qed.

Lemma r_ReadByte_end (st : hs) :
  hs_ok st -> stream st = [] ->
  exists st', r_ReadByte st
              = ((x00, Some (io.final (net.inp (sock st)))), st') /\
              stream st' = [] /\ reads_step st st'.
Proof.
  intros Hok Hs.
  destruct (@ReadByte_end _ _ TCPConn_Stream (r st) (hs_inv st Hok) Hs)
    as (b' & HR & Hp & Hf & [Hok' _] & Hk).
  unfold r_ReadByte. rewrite HR.
  exists (mkHs b' (rand_Reader st)). repeat split; auto; apply Hk.
Qed.

Lemma r_ReadFull_enough (st : hs) (p : bytes) :
  hs_ok st -> length p <= length (stream st) ->
  exists st', r_ReadFull p st = ((firstn (length p) (stream st), None), st') /\
              stream st' = skipn (length p) (stream st) /\ reads_step st st'.
Proof.
  intros Hok Hen.
  destruct (@ReadFull_enough _ _ (@bufio_Stream _ _ TCPConn_Stream) (r st) p
              (hs_inv st Hok) Hen)
    as (b' & HR & Hp & Hf & [Hok' _] & Hk).
  unfold r_ReadFull. rewrite HR.
  exists (mkHs b' (rand_Reader st)). repeat split; auto; apply Hk.
Qed.

Lemma r_ReadFull_short (st : hs) (p : bytes) :
  hs_ok st -> length (stream st) < length p ->
  exists st', r_ReadFull p st
              = ((overlay (stream st) p,
                  Some (io.short_read (stream st) (io.final (net.inp (sock st))))),
                 st') /\
              stream st' = [] /\ reads_step st st'.
Proof.
  intros Hok Hsh.
  destruct (@ReadFull_short _ _ (@bufio_Stream _ _ TCPConn_Stream) (r st) p
              (hs_inv st Hok) Hsh)
    as (b' & HR & Hp & Hf & [Hok' _] & Hk).
  unfold r_ReadFull. rewrite HR.
  exists (mkHs b' (rand_Reader st)). repeat split; auto; apply Hk.
Qed.

Lemma s_Write_ok (k : nat) (p : bytes) (st : hs) :
  hs_ok st -> net.writes_ok (S k) (sock st) = true ->
  exists st', s_Write p st = ((length p, None), st') /\
    stream st' = stream st /\ hs_ok st' /\
    rand_Reader st' = rand_Reader st /\
    io.final (net.inp (sock st')) = io.final (net.inp (sock st)) /\
    net.deadline (sock st') = net.deadline (sock st) /\
    net.closed (sock st') = net.closed (sock st) /\
    net.log (sock st') = net.log (sock st) ++ [net.CallWrite p (length p) None] /\
    net.writes_ok k (sock st') = true.
Proof.
  intros Hok Hw. destruct (Write_ok k p (sock st) Hw)
    as (c' & HW & Hi & Hd & Hc & Hl & Hw').
  unfold s_Write. fold (sock st). rewrite HW.
  eexists; split; [reflexivity|]. unfold stream, hs_ok, sock in *. simpl.
  rewrite Hi. auto 10.
Qed.

Lemma rand_ReadFull_enough (st : hs) (p : bytes) :
  length p <= length (io.pending (rand_Reader st)) ->
  exists g',
    rand_ReadFull p st
    = ((firstn (length p) (io.pending (rand_Reader st)), None), mkHs (r st) g') /\
    io.pending g' = skipn (length p) (io.pending (rand_Reader st)).
Proof.
  intro Hen.
  destruct (source_ReadFull_enough (rand_Reader st) p Hen) as (g' & HR & Hp & _).
  unfold rand_ReadFull. rewrite HR. exists g'. auto.
Qed.

End HandshakeSteps.

(** ** The auth-type negotiation *)

Section AuthTypes.
Import pt.

Lemma fold_set_true (types : bytes) :
  forall (authTypes : byte -> bool) (b : byte),
    fold_left set_true types authTypes b
    = authTypes b || existsb (Byte.eqb b) types.
Proof.
  induction types as [|t ts IH]; intros authTypes b; simpl.
  - now rewrite orb_false_r.
  - rewrite IH. unfold set_true. destruct (Byte.eqb b t); simpl.
    + now rewrite orb_true_r.
    + reflexivity.
Qed.

Lemma authTypes_offered (types : bytes) (b : byte) :
  fold_left set_true types (fun _ => false) b = true <-> In b types.
Proof.
  rewrite fold_set_true. simpl. rewrite existsb_exists. split.
  - intros (x & Hin & Hx). apply byte_eqb_eq in Hx. now subst.
  - intro Hin. exists b. split; [exact Hin | now apply byte_eqb_eq].
Qed.

(** The loop ends at the zero byte when that comes within its [n]
    iterations: it has consumed the types and the zero byte. *)
Lemma authTypes_loop_terminated (types : bytes) :
  forall (n count : nat) (authTypes : byte -> bool) (st : hs) (rest : bytes),
    hs_ok st -> stream st = types ++ x00 :: rest ->
    Forall (fun b => b <> x00) types -> length types < n ->
    exists st',
      authTypes_loop n count authTypes st
      = (Ok (count + length types, fold_left set_true types authTypes), st') /\
      stream st' = rest /\ reads_step st st'.
Proof.
  induction types as [|t ts IH]; intros n count authTypes st rest Hok Hs Hnz Hlen;
    (destruct n as [|n]; [simpl in Hlen; lia|]); simpl in Hs.
  - destruct (r_ReadByte_data st x00 rest Hok Hs) as (st' & HR & Hs' & Hstep).
    simpl. unfold bind, try. rewrite HR. simpl.
    exists st'. rewrite Nat.add_0_r. auto.
  - destruct (r_ReadByte_data st t _ Hok Hs) as (st1 & HR & Hs1 & Hstep1).
    inversion Hnz as [|? ? Ht Hts]; subst.
    destruct (IH n (S count) (set_true authTypes t) st1 rest) as (st' & HL & Hs' & Hstep');
      auto; [apply Hstep1 | simpl in Hlen; lia |].
    simpl authTypes_loop. unfold bind at 1, try. rewrite HR.
    apply byte_eqb_neq in Ht. rewrite Ht. rewrite HL.
    exists st'. simpl length. rewrite <- plus_n_Sm. simpl fold_left.
    split; [reflexivity|]. split; [exact Hs'|].
    exact (reads_step_trans _ _ _ Hstep1 Hstep').
Qed.

(** The loop runs out of iterations when [n] bytes come without a zero
    byte among them: it has consumed these [n] bytes and count has grown
    by n. *)
Lemma authTypes_loop_full (types : bytes) :
  forall (n count : nat) (authTypes : byte -> bool) (st : hs) (rest : bytes),
    hs_ok st -> stream st = types ++ rest ->
    Forall (fun b => b <> x00) types -> length types = n ->
    exists st',
      authTypes_loop n count authTypes st
      = (Ok (count + n, fold_left set_true types authTypes), st') /\
      stream st' = rest /\ reads_step st st'.
Proof.
  induction types as [|t ts IH]; intros n count authTypes st rest Hok Hs Hnz Hlen;
    simpl in Hlen; subst n; simpl in Hs.
  - exists st. simpl. unfold ret. rewrite Nat.add_0_r.
    auto using reads_step_refl.
  - destruct (r_ReadByte_data st t _ Hok Hs) as (st1 & HR & Hs1 & Hstep1).
    inversion Hnz as [|? ? Ht Hts]; subst.
    destruct (IH (length ts) (S count) (set_true authTypes t) st1 rest)
      as (st' & HL & Hs' & Hstep'); auto; [apply Hstep1|].
    simpl authTypes_loop. unfold bind at 1, try. rewrite HR.
    apply byte_eqb_neq in Ht. rewrite Ht. rewrite HL.
    exists st'. rewrite <- plus_n_Sm. simpl fold_left.
    split; [reflexivity|]. split; [exact Hs'|].
    exact (reads_step_trans _ _ _ Hstep1 Hstep').
Qed.

Lemma NewReader_ok (s : net.TCPConn) (rnd : io.source) :
  hs_ok (mkHs (bufio.NewReader s) rnd) /\
  stream (mkHs (bufio.NewReader s) rnd) = io.pending (net.inp s) /\
  sock (mkHs (bufio.NewReader s) rnd) = s.
Proof.
  repeat split.
Qed.

End AuthTypes.

Section Negotiation.
Import pt.
Context `{hmac.HMAC_SHA256}.

Lemma authenticate_too_many (info : ServerInfo) (st : hs) (types rest : bytes) :
  hs_ok st -> stream st = types ++ rest ->
  Forall (fun b => b <> x00) types -> length types = 256 ->
  exists st',
    authenticate info st
    = (Err (errors_New (str "read 256 auth types without seeing \x00")), st') /\
    stream st' = rest /\ reads_step st st'.
Proof.
  intros Hok Hs Hnz Hlen.
  destruct (authTypes_loop_full types 256 0 (fun _ => false) st rest Hok Hs Hnz Hlen)
    as (st' & HL & Hs' & Hstep).
  unfold authenticate. unfold bind at 1. rewrite HL.
  exists st'. auto.
Qed.

Lemma authenticate_not_offered (info : ServerInfo) (st : hs) (types rest : bytes) :
  hs_ok st -> stream st = types ++ x00 :: rest ->
  Forall (fun b => b <> x00) types -> length types < 256 -> ~ In x01 types ->
  exists st',
    authenticate info st
    = (Err (errors_New (str "server didn't offer auth type 1")), st') /\
    stream st' = rest /\ reads_step st st'.
Proof.
  intros Hok Hs Hnz Hlen Hno.
  destruct (authTypes_loop_terminated types 256 0 (fun _ => false) st rest
              Hok Hs Hnz Hlen) as (st' & HL & Hs' & Hstep).
  unfold authenticate. unfold bind at 1. rewrite HL.
  replace (256 <=? 0 + length types) with false
    by (symmetry; apply Nat.leb_gt; lia).
  destruct (fold_left set_true types (fun _ => false) x01) eqn:E.
  - apply authTypes_offered in E. contradiction.
  - exists st'. auto.
Qed.

(** C5.  The handshake reads the auth types one byte at a time through r.
    When 256 bytes come without a zero byte among them it has consumed
    these 256 bytes and no more, has written nothing, and returns the
    error "read 256 auth types without seeing \x00", which is not the
    error for a list that does not offer type 1. *)
Theorem auth_types_limit (info : ServerInfo) (s : net.TCPConn) (rnd : io.source)
    (types rest : bytes) :
  io.pending (net.inp s) = types ++ rest ->
  Forall (fun b => b <> x00) types -> length types = 256 ->
  exists st',
    authenticate info (mkHs (bufio.NewReader s) rnd)
    = (Err (errors_New (str "read 256 auth types without seeing \x00")), st') /\
    stream st' = rest /\
    extOrPortAuthenticate s rnd info
    = (Some (errors_New (str "read 256 auth types without seeing \x00")),
       sock st', rnd) /\
    net.reads_only s (sock st') /\
    net.written (net.log (sock st')) = net.written (net.log s) /\
    errors_New (str "read 256 auth types without seeing \x00")
      <> errors_New (str "server didn't offer auth type 1").
Proof.
  intros Hp Hnz Hlen.
  destruct (NewReader_ok s rnd) as (Hok & Hs & Hsock).
  rewrite Hp in Hs.
  destruct (authenticate_too_many info _ types rest Hok Hs Hnz Hlen)
    as (st' & HA & Hs' & (_ & Hro & Hg & _)).
  exists st'. unfold extOrPortAuthenticate. rewrite HA. rewrite Hsock in Hro.
  simpl in Hg. unfold sock in *. cbn [error_of]. rewrite Hg.
  repeat split; try apply Hro; auto.
  - now apply reads_only_written.
  - discriminate.
Qed.

(** C4.  When the auth types the peer sends up to the zero byte do not
    include type 1, the handshake returns an error having made only Read
    calls on the connection: nothing was written, and rand.Reader was not
    read, so no nonce exists.  The error is "server didn't offer auth type
    1" for a list of fewer than 256 types. *)
Theorem no_safe_cookie_no_nonce (info : ServerInfo) (s : net.TCPConn)
    (rnd : io.source) (types rest : bytes) :
  io.pending (net.inp s) = types ++ x00 :: rest ->
  Forall (fun b => b <> x00) types -> ~ In x01 types ->
  exists e s',
    extOrPortAuthenticate s rnd info = (Some e, s', rnd) /\
    net.reads_only s s' /\
    net.written (net.log s') = net.written (net.log s) /\
    net.non_reads (net.log s') = net.non_reads (net.log s) /\
    (length types < 256 ->
     e = errors_New (str "server didn't offer auth type 1")).
Proof.
  intros Hp Hnz Hno.
  destruct (NewReader_ok s rnd) as (Hok & Hs & Hsock).
  rewrite Hp in Hs.
  assert (Hrun : exists e st',
             authenticate info (mkHs (bufio.NewReader s) rnd) = (Err e, st') /\
             reads_step (mkHs (bufio.NewReader s) rnd) st' /\
             (length types < 256 ->
              e = errors_New (str "server didn't offer auth type 1"))).
  { destruct (Nat.lt_ge_cases (length types) 256) as [Hlt|Hge].
    - destruct (authenticate_not_offered info _ types rest Hok Hs Hnz Hlt Hno)
        as (st' & HA & _ & Hstep).
      eexists; exists st'. split; [exact HA|]. auto.
    - rewrite <- (firstn_skipn 256 types), <- app_assoc in Hs.
      destruct (authenticate_too_many info _ (firstn 256 types) _ Hok Hs)
        as (st' & HA & _ & Hstep).
      + apply Forall_forall. intros b Hb. rewrite Forall_forall in Hnz.
        apply Hnz. rewrite <- (firstn_skipn 256 types). apply in_or_app. now left.
      + rewrite length_firstn. lia.
      + eexists; exists st'. split; [exact HA|]. split; [exact Hstep|]. lia. }
  destruct Hrun as (e & st' & HA & (_ & Hro & Hg & _) & He).
  exists e, (sock st'). unfold extOrPortAuthenticate. rewrite HA.
  rewrite Hsock in Hro. simpl in Hg. unfold sock in *. cbn [error_of]. rewrite Hg.
  repeat split; try apply Hro; auto.
  - now apply reads_only_written.
  - now apply reads_only_non_reads.
Qed.

End Negotiation.

(** ** The SAFE_COOKIE exchange *)

Section Exchange.
Import pt.
Context `{hmac.HMAC_SHA256}.

Lemma computeServerHash_eq (info : ServerInfo) (clientNonce serverNonce : bytes) :
  computeServerHash info clientNonce serverNonce
  = hmac.hmac_sha256 (AuthCookie info)
      (str "ExtORPort authentication server-to-client hash"
         ++ clientNonce ++ serverNonce).
Proof.
  unfold computeServerHash, hmac.Sum, hmac.Write, hmac.New.
  cbn [hmac.key hmac.msg]. now rewrite !app_nil_l, <- app_assoc.
Qed.

Lemma computeClientHash_eq (info : ServerInfo) (clientNonce serverNonce : bytes) :
  computeClientHash info clientNonce serverNonce
  = hmac.hmac_sha256 (AuthCookie info)
      (str "ExtORPort authentication client-to-server hash"
         ++ clientNonce ++ serverNonce).
Proof.
  unfold computeClientHash, hmac.Sum, hmac.Write, hmac.New.
  cbn [hmac.key hmac.msg]. now rewrite !app_nil_l, <- app_assoc.
Qed.

(** The handshake up to the read of the server's nonce, when the peer
    offers type 1 and sends 64 bytes more, rand.Reader gives 32 bytes and
    the two writes are complete: the state [st6] at that point. *)
Ltac to_server_nonce st types sh sn rest k Hok Hs Hnz Hlen H1 Hsh Hsn Hg Hw st6 :=
      let st1 := fresh "st1" in let st2 := fresh "st2" in
      let st4 := fresh "st4" in let st5 := fresh "st5" in
      let g' := fresh "g'" in
      destruct (authTypes_loop_terminated types 256 0 (fun _ => false) st
                  (sh ++ sn ++ rest) Hok Hs Hnz Hlen)
        as (st1 & HL & Hs1 & (Hok1 & Hro1 & Hg1 & Hf1));
      unfold authenticate; unfold bind at 1; rewrite HL;
      replace (256 <=? 0 + length types) with false
        by (symmetry; apply Nat.leb_gt; lia);
      replace (fold_left set_true types (fun _ => false) x01) with true
        by (symmetry; now apply authTypes_offered);
      cbn [negb];
      assert (Hw1 : net.writes_ok (S (S k)) (sock st1) = true)
        by (now rewrite (reads_only_writes_ok _ _ _ Hro1));
      destruct (s_Write_ok (S k) [x01] st1 Hok1 Hw1)
        as (st2 & HW2 & Hs2 & Hok2 & Hg2 & Hf2 & Hd2 & Hc2 & Hl2 & Hw2);
      unfold bind at 1; unfold try at 1; rewrite HW2;
      destruct (rand_ReadFull_enough st2 (make 32)) as (g' & HR3 & Hp3);
      [rewrite length_make, Hg2, Hg1; exact Hg|];
      rewrite length_make, Hg2, Hg1 in HR3, Hp3;
      unfold bind at 1; unfold try at 1; rewrite HR3;
      destruct (s_Write_ok k (firstn 32 (io.pending (rand_Reader st)))
                  (mkHs (r st2) g') Hok2 Hw2)
        as (st4 & HW4 & Hs4 & Hok4 & Hg4 & Hf4 & Hd4 & Hc4 & Hl4 & Hw4);
      unfold bind at 1; unfold try at 1; rewrite HW4;
      change (stream (mkHs (r st2) g')) with (stream st2) in Hs4;
      change (sock (mkHs (r st2) g')) with (sock st2) in *;
      destruct (r_ReadFull_enough st4 (make 32) Hok4)
        as (st5 & HR5 & Hs5 & (Hok5 & Hro5 & Hg5 & Hf5));
      [rewrite length_make, Hs4, Hs2, Hs1, length_app; lia|];
      rewrite length_make, Hs4, Hs2, Hs1 in HR5, Hs5;
      rewrite (firstn_app_exact sh _ 32 Hsh) in HR5;
      rewrite (skipn_app_exact sh _ 32 Hsh) in Hs5;
      unfold bind at 1; unfold try at 1; rewrite HR5;
      destruct (r_ReadFull_enough st5 (make 32) Hok5)
        as (st6 & HR6 & Hs6 & (Hok6 & Hro6 & Hg6 & Hf6));
      [rewrite length_make, Hs5, length_app; lia|];
      rewrite length_make, Hs5 in HR6, Hs6;
      rewrite (firstn_app_exact sn _ 32 Hsn) in HR6;
      rewrite (skipn_app_exact sn _ 32 Hsn) in Hs6;
      unfold bind at 1; unfold try at 1; rewrite HR6;
      assert (Hnr6 : net.non_reads (net.log (sock st6))
                = net.non_reads (net.log (sock st))
                  ++ [net.CallWrite [x01] 1 None;
                      net.CallWrite (firstn 32 (io.pending (rand_Reader st)))
                        (length (firstn 32 (io.pending (rand_Reader st)))) None])
        by (rewrite (reads_only_non_reads _ _ Hro6),
              (reads_only_non_reads _ _ Hro5), Hl4, non_reads_write, Hl2,
              non_reads_write, (reads_only_non_reads _ _ Hro1), <- app_assoc;
            reflexivity);
      assert (Hw6 : net.writes_ok k (sock st6) = true)
        by (rewrite (reads_only_writes_ok _ _ _ Hro6),
              (reads_only_writes_ok _ _ _ Hro5); exact Hw4);
      assert (Hd6 : net.deadline (sock st6) = net.deadline (sock st)
                    /\ net.closed (sock st6) = net.closed (sock st))
        by (destruct Hro6 as (_ & D6 & C6 & _), Hro5 as (_ & D5 & C5 & _),
              Hro1 as (_ & D1 & C1 & _); split; congruence);
      assert (Hrnd6 : io.pending (rand_Reader st6)
                      = skipn 32 (io.pending (rand_Reader st)))
        by (rewrite Hg6, Hg5, Hg4; exact Hp3).

(** A server hash that is not the expected one ends the handshake with the
    mismatch error, after the two writes of the selection byte and the
    nonce and no other. *)
Lemma authenticate_mismatch (info : ServerInfo) (st : hs)
    (types sh sn rest : bytes) (k : nat) :
  hs_ok st -> stream st = types ++ x00 :: sh ++ sn ++ rest ->
  Forall (fun b => b <> x00) types -> length types < 256 -> In x01 types ->
  length sh = 32 -> length sn = 32 ->
  32 <= length (io.pending (rand_Reader st)) ->
  net.writes_ok (S (S k)) (sock st) = true ->
  sh <> computeServerHash info (firstn 32 (io.pending (rand_Reader st))) sn ->
  exists st',
    authenticate info st
    = (Err (errors_New (str "mismatch in server hash")), st') /\
    stream st' = rest /\
    net.non_reads (net.log (sock st'))
    = net.non_reads (net.log (sock st))
      ++ [net.CallWrite [x01] 1 None;
          net.CallWrite (firstn 32 (io.pending (rand_Reader st)))
            (length (firstn 32 (io.pending (rand_Reader st)))) None] /\
    (net.deadline (sock st') = net.deadline (sock st) /\
     net.closed (sock st') = net.closed (sock st)) /\
    io.pending (rand_Reader st') = skipn 32 (io.pending (rand_Reader st)).
Proof.
  intros Hok Hs Hnz Hlen H1 Hsh Hsn Hg Hw Hne.
  to_server_nonce st types sh sn rest k Hok Hs Hnz Hlen H1 Hsh Hsn Hg Hw st6.
  destruct (subtle.ConstantTimeCompare sh
              (computeServerHash info (firstn 32 (io.pending (rand_Reader st))) sn)
            =? 1)%Z eqn:E.
  - apply ConstantTimeCompare_eqb in E. contradiction.
  - exists st6. cbn [negb]. auto.
Qed.

(** A peer that answers with the expected hash and then the status byte
    1, and nothing more, is authenticated; the client hash is the third
    and last write. *)
Lemma authenticate_success (info : ServerInfo) (st : hs)
    (types sh sn : bytes) (k : nat) :
  hs_ok st -> stream st = types ++ x00 :: sh ++ sn ++ [x01] ->
  Forall (fun b => b <> x00) types -> length types < 256 -> In x01 types ->
  length sh = 32 -> length sn = 32 ->
  32 <= length (io.pending (rand_Reader st)) ->
  net.writes_ok (S (S (S k))) (sock st) = true ->
  sh = computeServerHash info (firstn 32 (io.pending (rand_Reader st))) sn ->
  exists st',
    authenticate info st = (Ok tt, st') /\
    io.pending (net.inp (sock st')) = [] /\
    net.non_reads (net.log (sock st'))
    = net.non_reads (net.log (sock st))
      ++ [net.CallWrite [x01] 1 None;
          net.CallWrite (firstn 32 (io.pending (rand_Reader st)))
            (length (firstn 32 (io.pending (rand_Reader st)))) None;
          net.CallWrite
            (computeClientHash info (firstn 32 (io.pending (rand_Reader st))) sn)
            (length (computeClientHash info
                       (firstn 32 (io.pending (rand_Reader st))) sn)) None] /\
    (net.deadline (sock st') = net.deadline (sock st) /\
     net.closed (sock st') = net.closed (sock st)) /\
    net.writes_ok k (sock st') = true /\
    io.final (net.inp (sock st')) = io.final (net.inp (sock st)).
Proof.
  intros Hok Hs Hnz Hlen H1 Hsh Hsn Hg Hw He.
  to_server_nonce st types sh sn [x01] (S k) Hok Hs Hnz Hlen H1 Hsh Hsn Hg Hw st6.
  replace (subtle.ConstantTimeCompare sh
             (computeServerHash info (firstn 32 (io.pending (rand_Reader st))) sn)
           =? 1)%Z with true
    by (symmetry; now apply ConstantTimeCompare_eqb).
  cbn [negb].
  destruct (s_Write_ok k
              (computeClientHash info (firstn 32 (io.pending (rand_Reader st))) sn)
              st6 Hok6 Hw6)
    as (st7 & HW7 & Hs7 & Hok7 & Hg7 & Hf7 & Hd7 & Hc7 & Hl7 & Hw7).
  unfold bind at 1; unfold try at 1; rewrite HW7.
  destruct (r_ReadFull_enough st7 (make 1) Hok7)
    as (st8 & HR8 & Hs8 & (Hok8 & Hro8 & Hg8 & Hf8)).
  { rewrite length_make, Hs7, Hs6. simpl. lia. }
  rewrite length_make, Hs7, Hs6 in HR8, Hs8. cbn [firstn skipn] in HR8, Hs8.
  unfold bind at 1; unfold try at 1; rewrite HR8.
  cbn [nth]. change (Byte.eqb x01 x01) with true. cbn [negb].
  unfold bind at 1, get.
  unfold stream in Hs8. apply app_eq_nil in Hs8 as [Hbuf Hpend].
  unfold bufio.Buffered. rewrite Hbuf. cbn [length Nat.eqb negb].
  exists st8. unfold ret. split; [reflexivity|]. split; [exact Hpend|].
  destruct Hd6 as [Hd6 Hc6]. pose proof Hro8 as (_ & D8 & C8 & _).
  split; [|split; [split; congruence|split]].
  - rewrite (reads_only_non_reads _ _ Hro8), Hl7, non_reads_write, Hnr6.
    rewrite <- app_assoc. reflexivity.
  - rewrite (reads_only_writes_ok _ _ _ Hro8). exact Hw7.
  - congruence.
Qed.

End Exchange.

Section ServerVerification.
Import pt.
Context `{hmac.HMAC_SHA256}.

(** C1.  With the peer's hash [sh] and nonce [sn] received and the client
    nonce [cn] drawn from rand.Reader, the handshake computes the expected
    server hash as HMAC-SHA256 keyed with the cookie over the literal
    "ExtORPort authentication server-to-client hash" followed by cn and
    then sn, and compares it to the 32 received bytes with
    subtle.ConstantTimeCompare, which yields 1 exactly for equal slices.
    If they differ the handshake returns the mismatch error and the only
    writes on the connection are the selection byte 1 and the client
    nonce: the client hash is not written.  If they are equal the client
    hash is the next write, and a peer that then answers with status 1 and
    nothing more is authenticated. *)
Theorem server_hash_mismatch_rejected (info : ServerInfo) (s : net.TCPConn)
    (rnd : io.source) (types sh sn rest : bytes) :
  io.pending (net.inp s) = types ++ x00 :: sh ++ sn ++ rest ->
  Forall (fun b => b <> x00) types -> length types < 256 -> In x01 types ->
  length sh = 32 -> length sn = 32 ->
  32 <= length (io.pending rnd) ->
  net.writes_ok 2 s = true ->
  let cn := firstn 32 (io.pending rnd) in
  let expected :=
    hmac.hmac_sha256 (AuthCookie info)
      (str "ExtORPort authentication server-to-client hash" ++ cn ++ sn) in
  computeServerHash info cn sn = expected /\
  (subtle.ConstantTimeCompare sh expected = 1%Z <-> sh = expected) /\
  (sh <> expected ->
   exists s' rnd',
     extOrPortAuthenticate s rnd info
     = (Some (errors_New (str "mismatch in server hash")), s', rnd') /\
     net.non_reads (net.log s')
     = net.non_reads (net.log s)
       ++ [net.CallWrite [x01] 1 None; net.CallWrite cn 32 None] /\
     net.written (net.log s') = net.written (net.log s) ++ [x01] ++ cn) /\
  (sh = expected -> rest = [x01] -> net.writes_ok 3 s = true ->
   exists s' rnd',
     extOrPortAuthenticate s rnd info = (None, s', rnd') /\
     net.non_reads (net.log s')
     = net.non_reads (net.log s)
       ++ [net.CallWrite [x01] 1 None; net.CallWrite cn 32 None;
           net.CallWrite (computeClientHash info cn sn)
             (length (computeClientHash info cn sn)) None]).
Proof.
  intros Hp Hnz Hlen H1 Hsh Hsn Hg Hw cn expected.
  destruct (NewReader_ok s rnd) as (Hok & Hs & Hsock).
  rewrite Hp in Hs.
  assert (Hcn : length cn = 32) by (unfold cn; rewrite length_firstn; lia).
  assert (Hexp : computeServerHash info cn sn = expected)
    by apply computeServerHash_eq.
  split; [exact Hexp|]. split; [apply ConstantTimeCompare_spec|]. split.
  - intro Hne. rewrite <- Hexp in Hne.
    destruct (authenticate_mismatch info _ types sh sn rest 0 Hok Hs Hnz Hlen H1
                Hsh Hsn Hg Hw Hne) as (st' & HA & _ & Hnr & _ & _).
    exists (sock st'), (rand_Reader st'). unfold extOrPortAuthenticate.
    rewrite HA. cbn [error_of]. split; [reflexivity|].
    rewrite Hsock in Hnr. cbn [rand_Reader] in Hnr. fold cn in Hnr.
    pose proof Hnr as Hnr'. rewrite Hcn in Hnr'. split; [exact Hnr'|].
    rewrite <- (written_non_reads (net.log (sock st'))), Hnr, written_app,
      written_non_reads.
    f_equal.
    change [net.CallWrite [x01] 1 None; net.CallWrite cn (length cn) None]
      with ([net.CallWrite [x01] (length [x01]) None]
              ++ [net.CallWrite cn (length cn) None]).
    now rewrite written_app, !written_complete.
  - intros He Hrest Hw3. rewrite <- Hexp in He. subst rest.
    destruct (authenticate_success info _ types sh sn 0 Hok Hs Hnz Hlen H1
                Hsh Hsn Hg Hw3 He) as (st' & HA & _ & Hnr & _).
    exists (sock st'), (rand_Reader st'). unfold extOrPortAuthenticate.
    rewrite HA. cbn [error_of]. split; [reflexivity|].
    rewrite Hsock in Hnr. cbn [rand_Reader] in Hnr. fold cn in Hnr.
    rewrite Hcn in Hnr. exact Hnr.
Qed.

End ServerVerification.

(** ** What the handshake and the setup leave alone *)

Section Frames.
Import pt.

Lemma io_only_refl (c : net.TCPConn) : net.io_only c c.
Proof.
  repeat split. exists []. now rewrite app_nil_r.
Qed.

Lemma io_only_trans (a b c : net.TCPConn) :
  net.io_only a b -> net.io_only b c -> net.io_only a c.
Proof.
  intros (D1 & C1 & l1 & L1 & R1) (D2 & C2 & l2 & L2 & R2).
  repeat split; try congruence.
  exists (l1 ++ l2). rewrite L2, L1, app_assoc. split; [reflexivity|].
  rewrite forallb_app, R1, R2. reflexivity.
Qed.

Lemma io_only_Write (p : bytes) (c : net.TCPConn) :
  net.io_only c (snd (net.Write p c)).
Proof.
  unfold net.Write.
  destruct (match net.wres c with
            | Some (k, e) :: _ => (Nat.min k (length p), Some e)
            | _ => (length p, None)
            end) as [n e].
  simpl. repeat split. eexists; split; reflexivity.
Qed.

Lemma io_only_ReadFull (p : bytes) (c : net.TCPConn) :
  net.io_only c (snd (io.ReadFull c p)).
Proof.
  destruct (Nat.le_gt_cases (length p) (length (io.pending (net.inp c))))
    as [Hen|Hsh].
  - destruct (conn_ReadFull_enough c p Hen) as (c' & HR & _ & _ & Hk).
    rewrite HR. now apply reads_only_io_only.
  - destruct (conn_ReadFull_short c p Hsh) as (c' & HR & Hk).
    rewrite HR. now apply reads_only_io_only.
Qed.

Lemma try_snd {St A} (f : St -> (A * option error) * St) (s : St) :
  snd (try f s) = snd (f s).
Proof.
  unfold try. destruct (f s) as [[a [e|]] s']; reflexivity.
Qed.

Lemma conn_frame_ret {A} (a : A) : conn_frame (ret a).
Proof.
  intro c. apply io_only_refl.
Qed.

Lemma conn_frame_fail {A} (e : error) : conn_frame (@fail _ A e).
Proof.
  intro c. apply io_only_refl.
Qed.

Lemma conn_frame_bind {A B} (m : M net.TCPConn A) (k : A -> M net.TCPConn B) :
  conn_frame m -> (forall a, conn_frame (k a)) -> conn_frame (bind m k).
Proof.
  intros Hm Hk c. unfold bind. specialize (Hm c).
  destruct (m c) as [[a|e] c1]; simpl in *.
  - exact (io_only_trans _ _ _ Hm (Hk a c1)).
  - exact Hm.
Qed.

Lemma conn_frame_WriteCommand (cmd : N) (body : bytes) :
  conn_frame (extOrPortWriteCommand cmd body).
Proof.
  unfold extOrPortWriteCommand.
  destruct (65535 <? N.of_nat (length body))%N; [apply conn_frame_fail|].
  apply conn_frame_bind; [|intro; apply conn_frame_ret].
  intro c. rewrite try_snd. apply io_only_Write.
Qed.

Lemma conn_frame_RecvCommand : conn_frame extOrPortRecvCommand.
Proof.
  unfold extOrPortRecvCommand.
  apply conn_frame_bind; [intro c; rewrite try_snd; apply io_only_ReadFull|].
  intro data. apply conn_frame_bind; [|intro; apply conn_frame_ret].
  intro c. rewrite try_snd. apply io_only_ReadFull.
Qed.

(** extOrPortSetup makes only Read and Write calls, whatever happens. *)
Lemma conn_frame_Setup (remoteAddr methodName : bytes) :
  conn_frame (extOrPortSetup remoteAddr methodName).
Proof.
  unfold extOrPortSetup, extOrPortSendUserAddr, extOrPortSendTransport,
    extOrPortSendDone.
  repeat (apply conn_frame_bind; [apply conn_frame_WriteCommand | intros _]).
  apply conn_frame_bind; [apply conn_frame_RecvCommand|].
  intros [cmd body]. destruct (cmd =? extOrCmdDeny)%N; [apply conn_frame_fail|].
  destruct (negb (cmd =? extOrCmdOkay)%N);
    [apply conn_frame_fail | apply conn_frame_ret].
Qed.

Lemma hs_frame_ret {A} (a : A) : hs_frame (ret a).
Proof.
  intros st Hok. split; [exact Hok | apply io_only_refl].
Qed.

Lemma hs_frame_fail {A} (e : error) : hs_frame (@fail _ A e).
Proof.
  intros st Hok. split; [exact Hok | apply io_only_refl].
Qed.

Lemma hs_frame_bind {A B} (m : M hs A) (k : A -> M hs B) :
  hs_frame m -> (forall a, hs_frame (k a)) -> hs_frame (bind m k).
Proof.
  intros Hm Hk st Hok. unfold bind. destruct (Hm st Hok) as [Hok1 Hio1].
  destruct (m st) as [[a|e] st1]; simpl in *.
  - destruct (Hk a st1 Hok1) as [Hok2 Hio2].
    split; [exact Hok2 | exact (io_only_trans _ _ _ Hio1 Hio2)].
  - auto.
Qed.

Lemma hs_frame_Write (p : bytes) : hs_frame (try (s_Write p)).
Proof.
  intros st Hok. rewrite try_snd. unfold s_Write.
  pose proof (io_only_Write p (bufio.rd (r st))) as Hio.
  destruct (net.Write p (bufio.rd (r st))) as [ne s']. simpl in *.
  split; [exact Hok | exact Hio].
Qed.

Lemma hs_frame_ReadByte : hs_frame (try r_ReadByte).
Proof.
  intros st Hok. rewrite try_snd.
  destruct (stream st) as [|c rest] eqn:Hs.
  - destruct (r_ReadByte_end st Hok Hs) as (st' & HR & _ & Hok' & Hro & _).
    rewrite HR. split; [exact Hok' | now apply reads_only_io_only].
  - destruct (r_ReadByte_data st c rest Hok Hs) as (st' & HR & _ & Hok' & Hro & _).
    rewrite HR. split; [exact Hok' | now apply reads_only_io_only].
Qed.

Lemma hs_frame_ReadFull (p : bytes) : hs_frame (try (r_ReadFull p)).
Proof.
  intros st Hok. rewrite try_snd.
  destruct (Nat.le_gt_cases (length p) (length (stream st))) as [Hen|Hsh].
  - destruct (r_ReadFull_enough st p Hok Hen) as (st' & HR & _ & Hok' & Hro & _).
    rewrite HR. split; [exact Hok' | now apply reads_only_io_only].
  - destruct (r_ReadFull_short st p Hok Hsh) as (st' & HR & _ & Hok' & Hro & _).
    rewrite HR. split; [exact Hok' | now apply reads_only_io_only].
Qed.

Lemma hs_frame_rand (p : bytes) : hs_frame (try (rand_ReadFull p)).
Proof.
  intros st Hok. rewrite try_snd. unfold rand_ReadFull.
  destruct (io.ReadFull (rand_Reader st) p) as [be g']. simpl.
  split; [exact Hok | apply io_only_refl].
Qed.

Lemma hs_frame_authTypes_loop (n : nat) :
  forall count authTypes, hs_frame (authTypes_loop n count authTypes).
Proof.
  induction n as [|n IH]; intros count authTypes; simpl.
  - apply hs_frame_ret.
  - apply hs_frame_bind; [apply hs_frame_ReadByte|].
    intro b. destruct (Byte.eqb b x00); [apply hs_frame_ret | apply IH].
Qed.

(** The handshake makes only Read and Write calls on the connection,
    whatever the peer sends and however it ends. *)
Lemma hs_frame_authenticate `{hmac.HMAC_SHA256} (info : ServerInfo) :
  hs_frame (authenticate info).
Proof.
  unfold authenticate.
  apply hs_frame_bind; [apply hs_frame_authTypes_loop|].
  intros [count authTypes].
  destruct (256 <=? count); [apply hs_frame_fail|].
  destruct (negb (authTypes x01)); [apply hs_frame_fail|].
  apply hs_frame_bind; [apply hs_frame_Write | intros _].
  apply hs_frame_bind; [apply hs_frame_rand | intro clientNonce].
  apply hs_frame_bind; [apply hs_frame_Write | intros _].
  apply hs_frame_bind; [apply hs_frame_ReadFull | intro serverHash].
  apply hs_frame_bind; [apply hs_frame_ReadFull | intro serverNonce].
  cbv zeta.
  destruct (negb (subtle.ConstantTimeCompare serverHash
                    (computeServerHash info clientNonce serverNonce) =? 1)%Z);
    [apply hs_frame_fail|].
  apply hs_frame_bind; [apply hs_frame_Write | intros _].
  apply hs_frame_bind; [apply hs_frame_ReadFull | intro status].
  destruct (negb (Byte.eqb (nth 0 status x00) x01)); [apply hs_frame_fail|].
  apply hs_frame_bind; [intros st Hok; split; [exact Hok | apply io_only_refl]|].
  intro st. destruct (negb (bufio.Buffered (r st) =? 0));
    [apply hs_frame_fail | apply hs_frame_ret].
Qed.

Lemma io_only_extOrPortAuthenticate `{hmac.HMAC_SHA256} (info : ServerInfo)
    (s : net.TCPConn) (rnd : io.source) :
  net.io_only s (snd (fst (extOrPortAuthenticate s rnd info))).
Proof.
  unfold extOrPortAuthenticate.
  destruct (NewReader_ok s rnd) as (Hok & _ & Hsock).
  destruct (hs_frame_authenticate info _ Hok) as [_ Hio].
  destruct (authenticate info (mkHs (bufio.NewReader s) rnd)) as [res st].
  simpl in *. exact Hio.
Qed.

End Frames.

(** ** ConnectOr *)

Section Connector.
Import pt.
Context `{hmac.HMAC_SHA256}.

Lemma ConnectOr_extended (w : world) (info : ServerInfo)
    (remoteAddr methodName : bytes) (a : TCPAddr) (s : net.TCPConn) :
  ExtendedOrAddr info = Some a -> DialTCP w (Some a) = Ok s ->
  ConnectOr w info remoteAddr methodName
  = let s1 := net.SetDeadline (Some (Now w + 5 * Second)%Z) s in
    let auth := extOrPortAuthenticate s1 (rnd w) info in
    match fst (fst auth) with
    | Some e => mkOutcome None (Some e) (Some (net.Close (snd (fst auth)))) (snd auth)
    | None =>
        let setup := extOrPortSetup remoteAddr methodName (snd (fst auth)) in
        match error_of (fst setup) with
        | Some e => mkOutcome None (Some e) (Some (net.Close (snd setup))) (snd auth)
        | None => mkOutcome (Some (net.SetDeadline None (snd setup))) None
                            (Some (net.SetDeadline None (snd setup))) (snd auth)
        end
    end.
Proof.
  intros Hext Hdial. unfold ConnectOr. rewrite Hext, Hdial. cbv zeta.
  destruct (extOrPortAuthenticate
              (net.SetDeadline (Some (Now w + 5 * Second)%Z) s) (rnd w) info)
    as [[[e|] s2] g]; cbn [fst snd]; [reflexivity|].
  destruct (extOrPortSetup remoteAddr methodName s2) as [res s3]. cbn [fst snd].
  destruct (error_of res); reflexivity.
Qed.

(** C7.  Without an extended OR port address ConnectOr dials the OR port
    address and returns what DialTCP returned, with no call made on the
    connection.  With one it dials the extended OR port address; a failed
    dial is returned as it is.  On the dialled connection the first call
    sets the deadline to five seconds from now, then come the Read and
    Write calls of the handshake and of the setup and no other call, so
    that this deadline is the connection's deadline throughout both, and
    the last call is either Close, when the handshake or the setup
    returned an error, which ConnectOr returns with a nil connection, or
    SetDeadline with the zero time, when both succeeded and the
    connection is returned open. *)
Theorem ConnectOr_contract (w : world) (info : ServerInfo)
    (remoteAddr methodName : bytes) :
  (ExtendedOrAddr info = None ->
     (forall s, DialTCP w (OrAddr info) = Ok s ->
        ConnectOr w info remoteAddr methodName
        = mkOutcome (Some s) None (Some s) (rnd w)) /\
     (forall e, DialTCP w (OrAddr info) = Err e ->
        ConnectOr w info remoteAddr methodName
        = mkOutcome None (Some e) None (rnd w))) /\
  (forall a, ExtendedOrAddr info = Some a ->
     (forall e, DialTCP w (Some a) = Err e ->
        ConnectOr w info remoteAddr methodName
        = mkOutcome None (Some e) None (rnd w)) /\
     (forall s, DialTCP w (Some a) = Ok s ->
        let o := ConnectOr w info remoteAddr methodName in
        let d := Some (Now w + 5000000000)%Z in
        let auth := extOrPortAuthenticate (net.SetDeadline d s) (rnd w) info in
        let setup := extOrPortSetup remoteAddr methodName (snd (fst auth)) in
        exists s' calls last,
          dialled o = Some s' /\
          net.log s' = net.log s ++ net.CallSetDeadline d :: calls ++ [last] /\
          forallb net.is_io calls = true /\
          (net.deadline (snd (fst auth)) = d /\ net.deadline (snd setup) = d) /\
          match fst (fst auth) with
          | Some e =>
              ret_err o = Some e /\ ret_conn o = None /\
              last = net.CallClose /\ net.closed s' = true
          | None =>
              match error_of (fst setup) with
              | Some e =>
                  ret_err o = Some e /\ ret_conn o = None /\
                  last = net.CallClose /\ net.closed s' = true
              | None =>
                  ret_err o = None /\ ret_conn o = Some s' /\
                  last = net.CallSetDeadline None /\
                  net.deadline s' = None /\ net.closed s' = net.closed s
              end
          end)).
Proof.
  split.
  - intro Hext. unfold ConnectOr. rewrite Hext.
    split; intros x Hd; rewrite Hd; reflexivity.
  - intros a Hext. split.
    + intros e Hd. unfold ConnectOr. rewrite Hext, Hd. reflexivity.
    + intros s Hd o d auth setup.
      pose proof (ConnectOr_extended w info remoteAddr methodName a s Hext Hd) as HC.
      change (Some (Now w + 5 * Second)%Z) with d in HC. cbv zeta in HC.
      fold auth in HC. fold setup in HC. fold o in HC.
      pose proof (io_only_extOrPortAuthenticate info (net.SetDeadline d s) (rnd w))
        as (Hd1 & Hc1 & l1 & Hl1 & Hio1).
      fold auth in Hd1, Hc1, Hl1.
      pose proof (conn_frame_Setup remoteAddr methodName (snd (fst auth)))
        as (Hd2 & Hc2 & l2 & Hl2 & Hio2).
      fold setup in Hd2, Hc2, Hl2.
      assert (Hdl : net.deadline (snd (fst auth)) = d /\
                    net.deadline (snd setup) = d)
        by (split; [exact Hd1 | rewrite Hd2; exact Hd1]).
      destruct (fst (fst auth)) as [e|].
      * exists (net.Close (snd (fst auth))), l1, net.CallClose.
        rewrite HC. cbn [dialled ret_err ret_conn].
        split; [reflexivity|].
        split; [|split; [exact Hio1|split; [exact Hdl|auto]]].
        cbn [net.Close net.log]. rewrite Hl1. cbn [net.SetDeadline net.log].
        rewrite <- !app_assoc. reflexivity.
      * destruct (error_of (fst setup)) as [e|].
        -- exists (net.Close (snd setup)), (l1 ++ l2), net.CallClose.
           rewrite HC. cbn [dialled ret_err ret_conn].
           split; [reflexivity|]. split; [|split; [|split; [exact Hdl|auto]]].
           ++ cbn [net.Close net.log]. rewrite Hl2, Hl1.
              cbn [net.SetDeadline net.log]. rewrite <- !app_assoc. reflexivity.
           ++ rewrite forallb_app, Hio1, Hio2. reflexivity.
        -- exists (net.SetDeadline None (snd setup)), (l1 ++ l2),
             (net.CallSetDeadline None).
           rewrite HC. cbn [dialled ret_err ret_conn].
           split; [reflexivity|]. split; [|split; [|split; [exact Hdl|]]].
           ++ cbn [net.SetDeadline net.log]. rewrite Hl2, Hl1.
              cbn [net.SetDeadline net.log]. rewrite <- !app_assoc. reflexivity.
           ++ rewrite forallb_app, Hio1, Hio2. reflexivity.
           ++ repeat split. cbn [net.SetDeadline net.closed].
              rewrite Hc2, Hc1. reflexivity.
Qed.

End Connector.

(** ** Where the errors come from *)

Section ErrorOrigins.
Import pt.

Lemma short_read_cases (got : bytes) (e : error) :
  io.short_read got e = e \/ io.short_read got e = io_ErrUnexpectedEOF.
Proof.
  destruct e; simpl; auto. destruct got; auto.
Qed.

Lemma errs_ret {St A} (I : St -> Prop) (P : error -> Prop) (a : A) :
  errs I P (ret a).
Proof.
  intros s Hs. split; [exact Hs|]. intros e He. discriminate He.
Qed.

Lemma errs_fail {St A} (I : St -> Prop) (P : error -> Prop) (e : error) :
  P e -> errs I P (@fail St A e).
Proof.
  intros He s Hs. split; [exact Hs|]. intros e' E. injection E as <-. exact He.
Qed.

Lemma errs_get {St} (I : St -> Prop) (P : error -> Prop) : errs I P get.
Proof.
  intros s Hs. split; [exact Hs|]. intros e He. discriminate He.
Qed.

Lemma errs_bind {St A B} (I : St -> Prop) (P : error -> Prop)
    (m : M St A) (k : A -> M St B) :
  errs I P m -> (forall a, errs I P (k a)) -> errs I P (bind m k).
Proof.
  intros Hm Hk s Hs. unfold bind. destruct (Hm s Hs) as [HI HP].
  destruct (m s) as [[a|e] s1]; simpl in *.
  - exact (Hk a s1 HI).
  - split; [exact HI|]. intros e' E. apply HP. injection E as <-. reflexivity.
Qed.

Lemma own_error (s : net.TCPConn) (rnd : io.source) (msg : bytes) :
  own_or_transport s rnd (errors_New msg).
Proof.
  left. exists msg. reflexivity.
Qed.

Variables (s0 : net.TCPConn) (rnd0 : io.source).

Lemma reads_step_env (st st' : hs) :
  same_env s0 rnd0 st -> reads_step st st' -> same_env s0 rnd0 st'.
Proof.
  intros (_ & (Hf & Hincl) & Hg) (Hok' & (W & _) & G & F).
  split; [exact Hok'|]. split; [split|]; try congruence.
  rewrite W. exact Hincl.
Qed.

Lemma errs_conn_Write (p : bytes) :
  errs (same_conn s0) (own_or_transport s0 rnd0) (try (net.Write p)).
Proof.
  intros c (Hf & Hincl). unfold try, net.Write.
  destruct (net.wres c) as [|[[k e]|] rest] eqn:E; simpl.
  - split; [split; [exact Hf | intros x []] | discriminate].
  - split.
    + split; [exact Hf|]. intros x Hx. apply Hincl. now right.
    + intros e' E'. injection E' as <-. right. do 3 right.
      exists k. apply Hincl. now left.
  - split; [|discriminate].
    split; [exact Hf|]. intros x Hx. apply Hincl. now right.
Qed.

Lemma errs_conn_ReadFull (p : bytes) :
  errs (same_conn s0) (own_or_transport s0 rnd0) (try (fun c => io.ReadFull c p)).
Proof.
  intros c (Hf & Hincl). unfold try.
  destruct (Nat.le_gt_cases (length p) (length (io.pending (net.inp c))))
    as [Hen|Hsh].
  - destruct (conn_ReadFull_enough c p Hen) as (c' & HR & _ & Hf' & (W & _)).
    rewrite HR. simpl. split; [|discriminate].
    split; [congruence | rewrite W; exact Hincl].
  - destruct (@ReadFull_short _ _ TCPConn_Stream c p I Hsh)
      as (c' & HR & _ & Hf' & _ & (W & _)).
    rewrite HR. simpl in *. split.
    + split; [congruence | rewrite W; exact Hincl].
    + intros e E. injection E as <-. right.
      destruct (short_read_cases (io.pending (net.inp c)) (io.final (net.inp c)))
        as [-> | ->]; [left; exact Hf | right; right; left; reflexivity].
Qed.

Lemma errs_WriteCommand (cmd : N) (body : bytes) :
  errs (same_conn s0) (own_or_transport s0 rnd0) (extOrPortWriteCommand cmd body).
Proof.
  unfold extOrPortWriteCommand.
  destruct (65535 <? N.of_nat (length body))%N;
    [apply errs_fail, own_error|].
  apply errs_bind; [apply errs_conn_Write | intro; apply errs_ret].
Qed.

Lemma errs_RecvCommand :
  errs (same_conn s0) (own_or_transport s0 rnd0) extOrPortRecvCommand.
Proof.
  unfold extOrPortRecvCommand.
  apply errs_bind; [apply errs_conn_ReadFull | intro data].
  apply errs_bind; [apply errs_conn_ReadFull | intro; apply errs_ret].
Qed.

(** Every error of extOrPortSetup is an errors.New value of the package
    or an error of the transport. *)
Lemma errs_Setup (remoteAddr methodName : bytes) :
  errs (same_conn s0) (own_or_transport s0 rnd0)
       (extOrPortSetup remoteAddr methodName).
Proof.
  unfold extOrPortSetup, extOrPortSendUserAddr, extOrPortSendTransport,
    extOrPortSendDone.
  repeat (apply errs_bind; [apply errs_WriteCommand | intros _]).
  apply errs_bind; [apply errs_RecvCommand|].
  intros [cmd body]. destruct (cmd =? extOrCmdDeny)%N;
    [apply errs_fail, own_error|].
  destruct (negb (cmd =? extOrCmdOkay)%N);
    [apply errs_fail, own_error | apply errs_ret].
Qed.

Lemma errs_s_Write (p : bytes) :
  errs (same_env s0 rnd0) (own_or_transport s0 rnd0) (try (s_Write p)).
Proof.
  intros st (Hok & Hc & Hg).
  destruct (errs_conn_Write p (sock st) Hc) as [HI HP].
  unfold try, s_Write in *. fold (sock st).
  destruct (net.Write p (sock st)) as [[n [e|]] c']; simpl in *.
  - split; [|exact HP]. repeat split; auto; apply HI.
  - split; [|discriminate]. repeat split; auto; apply HI.
Qed.

Lemma errs_r_ReadByte :
  errs (same_env s0 rnd0) (own_or_transport s0 rnd0) (try r_ReadByte).
Proof.
  intros st Henv. pose proof Henv as (Hok & (Hf & _) & _). unfold try.
  destruct (stream st) as [|c rest] eqn:Hs.
  - destruct (r_ReadByte_end st Hok Hs) as (st' & HR & _ & Hstep).
    rewrite HR. simpl. split; [exact (reads_step_env _ _ Henv Hstep)|].
    intros e E. injection E as <-. right. left. exact Hf.
  - destruct (r_ReadByte_data st c rest Hok Hs) as (st' & HR & _ & Hstep).
    rewrite HR. simpl. split; [exact (reads_step_env _ _ Henv Hstep)|].
    discriminate.
Qed.

Lemma errs_r_ReadFull (p : bytes) :
  errs (same_env s0 rnd0) (own_or_transport s0 rnd0) (try (r_ReadFull p)).
Proof.
  intros st Henv. pose proof Henv as (Hok & (Hf & _) & _). unfold try.
  destruct (Nat.le_gt_cases (length p) (length (stream st))) as [Hen|Hsh].
  - destruct (r_ReadFull_enough st p Hok Hen) as (st' & HR & _ & Hstep).
    rewrite HR. simpl. split; [exact (reads_step_env _ _ Henv Hstep)|].
    discriminate.
  - destruct (r_ReadFull_short st p Hok Hsh) as (st' & HR & _ & Hstep).
    rewrite HR. simpl. split; [exact (reads_step_env _ _ Henv Hstep)|].
    intros e E. injection E as <-. right.
    destruct (short_read_cases (stream st) (io.final (net.inp (sock st))))
      as [-> | ->]; [left; exact Hf | right; right; left; reflexivity].
Qed.

Lemma errs_rand_ReadFull (p : bytes) :
  errs (same_env s0 rnd0) (own_or_transport s0 rnd0) (try (rand_ReadFull p)).
Proof.
  intros st (Hok & Hc & Hg). unfold try, rand_ReadFull.
  destruct (Nat.le_gt_cases (length p) (length (io.pending (rand_Reader st))))
    as [Hen|Hsh].
  - destruct (source_ReadFull_enough (rand_Reader st) p Hen) as (g' & HR & _ & Hf').
    rewrite HR. simpl. split; [|discriminate].
    repeat split; auto; try apply Hc. simpl. congruence.
  - destruct (@ReadFull_short _ _ source_Stream (rand_Reader st) p I Hsh)
      as (g' & HR & _ & Hf' & _).
    rewrite HR. simpl in *. split.
    + repeat split; auto; try apply Hc. simpl. congruence.
    + intros e E. injection E as <-. right.
      destruct (short_read_cases (io.pending (rand_Reader st))
                  (io.final (rand_Reader st)))
        as [-> | ->]; [right; left; exact Hg | right; right; left; reflexivity].
Qed.

Lemma errs_authTypes_loop (n : nat) :
  forall count authTypes,
    errs (same_env s0 rnd0) (own_or_transport s0 rnd0)
         (authTypes_loop n count authTypes).
Proof.
  induction n as [|n IH]; intros count authTypes; simpl.
  - apply errs_ret.
  - apply errs_bind; [apply errs_r_ReadByte|].
    intro b. destruct (Byte.eqb b x00); [apply errs_ret | apply IH].
Qed.

(** Every error of the handshake is an errors.New value of the package or
    an error of the transport or of rand.Reader. *)
Lemma errs_authenticate `{hmac.HMAC_SHA256} (info : ServerInfo) :
  errs (same_env s0 rnd0) (own_or_transport s0 rnd0) (authenticate info).
Proof.
  unfold authenticate.
  apply errs_bind; [apply errs_authTypes_loop|].
  intros [count authTypes].
  destruct (256 <=? count); [apply errs_fail, own_error|].
  destruct (negb (authTypes x01)); [apply errs_fail, own_error|].
  apply errs_bind; [apply errs_s_Write | intros _].
  apply errs_bind; [apply errs_rand_ReadFull | intro clientNonce].
  apply errs_bind; [apply errs_s_Write | intros _].
  apply errs_bind; [apply errs_r_ReadFull | intro serverHash].
  apply errs_bind; [apply errs_r_ReadFull | intro serverNonce].
  cbv zeta.
  destruct (negb (subtle.ConstantTimeCompare serverHash
                    (computeServerHash info clientNonce serverNonce) =? 1)%Z);
    [apply errs_fail, own_error|].
  apply errs_bind; [apply errs_s_Write | intros _].
  apply errs_bind; [apply errs_r_ReadFull | intro status].
  destruct (negb (Byte.eqb (nth 0 status x00) x01));
    [apply errs_fail, own_error|].
  apply errs_bind; [apply errs_get|].
  intro st. destruct (negb (bufio.Buffered (r st) =? 0));
    [apply errs_fail, own_error | apply errs_ret].
Qed.

End ErrorOrigins.

Lemma extOrPortAuthenticate_errors `{hmac.HMAC_SHA256} (info : pt.ServerInfo)
    (s : net.TCPConn) (rnd : io.source) :
  pt.same_conn s (snd (fst (pt.extOrPortAuthenticate s rnd info))) /\
  forall e, fst (fst (pt.extOrPortAuthenticate s rnd info)) = Some e ->
            pt.own_or_transport s rnd e.
Proof.
  unfold pt.extOrPortAuthenticate.
  assert (Henv : pt.same_env s rnd (pt.mkHs (bufio.NewReader s) rnd)).
  { split; [reflexivity|]. split; [|reflexivity].
    split; [reflexivity | apply incl_refl]. }
  destruct (errs_authenticate s rnd info _ Henv) as [(_ & Hc & _) HP].
  destruct (pt.authenticate info (pt.mkHs (bufio.NewReader s) rnd)) as [res st].
  simpl in *. split; [exact Hc|].
  intros e He. apply HP. destruct res; simpl in He; congruence.
Qed.

(** ** Error values *)

Section Errors.
Import pt.
Context `{hmac.HMAC_SHA256}.

Lemma authTypes_loop_silent (n count : nat) (authTypes : byte -> bool) (st : hs) :
  hs_ok st -> stream st = [] ->
  exists st',
    authTypes_loop (S n) count authTypes st
    = (Err (io.final (net.inp (sock st))), st').
Proof.
  intros Hok Hs. destruct (r_ReadByte_end st Hok Hs) as (st' & HR & _).
  exists st'. simpl. unfold bind, try. rewrite HR. reflexivity.
Qed.

(** When nothing arrives, the handshake returns the error of the read. *)
Lemma authenticate_silent (info : ServerInfo) (st : hs) :
  hs_ok st -> stream st = [] ->
  exists st', authenticate info st = (Err (io.final (net.inp (sock st))), st').
Proof.
  intros Hok Hs.
  destruct (authTypes_loop_silent 255 0 (fun _ => false) st Hok Hs) as (st' & HL).
  exists st'. unfold authenticate. unfold bind at 1.
  change 256 with (S 255) at 1. rewrite HL. reflexivity.
Qed.

Lemma cookie_error_origin (content : bytes) (final e : error) :
  cookie_error content final = Some e ->
  own e \/ e = final \/ e = io_ErrUnexpectedEOF.
Proof.
  unfold cookie_error. intro E.
  destruct (length content <? 32).
  { assert (Ee : e = io.short_read content final) by congruence.
    destruct (short_read_cases content final) as [Hc|Hc];
      rewrite Hc in Ee; auto. }
  destruct (length content <? 64).
  { assert (Ee : e = io.short_read (skipn 32 content) final) by congruence.
    destruct (short_read_cases (skipn 32 content) final) as [Hc|Hc];
      rewrite Hc in Ee; auto. }
  assert (Hown : forall msg, Some (errors_New msg) = Some e -> own e).
  { intros msg Em. exists msg. congruence. }
  destruct (64 <? length content); [left; exact (Hown _ E)|].
  destruct (negb (is_EOF (Some final))); [left; exact (Hown _ E)|].
  destruct (negb (bytes_Equal (firstn 32 content) authCookieHeader));
    [left; exact (Hown _ E) | discriminate].
Qed.

(** C8 (as amended).  The functions return a Go error value.  Every error
    that ConnectOr returns after a successful dial is the error of the
    handshake or of the setup as ConnectOr received it, and is either an
    errors.New value made by the package or an error of the transport or
    of rand.Reader, passed on unchanged; the same holds for
    readAuthCookieFile and the file.  The failures that the package itself
    detects are all of one type, *errors.errorString, and differ in their
    message only: a peer that does not offer auth type 1 and a peer that
    sends 256 auth types give errors of the same type.  A timeout of the
    transport is a *net.OpError: when the peer sends nothing before the
    deadline, ConnectOr returns that error, and its type is the type of no
    error of the package, so the caller can tell it by its type.  The end
    of the input, io.EOF or io.ErrUnexpectedEOF, has the type of the
    package's own errors and is told from them by identity only. *)
Theorem errors_propagate_as_messages (w : world) (info : ServerInfo)
    (remoteAddr methodName : bytes) (a : TCPAddr) (s : net.TCPConn) :
  ExtendedOrAddr info = Some a -> DialTCP w (Some a) = Ok s ->
  let o := ConnectOr w info remoteAddr methodName in
  let auth :=
    extOrPortAuthenticate (net.SetDeadline (Some (Now w + 5000000000)%Z) s)
      (rnd w) info in
  (forall e, fst (fst auth) = Some e -> ret_err o = Some e) /\
  (fst (fst auth) = None ->
   ret_err o
   = error_of (fst (extOrPortSetup remoteAddr methodName (snd (fst auth))))) /\
  (forall e, ret_err o = Some e ->
     (exists msg, e = errors_New msg) \/ transport_error s (rnd w) e) /\
  (io.pending (net.inp s) = [] -> ret_err o = Some (io.final (net.inp s))) /\
  (forall types rest,
     io.pending (net.inp s) = types ++ x00 :: rest ->
     Forall (fun b => b <> x00) types -> length types < 256 -> ~ In x01 types ->
     ret_err o = Some (errors_New (str "server didn't offer auth type 1"))) /\
  (forall types rest,
     io.pending (net.inp s) = types ++ rest ->
     Forall (fun b => b <> x00) types -> length types = 256 ->
     ret_err o = Some (errors_New (str "read 256 auth types without seeing \x00"))) /\
  (forall msg1 msg2, type_of (errors_New msg1) = type_of (errors_New msg2)) /\
  (forall open filename e,
     snd (readAuthCookieFile open filename) = Some e ->
     (exists msg, e = errors_New msg) \/ open filename = Err e \/
     exists f, open filename = Ok f /\
               (e = io.final f \/ e = io_ErrUnexpectedEOF)) /\
  (forall timeout m,
     io.pending (net.inp s) = [] ->
     io.final (net.inp s) = net_OpError timeout m ->
     ret_err o = Some (net_OpError timeout m) /\
     type_of (net_OpError timeout m) = T_net_OpError /\
     forall msg, type_of (net_OpError timeout m) <> type_of (errors_New msg)) /\
  (forall e, ret_err o = Some e -> type_of e <> T_errorString ->
     transport_error s (rnd w) e /\ forall msg, e <> errors_New msg) /\
  (forall msg,
     type_of io_EOF = type_of (errors_New msg) /\
     type_of io_ErrUnexpectedEOF = type_of (errors_New msg) /\
     io_EOF <> errors_New msg /\ io_ErrUnexpectedEOF <> errors_New msg).
Proof.
  intros Hext Hd o auth.
  pose proof (ConnectOr_extended w info remoteAddr methodName a s Hext Hd) as HC.
  change (Some (Now w + 5 * Second)%Z) with (Some (Now w + 5000000000)%Z) in HC.
  cbv zeta in HC. fold auth in HC. fold o in HC.
  assert (Hfail : forall e, fst (fst auth) = Some e -> ret_err o = Some e).
  { intros e He. rewrite HC, He. reflexivity. }
  assert (Hnone : fst (fst auth) = None ->
            ret_err o
            = error_of (fst (extOrPortSetup remoteAddr methodName (snd (fst auth))))).
  { intro Hn. rewrite HC, Hn.
    destruct (error_of (fst (extOrPortSetup remoteAddr methodName (snd (fst auth)))));
      reflexivity. }
  assert (Hrun : forall e st',
            authenticate info
              (mkHs (bufio.NewReader
                       (net.SetDeadline (Some (Now w + 5000000000)%Z) s)) (rnd w))
            = (Err e, st') ->
            ret_err o = Some e).
  { intros e st' HA. apply Hfail. unfold auth, extOrPortAuthenticate.
    rewrite HA. reflexivity. }
  destruct (NewReader_ok (net.SetDeadline (Some (Now w + 5000000000)%Z) s) (rnd w))
    as (Hok & Hs & Hsock).
  change (io.pending (net.inp (net.SetDeadline (Some (Now w + 5000000000)%Z) s)))
    with (io.pending (net.inp s)) in Hs.
  assert (Horigin : forall e, ret_err o = Some e ->
            own e \/ transport_error s (rnd w) e).
  { intros e He.
    destruct (extOrPortAuthenticate_errors info
                (net.SetDeadline (Some (Now w + 5000000000)%Z) s) (rnd w))
      as [Hsame Horigin].
    fold auth in Hsame, Horigin.
    destruct (fst (fst auth)) as [e0|] eqn:Ea.
    + rewrite (Hfail e0 eq_refl) in He. injection He as <-.
      exact (Horigin e0 eq_refl).
    + rewrite (Hnone eq_refl) in He.
      destruct (errs_Setup (net.SetDeadline (Some (Now w + 5000000000)%Z) s)
                  (rnd w) remoteAddr methodName (snd (fst auth)) Hsame)
        as [_ HP].
      apply HP.
      destruct (fst (extOrPortSetup remoteAddr methodName (snd (fst auth))));
        simpl in He; congruence. }
  assert (Hsilent : io.pending (net.inp s) = [] ->
            ret_err o = Some (io.final (net.inp s))).
  { intro Hp. rewrite Hp in Hs.
    destruct (authenticate_silent info _ Hok Hs) as (st' & HA).
    rewrite Hsock in HA. exact (Hrun _ _ HA). }
  split; [exact Hfail|]. split; [exact Hnone|].
  split; [exact Horigin|]. split; [exact Hsilent|].
  split; [|split; [|split; [|split; [|split; [|split]]]]].
  - intros types rest Hp Hnz Hlen Hno. rewrite Hp in Hs.
    destruct (authenticate_not_offered info _ types rest Hok Hs Hnz Hlen Hno)
      as (st' & HA & _).
    exact (Hrun _ _ HA).
  - intros types rest Hp Hnz Hlen. rewrite Hp in Hs.
    destruct (authenticate_too_many info _ types rest Hok Hs Hnz Hlen)
      as (st' & HA & _).
    exact (Hrun _ _ HA).
  - reflexivity.
  - intros open filename e He.
    destruct (open filename) as [f|e0] eqn:Eo.
    + rewrite (readAuthCookieFile_cases open filename f Eo) in He. simpl in He.
      destruct (cookie_error_origin _ _ _ He) as [Ht|Hf]; [now left|].
      right. right. exists f. auto.
    + unfold readAuthCookieFile in He. rewrite Eo in He. simpl in He.
      right. left. congruence.
  - intros timeout m Hp Hf. rewrite <- Hf.
    split; [exact (Hsilent Hp)|]. rewrite Hf.
    split; [reflexivity|]. intros msg. discriminate.
  - intros e He Ht. destruct (Horigin e He) as [[msg ->]|Htr].
    + elim Ht. reflexivity.
    + split; [exact Htr|]. intros msg ->. elim Ht. reflexivity.
  - intro msg. repeat split; discriminate.
Qed.

End Errors.

(** C8 as stated fails: the error for a peer that does not offer auth type 1
    (a rejection) and the error for 256 auth types without a zero byte (a
    protocol violation) are both errors.New values, so nothing in the type
    of the returned value tells the two kinds apart. *)
Lemma error_kinds_not_distinguished :
  sample.reject_error = Some (errors_New (str "server didn't offer auth type 1")) /\
  sample.violation_error
  = Some (errors_New (str "read 256 auth types without seeing \x00")) /\
  ~ exists kind_of : error_type -> spec.kind,
      option_map (fun e => kind_of (type_of e)) sample.reject_error
      = Some spec.AuthRejected /\
      option_map (fun e => kind_of (type_of e)) sample.violation_error
      = Some spec.ProtocolViolation.
Proof.
  assert (E1 : sample.reject_error
               = Some (errors_New (str "server didn't offer auth type 1")))
    by (vm_compute; reflexivity).
  assert (E2 : sample.violation_error
               = Some (errors_New (str "read 256 auth types without seeing \x00")))
    by (vm_compute; reflexivity).
  split; [exact E1|]. split; [exact E2|].
  intros (kind_of & H1 & H2). rewrite E1 in H1. rewrite E2 in H2.
  simpl in H1, H2. congruence.
Qed.

(** ** The theorems at sample inputs *)

Lemma nonzero_repeat (b : byte) (n : nat) :
  b <> x00 -> Forall (fun x => x <> x00) (repeat b n).
Proof.
  intro Hb. apply Forall_forall. intros x Hx.
  apply repeat_spec in Hx. now subst.
Qed.

Lemma auth_types_limit_witness :
  exists st',
    @pt.authenticate sample.toy_hmac sample.info
      (pt.mkHs (bufio.NewReader (sample.conn [repeat x02 256; [x00]]))
               sample.rand_Reader)
    = (Err (errors_New (str "read 256 auth types without seeing \x00")), st') /\
    pt.stream st' = [x00] /\
    @pt.extOrPortAuthenticate sample.toy_hmac
      (sample.conn [repeat x02 256; [x00]]) sample.rand_Reader sample.info
    = (Some (errors_New (str "read 256 auth types without seeing \x00")),
       pt.sock st', sample.rand_Reader) /\
    net.reads_only (sample.conn [repeat x02 256; [x00]]) (pt.sock st') /\
    net.written (net.log (pt.sock st'))
    = net.written (net.log (sample.conn [repeat x02 256; [x00]])) /\
    errors_New (str "read 256 auth types without seeing \x00")
      <> errors_New (str "server didn't offer auth type 1").
Proof.
  apply (@auth_types_limit sample.toy_hmac sample.info
           (sample.conn [repeat x02 256; [x00]]) sample.rand_Reader
           (repeat x02 256) [x00]).
  - vm_compute. reflexivity.
  - apply nonzero_repeat. discriminate.
  - apply repeat_length.
Defined.

Lemma no_safe_cookie_no_nonce_witness :
  exists e s',
    @pt.extOrPortAuthenticate sample.toy_hmac (sample.conn [[x02; x00]])
      sample.rand_Reader sample.info
    = (Some e, s', sample.rand_Reader) /\
    net.reads_only (sample.conn [[x02; x00]]) s' /\
    net.written (net.log s') = net.written (net.log (sample.conn [[x02; x00]])) /\
    net.non_reads (net.log s')
    = net.non_reads (net.log (sample.conn [[x02; x00]])) /\
    (length [x02] < 256 ->
     e = errors_New (str "server didn't offer auth type 1")).
Proof.
  apply (@no_safe_cookie_no_nonce sample.toy_hmac sample.info
           (sample.conn [[x02; x00]]) sample.rand_Reader [x02] []).
  - reflexivity.
  - repeat constructor. discriminate.
  - simpl. intros [E|[]]. discriminate E.
Defined.

Lemma server_hash_mismatch_rejected_witness :
  exists s' rnd',
    @pt.extOrPortAuthenticate sample.toy_hmac (sample.conn sample.bad_peer)
      sample.rand_Reader sample.info
    = (Some (errors_New (str "mismatch in server hash")), s', rnd') /\
    net.non_reads (net.log s')
    = net.non_reads (net.log (sample.conn sample.bad_peer))
      ++ [net.CallWrite [x01] 1 None;
          net.CallWrite (firstn 32 (io.pending sample.rand_Reader)) 32 None] /\
    net.written (net.log s')
    = net.written (net.log (sample.conn sample.bad_peer))
      ++ [x01] ++ firstn 32 (io.pending sample.rand_Reader).
Proof.
  apply (@server_hash_mismatch_rejected sample.toy_hmac sample.info
           (sample.conn sample.bad_peer) sample.rand_Reader
           [x02; x01] (repeat x00 32) sample.server_nonce []).
  - vm_compute. reflexivity.
  - repeat constructor; discriminate.
  - simpl. lia.
  - simpl. auto.
  - reflexivity.
  - reflexivity.
  - vm_compute. lia.
  - reflexivity.
  - vm_compute. discriminate.
Defined.

Lemma extOrPortSetup_sequence_witness :
  fst (pt.extOrPortSetup (str "192.0.2.7:4711") (str "obfs3") sample.okay_conn)
  = Ok tt.
Proof.
  destruct (extOrPortSetup_sequence (str "192.0.2.7:4711") (str "obfs3")
              sample.okay_conn 0x1000 [] [x2a])
    as (c' & reads & _ & _ & _ & _ & Hok & _).
  - vm_compute. discriminate.
  - vm_compute. discriminate.
  - reflexivity.
  - reflexivity.
  - vm_compute. discriminate.
  - reflexivity.
  - apply Hok. reflexivity.
Defined.

Lemma errors_propagate_as_messages_witness :
  pt.ret_err (@pt.ConnectOr sample.toy_hmac (sample.world sample.silent_conn)
                sample.info (str "192.0.2.7:4711") (str "obfs3"))
  = Some sample.timeout /\
  type_of sample.timeout = T_net_OpError /\
  forall msg, type_of sample.timeout <> type_of (errors_New msg).
Proof.
  destruct (@errors_propagate_as_messages sample.toy_hmac
              (sample.world sample.silent_conn) sample.info
              (str "192.0.2.7:4711") (str "obfs3") (str "127.0.0.1:9002")
              sample.silent_conn)
    as (_ & _ & _ & _ & _ & _ & _ & _ & Htimeout & _).
  - reflexivity.
  - reflexivity.
  - apply (Htimeout true (str "i/o timeout")); reflexivity.
Defined.

(** ConnectOr at the sample peers: a peer that holds the cookie and answers
    OKAY, the same peer answering DENY, and a configuration without an
    extended OR port. *)
Example ConnectOr_sample_okay :
  let o := @pt.ConnectOr sample.toy_hmac
             (sample.world (sample.conn (sample.peer sample.okay)))
             sample.info (str "192.0.2.7:4711") (str "obfs3") in
  pt.ret_err o = None /\
  option_map net.closed (pt.ret_conn o) = Some false /\
  option_map net.deadline (pt.ret_conn o) = Some None.
Proof.
  vm_compute. auto.
Qed.

Example ConnectOr_sample_deny :
  let o := @pt.ConnectOr sample.toy_hmac
             (sample.world (sample.conn (sample.peer sample.deny)))
             sample.info (str "192.0.2.7:4711") (str "obfs3") in
  pt.ret_err o
  = Some (errors_New (str "server returned DENY after our USERADDR and DONE")) /\
  pt.ret_conn o = None /\
  option_map net.closed (pt.dialled o) = Some true.
Proof.
  vm_compute. auto.
Qed.

Example ConnectOr_sample_direct :
  @pt.ConnectOr sample.toy_hmac (sample.world sample.silent_conn)
    sample.info_direct (str "192.0.2.7:4711") (str "obfs3")
  = pt.mkOutcome (Some sample.silent_conn) None (Some sample.silent_conn)
                 sample.rand_Reader.
Proof.
  reflexivity.
Qed.

(** * Further properties of the package *)

(** ** strings.Split and strings.Join *)

Section Strings.

Lemma Split_nonempty (s : bytes) (sep : byte) : strings.Split s sep <> [].
Proof.
  destruct s as [|c s]; simpl; [discriminate|].
  destruct (Byte.eqb c sep); [discriminate|].
  destruct (strings.Split s sep); discriminate.
Qed.

Lemma Split_cons_other (c : byte) (s : bytes) (sep : byte) :
  c <> sep ->
  exists piece pieces,
    strings.Split s sep = piece :: pieces /\
    strings.Split (c :: s) sep = (c :: piece) :: pieces.
Proof.
  intro Hc. simpl. apply byte_eqb_neq in Hc. rewrite Hc.
  destruct (strings.Split s sep) as [|piece pieces] eqn:E.
  - now apply Split_nonempty in E.
  - exists piece, pieces. auto.
Qed.

(** The pieces of a ++ sep ++ b are the pieces of a and then those of b. *)
Lemma Split_app (a b : bytes) (sep : byte) :
  strings.Split (a ++ sep :: b) sep = strings.Split a sep ++ strings.Split b sep.
Proof.
  induction a as [|c a IH].
  - simpl. now rewrite (proj2 (byte_eqb_eq sep sep) eq_refl).
  - change ((c :: a) ++ sep :: b) with (c :: (a ++ sep :: b)). simpl.
    destruct (Byte.eqb c sep); rewrite IH; [reflexivity|].
    destruct (strings.Split a sep) as [|piece pieces] eqn:E;
      [now apply Split_nonempty in E | reflexivity].
Qed.

Lemma Split_no_sep (s : bytes) (sep : byte) :
  ~ In sep s -> strings.Split s sep = [s].
Proof.
  induction s as [|c s IH]; intro Hn; [reflexivity|]. simpl.
  assert (Hc : c <> sep) by (intro E; apply Hn; now left).
  apply byte_eqb_neq in Hc. rewrite Hc, IH; [reflexivity|].
  intro Hin. apply Hn. now right.
Qed.

Lemma Split_pieces_no_sep (s : bytes) (sep : byte) :
  Forall (fun piece => ~ In sep piece) (strings.Split s sep).
Proof.
  induction s as [|c s IH]; simpl.
  - repeat constructor. intros [].
  - destruct (Byte.eqb c sep) eqn:Ec.
    + constructor; [intros []|exact IH].
    + apply byte_eqb_neq in Ec.
      destruct (strings.Split s sep) as [|piece pieces].
      * repeat constructor. intros [E|[]]. congruence.
      * inversion IH as [|? ? Hp Hps]; subst. constructor; [|exact Hps].
        intros [E|Hin]; [congruence | now apply Hp].
Qed.

Lemma Split_length (s : bytes) (sep : byte) :
  length (strings.Split s sep) = S (count_occ Byte.byte_eq_dec s sep).
Proof.
  induction s as [|c s IH]; [reflexivity|]. simpl.
  destruct (Byte.byte_eq_dec c sep) as [E|E].
  - apply byte_eqb_eq in E. rewrite E. simpl. now rewrite IH.
  - apply byte_eqb_neq in E. rewrite E.
    destruct (strings.Split s sep) as [|piece pieces]; simpl in *; [lia|exact IH].
Qed.

(** strings.Join puts back together what strings.Split took apart. *)
Lemma Join_Split (s : bytes) (sep : byte) :
  strings.Join (strings.Split s sep) sep = s.
Proof.
  induction s as [|c s IH]; [reflexivity|]. simpl.
  destruct (Byte.eqb c sep) eqn:Ec.
  - apply byte_eqb_eq in Ec. subst c.
    change (strings.Join ([] :: strings.Split s sep) sep)
      with (match strings.Split s sep with
            | [] => []
            | _ => [] ++ sep :: strings.Join (strings.Split s sep) sep
            end).
    destruct (strings.Split s sep) eqn:E; [now apply Split_nonempty in E|].
    rewrite IH. reflexivity.
  - destruct (strings.Split s sep) as [|piece pieces] eqn:E;
      [now apply Split_nonempty in E|].
    destruct pieces as [|p2 ps]; simpl in *; now rewrite <- IH.
Qed.

End Strings.

(** ** The environment: versions and transports *)

Section EnvLoops.
Import pt_env.

Lemma is_empty_nil (s : bytes) : is_empty s = true <-> s = [].
Proof.
  destruct s; simpl; split; congruence.
Qed.

Lemma bytes_Equal_refl (a : bytes) : pt.bytes_Equal a a = true.
Proof.
  now apply bytes_Equal_eq.
Qed.

Lemma bytes_Equal_false (a b : bytes) : pt.bytes_Equal a b = false <-> a <> b.
Proof.
  rewrite <- bytes_Equal_eq. destruct (pt.bytes_Equal a b); split; congruence.
Qed.

Lemma find_version_found (offers : list bytes) (out : bytes) :
  In (str "1") offers -> find_version offers out = (Done (str "1"), out).
Proof.
  induction offers as [|offered rest IH]; intro Hin; [destruct Hin|]. simpl.
  destruct (pt.bytes_Equal offered (str "1")) eqn:E.
  - apply bytes_Equal_eq in E. subst. reflexivity.
  - apply bytes_Equal_false in E. destruct Hin as [Hin|Hin]; [congruence|auto].
Qed.

Lemma find_version_none (offers : list bytes) (out : bytes) :
  ~ In (str "1") offers ->
  find_version offers out
  = (Failed (mkPtErr (str "VERSION-ERROR") [str "no-version"]),
     Line (str "VERSION-ERROR") [str "no-version"] out).
Proof.
  induction offers as [|offered rest IH]; intro Hn; [reflexivity|]. simpl.
  destruct (pt.bytes_Equal offered (str "1")) eqn:E.
  - apply bytes_Equal_eq in E. elim Hn. now left.
  - apply IH. intro Hin. apply Hn. now right.
Qed.

Lemma offered_in_In (name : bytes) (methodNames : list bytes) :
  offered_in name methodNames = true <-> In name methodNames.
Proof.
  induction methodNames as [|m rest IH]; simpl; [split; [discriminate|tauto]|].
  destruct (pt.bytes_Equal name m) eqn:E.
  - apply bytes_Equal_eq in E. subst. split; auto.
  - apply bytes_Equal_false in E. rewrite IH. split; [auto|].
    intros [Hm|Hin]; [congruence|exact Hin].
Qed.

Lemma first_equal_offered (requested : bytes) (methodNames : list bytes) :
  first_equal requested methodNames
  = if offered_in requested methodNames then Some requested else None.
Proof.
  induction methodNames as [|m rest IH]; simpl; [reflexivity|].
  destruct (pt.bytes_Equal requested m) eqn:E; [|exact IH].
  apply bytes_Equal_eq in E. now subst.
Qed.

Lemma requested_loop (methodNames requested : list bytes) :
  forall result,
    fold_left
      (fun result r =>
         match first_equal r methodNames with
         | Some methodName => result ++ [methodName]
         | None => result
         end) requested result
    = result ++ filter (fun r => offered_in r methodNames) requested.
Proof.
  induction requested as [|r rest IH]; intro result; simpl.
  - now rewrite app_nil_r.
  - rewrite IH, first_equal_offered.
    destruct (offered_in r methodNames); [now rewrite <- app_assoc | reflexivity].
Qed.

End EnvLoops.

Section EnvLookups.
Import pt_env.
Variable Getenv : bytes -> bytes.


Lemma getenvRequired_set (key : bytes) (out : bytes) :
  Getenv key <> [] -> getenvRequired Getenv key out = (Done (Getenv key), out).
Proof.
  intro Hv. unfold getenvRequired.
  destruct (Getenv key); [congruence | reflexivity].
Qed.

Lemma getenvRequired_unset (key : bytes) (out : bytes) :
  Getenv key = [] ->
  getenvRequired Getenv key out
  = (Failed (mkPtErr (str "ENV-ERROR")
               [str "no " ++ key ++ str " environment variable"]),
     Line (str "ENV-ERROR") [str "no " ++ key ++ str " environment variable"] out).
Proof.
  intro Hv. unfold getenvRequired. rewrite Hv. reflexivity.
Qed.

(** X1.  getManagedTransportVer returns "1" exactly when "1" is one of
    the comma-separated versions in TOR_PT_MANAGED_TRANSPORT_VER, and then
    prints nothing; for a variable that is empty or not set it prints and
    returns an ENV-ERROR, and for a list without "1" the VERSION-ERROR
    no-version. *)
Theorem getManagedTransportVer_cases (out : bytes) :
  let ver := Getenv (str "TOR_PT_MANAGED_TRANSPORT_VER") in
  (ver = [] ->
   getManagedTransportVer Getenv out
   = (Failed (mkPtErr (str "ENV-ERROR")
               [str "no TOR_PT_MANAGED_TRANSPORT_VER environment variable"]),
      out ++ str "ENV-ERROR no TOR_PT_MANAGED_TRANSPORT_VER environment variable"
          ++ [x0a])) /\
  (ver <> [] -> In (str "1") (strings.Split ver x2c) ->
   getManagedTransportVer Getenv out = (Done (str "1"), out)) /\
  (ver <> [] -> ~ In (str "1") (strings.Split ver x2c) ->
   getManagedTransportVer Getenv out
   = (Failed (mkPtErr (str "VERSION-ERROR") [str "no-version"]),
      out ++ str "VERSION-ERROR no-version" ++ [x0a])).
Proof.
  intro ver. unfold getManagedTransportVer, pbind. split; [|split].
  - intro Hv. rewrite (getenvRequired_unset _ out Hv). reflexivity.
  - intros Hv Hin. rewrite (getenvRequired_set _ out Hv).
    now apply find_version_found.
  - intros Hv Hn. rewrite (getenvRequired_set _ out Hv).
    now rewrite find_version_none.
Qed.

(** X2.  getClientTransports returns all of methodNames when
    TOR_PT_CLIENT_TRANSPORTS is "*"; otherwise it returns the names of
    that comma-separated list that are in methodNames, in the order and
    with the repetitions of the list, so every returned name is both
    requested and supported.  It prints nothing unless the variable is
    empty or not set, which is an ENV-ERROR. *)
Theorem getClientTransports_cases (methodNames : list bytes) (out : bytes) :
  let v := Getenv (str "TOR_PT_CLIENT_TRANSPORTS") in
  (v = [] ->
   getClientTransports Getenv methodNames out
   = (Failed (mkPtErr (str "ENV-ERROR")
               [str "no TOR_PT_CLIENT_TRANSPORTS environment variable"]),
      out ++ str "ENV-ERROR no TOR_PT_CLIENT_TRANSPORTS environment variable"
          ++ [x0a])) /\
  (v = str "*" -> getClientTransports Getenv methodNames out = (Done methodNames, out)) /\
  (v <> [] -> v <> str "*" ->
   exists names,
     getClientTransports Getenv methodNames out = (Done names, out) /\
     names = filter (fun r => offered_in r methodNames) (strings.Split v x2c) /\
     forall name, In name names <->
                  In name (strings.Split v x2c) /\ In name methodNames).
Proof.
  intro v. subst v. unfold getClientTransports, pbind. split; [|split].
  - intro Hv. rewrite (getenvRequired_unset _ out Hv). reflexivity.
  - intro Hv. rewrite getenvRequired_set by (rewrite Hv; discriminate).
    rewrite Hv. reflexivity.
  - intros Hv Hstar. rewrite (getenvRequired_set _ out Hv).
    apply bytes_Equal_false in Hstar. rewrite Hstar.
    eexists. split; [reflexivity|]. rewrite requested_loop. simpl app.
    split; [reflexivity|].
    intro name. rewrite filter_In, offered_in_In. tauto.
Qed.

End EnvLookups.

(** ** Listener addresses *)

Section BindAddrs.
Import pt_env.

Lemma filterBindAddrs_loop (methodNames : list bytes) (addrs : list BindAddr) :
  forall result,
    fold_left
      (fun result ba =>
         if offered_in (MethodName ba) methodNames then result ++ [ba] else result)
      addrs result
    = result ++ filter (fun ba => offered_in (MethodName ba) methodNames) addrs.
Proof.
  induction addrs as [|ba rest IH]; intro result; simpl.
  - now rewrite app_nil_r.
  - rewrite IH. destruct (offered_in (MethodName ba) methodNames);
      [now rewrite <- app_assoc | reflexivity].
Qed.

Lemma filterBindAddrs_filter (addrs : list BindAddr) (methodNames : list bytes) :
  filterBindAddrs addrs methodNames
  = filter (fun ba => offered_in (MethodName ba) methodNames) addrs.
Proof.
  unfold filterBindAddrs. now rewrite filterBindAddrs_loop.
Qed.

Lemma filter_filter {A} (f g : A -> bool) (l : list A) :
  filter g (filter f l) = filter (fun x => f x && g x) l.
Proof.
  induction l as [|x l IH]; [reflexivity|]. simpl.
  destruct (f x); simpl; [destruct (g x)|]; now rewrite IH.
Qed.

(** X3.  filterBindAddrs keeps exactly the bind addresses whose method
    name is in methodNames, in their order; filtering twice keeps those
    whose name is in both lists, whichever filter comes first, and
    filtering again by the same list changes nothing. *)
Theorem filterBindAddrs_keeps (addrs : list BindAddr) (m1 m2 : list bytes) :
  (forall ba, In ba (filterBindAddrs addrs m1) <->
              In ba addrs /\ In (MethodName ba) m1) /\
  filterBindAddrs addrs m1
  = filter (fun ba => offered_in (MethodName ba) m1) addrs /\
  filterBindAddrs (filterBindAddrs addrs m1) m2
  = filterBindAddrs (filterBindAddrs addrs m2) m1 /\
  filterBindAddrs (filterBindAddrs addrs m1) m1 = filterBindAddrs addrs m1.
Proof.
  split; [|split; [|split]].
  - intro ba. rewrite filterBindAddrs_filter, filter_In, offered_in_In. tauto.
  - apply filterBindAddrs_filter.
  - rewrite !filterBindAddrs_filter, !filter_filter.
    apply filter_ext. intro ba. apply andb_comm.
  - rewrite !filterBindAddrs_filter, filter_filter.
    apply filter_ext. intro ba. apply andb_diag.
Qed.

End BindAddrs.

Section Resolve.
Import pt_env.
Variable ResolveTCPAddr : bytes -> res pt.TCPAddr.

Lemma count_occ_pos_In (sep : byte) (s : bytes) :
  In sep s <-> 1 <= count_occ Byte.byte_eq_dec s sep.
Proof.
  rewrite (count_occ_In Byte.byte_eq_dec). lia.
Qed.

(** X4.  resolveBindAddr returns the address when it resolves as it is.
    When it does not, an address with at most one colon gives the error of
    that resolution, and an address with two or more colons is resolved
    once more with brackets put around everything before its last colon:
    host:port, where port has no colon, becomes [host]:port. *)
Theorem resolveBindAddr_brackets (bindAddr : bytes) :
  (forall a, ResolveTCPAddr bindAddr = Ok a ->
     resolveBindAddr ResolveTCPAddr bindAddr = Ok a) /\
  (forall e, ResolveTCPAddr bindAddr = Err e ->
     count_occ Byte.byte_eq_dec bindAddr x3a <= 1 ->
     resolveBindAddr ResolveTCPAddr bindAddr = Err e) /\
  (forall e host port,
     ResolveTCPAddr bindAddr = Err e ->
     bindAddr = host ++ x3a :: port -> In x3a host -> ~ In x3a port ->
     resolveBindAddr ResolveTCPAddr bindAddr
     = ResolveTCPAddr (str "[" ++ host ++ str "]:" ++ port)).
Proof.
  unfold resolveBindAddr. split; [|split].
  - intros a Ha. now rewrite Ha.
  - intros e He Hc. rewrite He, Split_length.
    replace (S (count_occ Byte.byte_eq_dec bindAddr x3a) <=? 2) with true
      by (symmetry; apply Nat.leb_le; lia).
    reflexivity.
  - intros e host port He -> Hh Hp. rewrite He.
    rewrite Split_app, (Split_no_sep port x3a Hp), length_app.
    pose proof (Split_length host x3a) as Hl.
    apply count_occ_pos_In in Hh. simpl length.
    replace (length (strings.Split host x3a) + 1 <=? 2) with false
      by (symmetry; apply Nat.leb_gt; lia).
    replace (length (strings.Split host x3a) + 1 - 1)
      with (length (strings.Split host x3a)) by lia.
    rewrite firstn_app_exact by reflexivity.
    rewrite Join_Split, app_nth2, Nat.sub_diag by lia.
    reflexivity.
Qed.

End Resolve.

Section ServerBindAddrs.
Import pt_env.
Variable Getenv : bytes -> bytes.
Variable ResolveTCPAddr : bytes -> res pt.TCPAddr.
Variable Quote : bytes -> bytes.

Lemma SplitN2_cut (name rest : bytes) (sep : byte) :
  ~ In sep name -> strings.SplitN2 (name ++ sep :: rest) sep = [name; rest].
Proof.
  induction name as [|c name IH]; intro Hn; simpl.
  - now rewrite (proj2 (byte_eqb_eq sep sep) eq_refl).
  - assert (Hc : c <> sep) by (intro E; apply Hn; now left).
    apply byte_eqb_neq in Hc. rewrite Hc, IH; [reflexivity|].
    intro Hin. apply Hn. now right.
Qed.

Lemma SplitN2_none (s : bytes) (sep : byte) :
  ~ In sep s -> strings.SplitN2 s sep = [s].
Proof.
  induction s as [|c s IH]; intro Hn; [reflexivity|]. simpl.
  assert (Hc : c <> sep) by (intro E; apply Hn; now left).
  apply byte_eqb_neq in Hc. rewrite Hc, IH; [reflexivity|].
  intro Hin. apply Hn. now right.
Qed.

Lemma parse_bindaddrs_ok (specs : list bytes) (parsed : list BindAddr) :
  Forall2 (spec_of ResolveTCPAddr) specs parsed ->
  forall result out,
    parse_bindaddrs ResolveTCPAddr Quote specs result out
    = (Done (result ++ parsed), out).
Proof.
  induction 1 as [|spec ba specs parsed (hostport & -> & Hn & Hr) _ IH];
    intros result out; simpl parse_bindaddrs.
  - unfold pret. now rewrite app_nil_r.
  - rewrite (SplitN2_cut _ hostport x2d Hn), Hr, IH.
    rewrite <- app_assoc. destruct ba; reflexivity.
Qed.

(** A spec that cannot be parsed stops the loop with an ENV-ERROR. *)
Lemma parse_bindaddrs_bad (good : list bytes) (parsed : list BindAddr)
    (bad : bytes) (rest : list bytes) (msg : bytes) :
  Forall2 (spec_of ResolveTCPAddr) good parsed ->
  (~ In x2d bad /\
   msg = str "TOR_PT_SERVER_BINDADDR: " ++ Quote bad
           ++ str ": doesn't contain " ++ [x22; x2d; x22]) \/
  (exists name hostport e,
     bad = name ++ x2d :: hostport /\ ~ In x2d name /\
     resolveBindAddr ResolveTCPAddr hostport = Err e /\
     msg = str "TOR_PT_SERVER_BINDADDR: " ++ Quote bad ++ str ": " ++ Error e) ->
  forall result out,
    parse_bindaddrs ResolveTCPAddr Quote (good ++ bad :: rest) result out
    = (Failed (mkPtErr (str "ENV-ERROR") [msg]),
       Line (str "ENV-ERROR") [msg] out).
Proof.
  induction 1 as [|spec ba specs parsed (hostport & -> & Hn & Hr) _ IH];
    intros Hbad result out.
  - simpl app. simpl parse_bindaddrs.
    destruct Hbad as [[Hn ->] | (name & hostport & e & -> & Hn & Hr & ->)].
    + rewrite (SplitN2_none bad x2d Hn). reflexivity.
    + rewrite (SplitN2_cut name hostport x2d Hn), Hr. reflexivity.
  - rewrite <- app_comm_cons. simpl parse_bindaddrs.
    rewrite (SplitN2_cut _ hostport x2d Hn), Hr. apply IH. exact Hbad.
Qed.

(** X5.  When every comma-separated spec of TOR_PT_SERVER_BINDADDR is a
    method name, a dash and an address that resolves, getServerBindAddrs
    returns, in the order of the specs, the bind addresses whose method is
    in methodNames and, unless TOR_PT_SERVER_TRANSPORTS is "*", also in
    that comma-separated list; it prints nothing.  An empty or unset
    TOR_PT_SERVER_TRANSPORTS is an ENV-ERROR. *)
Theorem getServerBindAddrs_filtered (methodNames : list bytes) (out : bytes)
    (parsed : list BindAddr) :
  let v := Getenv (str "TOR_PT_SERVER_BINDADDR") in
  let t := Getenv (str "TOR_PT_SERVER_TRANSPORTS") in
  v <> [] ->
  Forall2 (spec_of ResolveTCPAddr) (strings.Split v x2c) parsed ->
  (t = [] ->
   getServerBindAddrs Getenv ResolveTCPAddr Quote methodNames out
   = (Failed (mkPtErr (str "ENV-ERROR")
               [str "no TOR_PT_SERVER_TRANSPORTS environment variable"]),
      out ++ str "ENV-ERROR no TOR_PT_SERVER_TRANSPORTS environment variable"
          ++ [x0a])) /\
  (t = str "*" ->
   getServerBindAddrs Getenv ResolveTCPAddr Quote methodNames out
   = (Done (filter (fun ba => offered_in (MethodName ba) methodNames) parsed),
      out)) /\
  (t <> [] -> t <> str "*" ->
   getServerBindAddrs Getenv ResolveTCPAddr Quote methodNames out
   = (Done (filter (fun ba => offered_in (MethodName ba) (strings.Split t x2c)
                              && offered_in (MethodName ba) methodNames) parsed),
      out)).
Proof.
  intros v t Hv Hspecs. subst v t.
  split; [|split]; intros; unfold getServerBindAddrs;
    (unfold pbind at 1; rewrite (getenvRequired_set Getenv _ out Hv));
    (unfold pbind at 1; rewrite (parse_bindaddrs_ok _ _ Hspecs));
    rewrite app_nil_l; unfold pbind.
  - rewrite (getenvRequired_unset Getenv _ out H). reflexivity.
  - rewrite getenvRequired_set by (rewrite H; discriminate).
    rewrite H. simpl negb. cbv iota. unfold pret.
    now rewrite filterBindAddrs_filter.
  - rewrite (getenvRequired_set Getenv _ out H).
    apply bytes_Equal_false in H0. rewrite H0. simpl negb. cbv iota.
    unfold pret. now rewrite !filterBindAddrs_filter, filter_filter.
Qed.

(** X6.  getServerBindAddrs stops at the first spec of
    TOR_PT_SERVER_BINDADDR that has no dash or whose address does not
    resolve, even with brackets: it prints and returns an ENV-ERROR that
    quotes the spec, whatever methodNames and TOR_PT_SERVER_TRANSPORTS
    are, also when the method of that spec would have been filtered out. *)
Theorem getServerBindAddrs_bad_spec (methodNames : list bytes) (out : bytes)
    (good : list bytes) (parsed : list BindAddr) (bad : bytes) (rest : list bytes)
    (msg : bytes) :
  Getenv (str "TOR_PT_SERVER_BINDADDR") <> [] ->
  strings.Split (Getenv (str "TOR_PT_SERVER_BINDADDR")) x2c = good ++ bad :: rest ->
  Forall2 (spec_of ResolveTCPAddr) good parsed ->
  (~ In x2d bad /\
   msg = str "TOR_PT_SERVER_BINDADDR: " ++ Quote bad
           ++ str ": doesn't contain " ++ [x22; x2d; x22]) \/
  (exists name hostport e,
     bad = name ++ x2d :: hostport /\ ~ In x2d name /\
     resolveBindAddr ResolveTCPAddr hostport = Err e /\
     msg = str "TOR_PT_SERVER_BINDADDR: " ++ Quote bad ++ str ": " ++ Error e) ->
  getServerBindAddrs Getenv ResolveTCPAddr Quote methodNames out
  = (Failed (mkPtErr (str "ENV-ERROR") [msg]),
     out ++ str "ENV-ERROR " ++ pt_line.escape msg ++ [x0a]).
Proof.
  intros Hv Hsplit Hgood Hbad. unfold getServerBindAddrs.
  unfold pbind at 1. rewrite (getenvRequired_set Getenv _ out Hv).
  unfold pbind at 1. rewrite Hsplit.
  rewrite (parse_bindaddrs_bad good parsed bad rest msg Hgood Hbad).
  reflexivity.
Qed.

End ServerBindAddrs.

Section ServerBindAddrsExamples.
Import pt_line pt_env.

Lemma no_dash (name : bytes) :
  forallb (fun c => negb (Byte.eqb c x2d)) name = true -> ~ In x2d name.
Proof.
  intros Hn Hin. rewrite forallb_forall in Hn. specialize (Hn _ Hin).
  rewrite (proj2 (byte_eqb_eq x2d x2d) eq_refl) in Hn. discriminate.
Qed.

Lemma sample_spec_of (name hostport addr : bytes) :
  forallb (fun c => negb (Byte.eqb c x2d)) name = true ->
  resolveBindAddr sample_env.ResolveTCPAddr hostport = Ok addr ->
  spec_of sample_env.ResolveTCPAddr (name ++ x2d :: hostport)
          (mkBindAddr name addr).
Proof.
  intros Hn Hr. exists hostport. split; [reflexivity|]. split; [|exact Hr].
  cbn [MethodName]. now apply no_dash.
Qed.

Lemma sample_split :
  strings.Split (sample_env.Getenv (str "TOR_PT_SERVER_BINDADDR")) x2c
  = [str "obfs3" ++ x2d :: str "127.0.0.1:5001";
     str "dummy" ++ x2d :: str "::1:5002";
     str "scramble" ++ x2d :: str "127.0.0.1:5003"].
Proof.
  vm_compute. reflexivity.
Qed.

Lemma sample_specs :
  Forall2 (spec_of sample_env.ResolveTCPAddr)
    (strings.Split (sample_env.Getenv (str "TOR_PT_SERVER_BINDADDR")) x2c)
    sample_env.bindaddrs.
Proof.
  rewrite sample_split. unfold sample_env.bindaddrs.
  apply Forall2_cons; [|apply Forall2_cons; [|apply Forall2_cons;
                                               [|apply Forall2_nil]]].
  - apply (sample_spec_of (str "obfs3") (str "127.0.0.1:5001")
             (str "127.0.0.1:5001")); vm_compute; reflexivity.
  - apply (sample_spec_of (str "dummy") (str "::1:5002") (str "[::1]:5002"));
      vm_compute; reflexivity.
  - apply (sample_spec_of (str "scramble") (str "127.0.0.1:5003")
             (str "127.0.0.1:5003")); vm_compute; reflexivity.
Qed.

Lemma getServerBindAddrs_filtered_witness :
  getServerBindAddrs sample_env.Getenv sample_env.ResolveTCPAddr sample_env.Quote
    [str "obfs3"; str "scramble"] []
  = (Done [mkBindAddr (str "obfs3") (str "127.0.0.1:5001")], []).
Proof.
  apply (getServerBindAddrs_filtered sample_env.Getenv sample_env.ResolveTCPAddr
           sample_env.Quote [str "obfs3"; str "scramble"] []
           sample_env.bindaddrs).
  - vm_compute. discriminate.
  - exact sample_specs.
  - vm_compute. discriminate.
  - vm_compute. discriminate.
Defined.

Lemma getServerBindAddrs_bad_spec_witness :
  getServerBindAddrs sample_env.Getenv_bad sample_env.ResolveTCPAddr
    sample_env.Quote [str "obfs3"] []
  = (Failed (mkPtErr (str "ENV-ERROR")
               [str "TOR_PT_SERVER_BINDADDR: " ++ [x22] ++ str "dummy" ++ [x22]
                  ++ str ": doesn't contain " ++ [x22; x2d; x22]]),
     str "ENV-ERROR TOR_PT_SERVER_BINDADDR: " ++ [x22] ++ str "dummy" ++ [x22]
       ++ str ": doesn't contain " ++ [x22; x2d; x22; x0a]).
Proof.
  apply (getServerBindAddrs_bad_spec sample_env.Getenv_bad
           sample_env.ResolveTCPAddr sample_env.Quote [str "obfs3"] []
           [str "obfs3-127.0.0.1:5001"]
           [mkBindAddr (str "obfs3") (str "127.0.0.1:5001")]
           (str "dummy") []).
  - vm_compute. discriminate.
  - vm_compute. reflexivity.
  - apply Forall2_cons; [|apply Forall2_nil].
    apply (sample_spec_of (str "obfs3") (str "127.0.0.1:5001")
             (str "127.0.0.1:5001")); vm_compute; reflexivity.
  - left. split; [|reflexivity]. apply no_dash. vm_compute. reflexivity.
Defined.

End ServerBindAddrsExamples.

(** ** Status lines on standard output *)

Section StatusLines.
Import pt_line pt_env.

Lemma Line_one_line (keyword : bytes) (v : list bytes) (out : bytes) :
  Forall line_byte keyword -> one_line out (Line keyword v out).
Proof.
  intro Hk. exists (formatLine keyword v). split; [reflexivity|].
  rewrite formatLine_flat_map. apply Forall_app; split; [exact Hk|].
  apply Forall_flat_map. intros x _. apply Forall_app; split.
  - apply Forall_line_byteb; reflexivity.
  - apply escape_line.
Qed.

Lemma keyword_line (keyword : bytes) :
  forallb line_byteb keyword = true -> Forall line_byte keyword.
Proof.
  apply Forall_line_byteb.
Qed.

(** X7.  Each function that reports to the controlling process adds
    exactly one line to standard output, whatever its arguments hold:
    bytes in 1..127 with no newline among them, ended by a newline.  The
    error functions return the ptErr of the keyword and arguments they
    printed. *)
Theorem reports_add_one_line (methodName msg name socks addr out : bytes) :
  one_line out (snd (EnvError msg out)) /\
  one_line out (snd (VersionError msg out)) /\
  one_line out (snd (CmethodError methodName msg out)) /\
  one_line out (snd (SmethodError methodName msg out)) /\
  one_line out (Cmethod name socks addr out) /\
  one_line out (CmethodsDone out) /\
  one_line out (Smethod name addr out) /\
  one_line out (SmethodsDone out) /\
  fst (EnvError msg out) = mkPtErr (str "ENV-ERROR") [msg] /\
  fst (VersionError msg out) = mkPtErr (str "VERSION-ERROR") [msg] /\
  fst (CmethodError methodName msg out)
  = mkPtErr (str "CMETHOD-ERROR") [methodName; msg] /\
  fst (SmethodError methodName msg out)
  = mkPtErr (str "SMETHOD-ERROR") [methodName; msg] /\
  snd (CmethodError methodName msg out)
  = out ++ str "CMETHOD-ERROR " ++ escape methodName ++ str " " ++ escape msg
        ++ [x0a].
Proof.
  repeat split; try (apply Line_one_line; apply keyword_line; reflexivity).
  unfold CmethodError, doError, Line. cbn [snd].
  rewrite formatLine_flat_map. cbn [flat_map]. rewrite app_nil_r.
  rewrite <- !app_assoc. reflexivity.
Qed.

Lemma escape_app (a b : bytes) : escape (a ++ b) = escape a ++ escape b.
Proof.
  rewrite !escape_flat_map. apply flat_map_app.
Qed.

Lemma unescape_escape_byte (b : byte) (rest : bytes) :
  unescape (escape_byte b ++ rest) = option_map (cons b) (unescape rest).
Proof.
  destruct b; reflexivity.
Qed.

Lemma unescape_escape (s : bytes) : unescape (escape s) = Some s.
Proof.
  rewrite escape_flat_map. induction s as [|b s IH]; [reflexivity|].
  cbn [flat_map]. rewrite unescape_escape_byte, IH. reflexivity.
Qed.

(** X8.  escape loses nothing: the string can be read back from its
    escaped form, so two different strings never have the same escaped
    form; and the escaped form of a concatenation is the concatenation
    of the escaped forms. *)
Theorem escape_injective (s1 s2 : bytes) :
  unescape (escape s1) = Some s1 /\
  (escape s1 = escape s2 -> s1 = s2) /\
  escape (s1 ++ s2) = escape s1 ++ escape s2.
Proof.
  split; [apply unescape_escape|]. split; [|apply escape_app].
  intro E. pose proof (unescape_escape s1) as H1.
  rewrite E, unescape_escape in H1. congruence.
Qed.

(** X9.  escape leaves the space as it is, and formatLine separates the
    arguments by a space: an argument with a space in it gives the same
    line as the two arguments on either side of that space.  The reader
    of a status line cannot tell where an argument with spaces ends. *)
Theorem formatLine_space_splits (keyword a b : bytes) (v : list bytes) :
  formatLine keyword ((a ++ x20 :: b) :: v) = formatLine keyword (a :: b :: v).
Proof.
  rewrite !formatLine_flat_map. cbn [flat_map].
  change (a ++ x20 :: b) with (a ++ [x20] ++ b).
  rewrite !escape_app. change (escape [x20]) with [x20].
  rewrite <- !app_assoc. reflexivity.
Qed.

End StatusLines.

(** ** ClientSetup and ServerSetup *)

Section EnvSetup.
Import pt_line pt_env.

Variable Getenv : bytes -> bytes.
Variable ResolveTCPAddr : bytes -> res pt.TCPAddr.
Variable Quote : bytes -> bytes.
Variable Open : bytes -> res io.source.

Lemma reports_pret {A} (a : A) : reports (pret a).
Proof.
  intro out. reflexivity.
Qed.

Lemma reports_doError {A} (keyword : bytes) (v : list bytes) :
  reports (praise (A:=A) (doError keyword v)).
Proof.
  intro out. reflexivity.
Qed.

Lemma reports_pbind {A B} (m : P A) (k : A -> P B) :
  reports m -> (forall a, reports (k a)) -> reports (pbind m k).
Proof.
  intros Hm Hk out. unfold pbind. specialize (Hm out).
  destruct (m out) as [[a|e] out1].
  - subst out1. apply Hk.
  - exact Hm.
Qed.

Lemma reports_getenvRequired (key : bytes) :
  reports (getenvRequired Getenv key).
Proof.
  unfold getenvRequired. destruct (is_empty (Getenv key)).
  - apply reports_doError.
  - apply reports_pret.
Qed.

Lemma reports_find_version (offers : list bytes) :
  reports (find_version offers).
Proof.
  induction offers as [|offered rest IH]; cbn [find_version].
  - apply reports_doError.
  - destruct (pt.bytes_Equal offered (str "1")); [apply reports_pret | exact IH].
Qed.

Lemma reports_getManagedTransportVer :
  reports (getManagedTransportVer Getenv).
Proof.
  apply reports_pbind; [apply reports_getenvRequired|].
  intro v. apply reports_find_version.
Qed.

Lemma reports_getClientTransports (methodNames : list bytes) :
  reports (getClientTransports Getenv methodNames).
Proof.
  apply reports_pbind; [apply reports_getenvRequired|].
  intro v. destruct (pt.bytes_Equal v (str "*")); apply reports_pret.
Qed.

Lemma reports_parse_bindaddrs (specs : list bytes) (result : list BindAddr) :
  reports (parse_bindaddrs ResolveTCPAddr Quote specs result).
Proof.
  revert result. induction specs as [|spec rest IH]; intro result;
    cbn [parse_bindaddrs]; [apply reports_pret|].
  destruct (strings.SplitN2 spec x2d) as [|name [|hostport [|x l]]];
    try apply reports_doError.
  destruct (resolveBindAddr ResolveTCPAddr hostport);
    [apply IH | apply reports_doError].
Qed.

Lemma reports_getServerBindAddrs (methodNames : list bytes) :
  reports (getServerBindAddrs Getenv ResolveTCPAddr Quote methodNames).
Proof.
  apply reports_pbind; [apply reports_getenvRequired|]. intro v.
  apply reports_pbind; [apply reports_parse_bindaddrs|]. intro r.
  apply reports_pbind; [apply reports_getenvRequired|]. intro t.
  apply reports_pret.
Qed.

Lemma find_version_Done (offers : list bytes) (out out' v : bytes) :
  find_version offers out = (Done v, out') -> v = str "1".
Proof.
  induction offers as [|offered rest IH]; cbn [find_version].
  - unfold praise, VersionError, doError. discriminate.
  - destruct (pt.bytes_Equal offered (str "1")) eqn:E; [|exact IH].
    unfold pret. intro H. apply bytes_Equal_eq in E. congruence.
Qed.

Lemma getManagedTransportVer_Done (out out' v : bytes) :
  getManagedTransportVer Getenv out = (Done v, out') ->
  v = str "1" /\ out' = out.
Proof.
  intro H. pose proof (reports_getManagedTransportVer out) as R.
  rewrite H in R. split; [|exact R].
  unfold getManagedTransportVer, pbind in H.
  destruct (getenvRequired Getenv (str "TOR_PT_MANAGED_TRANSPORT_VER") out)
    as [[a|e] o]; [|discriminate].
  eapply find_version_Done; exact H.
Qed.

Lemma VERSION_line (out : bytes) :
  Line (str "VERSION") [str "1"] out = out ++ str "VERSION 1" ++ [newline].
Proof.
  reflexivity.
Qed.

Lemma EnvError_reports (msg out : bytes) :
  snd (EnvError msg out) = out ++ ptErr_Error (fst (EnvError msg out)) ++ [newline].
Proof.
  reflexivity.
Qed.

(** X10.  What ClientSetup and ServerSetup print.  When they return no
    error, standard output has grown by the line VERSION 1 and nothing
    else.  When they return an error, the last line printed is the line
    of that very error (its Error() text), and before it there is nothing
    or the line VERSION 1: an error is never returned without being
    printed, and nothing is printed after it. *)
Theorem setup_prints_version_then_error (methodNames : list bytes) (out : bytes) :
  setup_output out (snd (fst (ClientSetup Getenv methodNames out)))
               (snd (ClientSetup Getenv methodNames out)) /\
  setup_output out
    (snd (fst (ServerSetup Getenv ResolveTCPAddr Quote Open methodNames out)))
    (snd (ServerSetup Getenv ResolveTCPAddr Quote Open methodNames out)).
Proof.
  split.
  - unfold ClientSetup.
    pose proof (reports_getManagedTransportVer out) as R.
    destruct (getManagedTransportVer Getenv out) as [[ver|e] o] eqn:E.
    + apply getManagedTransportVer_Done in E. destruct E as [-> ->].
      rewrite VERSION_line.
      pose proof (reports_getClientTransports methodNames
                    (out ++ str "VERSION 1" ++ [newline])) as R2.
      destruct (getClientTransports Getenv methodNames
                  (out ++ str "VERSION 1" ++ [newline])) as [[names|e] o].
      * cbn [fst snd setup_output]. exact R2.
      * cbn [fst snd setup_output]. right. rewrite R2.
        rewrite <- !app_assoc. reflexivity.
    + cbn [fst snd setup_output]. left. exact R.
  - unfold ServerSetup.
    pose proof (reports_getManagedTransportVer out) as R.
    destruct (getManagedTransportVer Getenv out) as [[ver|e] o] eqn:E;
      [|cbn [fst snd setup_output]; left; exact R].
    apply getManagedTransportVer_Done in E. destruct E as [-> ->].
    rewrite VERSION_line. set (V := out ++ str "VERSION 1" ++ [newline]).
    assert (HV : forall e o, o = V ++ ptErr_Error e ++ [newline] ->
                 setup_output out (Some e) o).
    { intros e o ->. right. unfold V. rewrite <- !app_assoc. reflexivity. }
    pose proof (reports_getenvRequired (str "TOR_PT_ORPORT") V) as R1.
    destruct (getenvRequired Getenv (str "TOR_PT_ORPORT") V) as [[orPort|e] o];
      [subst o|cbn [fst snd]; apply HV; exact R1].
    destruct (ResolveTCPAddr orPort) as [orAddr|err];
      [|cbn [fst snd]; apply HV; reflexivity].
    pose proof (reports_getServerBindAddrs methodNames V) as R2.
    destruct (getServerBindAddrs Getenv ResolveTCPAddr Quote methodNames V)
      as [[bas|e] o]; [subst o|cbn [fst snd]; apply HV; exact R2].
    cbv zeta.
    destruct (negb (is_empty (getenv Getenv (str "TOR_PT_EXTENDED_SERVER_PORT")))).
    + destruct (ResolveTCPAddr (getenv Getenv (str "TOR_PT_EXTENDED_SERVER_PORT")))
        as [a|err]; [|cbn [fst snd]; apply HV; reflexivity].
      destruct (negb (is_empty (getenv Getenv (str "TOR_PT_AUTH_COOKIE_FILE"))));
        [|reflexivity].
      destruct (pt.readAuthCookieFile Open _) as [cookie [err|]];
        [cbn [fst snd]; apply HV; reflexivity | reflexivity].
    + destruct (negb (is_empty (getenv Getenv (str "TOR_PT_AUTH_COOKIE_FILE"))));
        [|reflexivity].
      destruct (pt.readAuthCookieFile Open _) as [cookie [err|]];
        [cbn [fst snd]; apply HV; reflexivity | reflexivity].
Qed.

(** X11.  ServerSetup with an environment that passes every check before
    the cookie: a version list with "1", a TOR_PT_ORPORT that resolves,
    bind addresses that parse, and a TOR_PT_EXTENDED_SERVER_PORT that is
    empty or resolves.  With no TOR_PT_AUTH_COOKIE_FILE the file is not
    opened and AuthCookie is empty.  With one, AuthCookie is what
    readAuthCookieFile returned, also when that is an error: the info
    returned together with the ENV-ERROR carries those 32 bytes, and all
    the other fields are filled in. *)
Theorem ServerSetup_cookie (methodNames : list bytes) (out : bytes)
    (bindAddrs : list BindAddr) (orAddr extAddr : pt.TCPAddr) :
  let orPort := Getenv (str "TOR_PT_ORPORT") in
  let extendedOrPort := Getenv (str "TOR_PT_EXTENDED_SERVER_PORT") in
  let authCookieFilename := Getenv (str "TOR_PT_AUTH_COOKIE_FILE") in
  let printed := out ++ str "VERSION 1" ++ [x0a] in
  In (str "1") (strings.Split (Getenv (str "TOR_PT_MANAGED_TRANSPORT_VER")) x2c) ->
  orPort <> [] ->
  ResolveTCPAddr orPort = Ok orAddr ->
  getServerBindAddrs Getenv ResolveTCPAddr Quote methodNames printed
  = (Done bindAddrs, printed) ->
  (extendedOrPort <> [] -> ResolveTCPAddr extendedOrPort = Ok extAddr) ->
  let info cookie :=
    mkServerInfo bindAddrs (Some orAddr)
      (if is_empty extendedOrPort then None else Some extAddr) cookie in
  ServerSetup Getenv ResolveTCPAddr Quote Open methodNames out
  = if is_empty authCookieFilename then ((info [], None), printed)
    else
      let r := pt.readAuthCookieFile Open authCookieFilename in
      match snd r with
      | None => ((info (fst r), None), printed)
      | Some err =>
          let msg := str "error reading TOR_PT_AUTH_COOKIE_FILE "
                       ++ Quote authCookieFilename ++ str ": " ++ Error err in
          ((info (fst r), Some (mkPtErr (str "ENV-ERROR") [msg])),
           printed ++ str "ENV-ERROR " ++ escape msg ++ [x0a])
      end.
Proof.
  intros orPort extendedOrPort authCookieFilename printed Hver Hor Hres Hbas
         Hext info.
  subst orPort extendedOrPort authCookieFilename.
  assert (Hv : Getenv (str "TOR_PT_MANAGED_TRANSPORT_VER") <> []).
  { intro E. rewrite E in Hver. simpl in Hver. intuition discriminate. }
  unfold ServerSetup.
  assert (E1 : getManagedTransportVer Getenv out = (Done (str "1"), out)).
  { unfold getManagedTransportVer, pbind.
    rewrite (getenvRequired_set Getenv _ out Hv).
    now apply find_version_found. }
  rewrite E1, VERSION_line.
  change (out ++ str "VERSION 1" ++ [newline]) with printed.
  rewrite (getenvRequired_set Getenv _ printed Hor), Hres, Hbas.
  cbv zeta. unfold getenv.
  destruct (Getenv (str "TOR_PT_EXTENDED_SERVER_PORT")) as [|c ext] eqn:Eext.
  - cbn [is_empty negb].
    destruct (Getenv (str "TOR_PT_AUTH_COOKIE_FILE")) as [|d fn]; [reflexivity|].
    cbn [is_empty negb].
    destruct (pt.readAuthCookieFile Open (d :: fn)) as [cookie [err|]];
      reflexivity.
  - cbn [is_empty negb]. rewrite Hext by discriminate.
    destruct (Getenv (str "TOR_PT_AUTH_COOKIE_FILE")) as [|d fn]; [reflexivity|].
    cbn [is_empty negb].
    destruct (pt.readAuthCookieFile Open (d :: fn)) as [cookie [err|]];
      reflexivity.
Qed.

Lemma getManagedTransportVer_run (out : bytes) :
  getManagedTransportVer Getenv out
  = if is_empty (Getenv (str "TOR_PT_MANAGED_TRANSPORT_VER")) then
      praise (EnvError (str "no TOR_PT_MANAGED_TRANSPORT_VER environment variable"))
        out
    else find_version
           (strings.Split (Getenv (str "TOR_PT_MANAGED_TRANSPORT_VER")) x2c) out.
Proof.
  unfold getManagedTransportVer, pbind, getenvRequired.
  destruct (is_empty (Getenv (str "TOR_PT_MANAGED_TRANSPORT_VER"))); reflexivity.
Qed.

Lemma version_offered_set :
  In (str "1") (strings.Split (Getenv (str "TOR_PT_MANAGED_TRANSPORT_VER")) x2c) ->
  is_empty (Getenv (str "TOR_PT_MANAGED_TRANSPORT_VER")) = false.
Proof.
  destruct (Getenv (str "TOR_PT_MANAGED_TRANSPORT_VER")); [|reflexivity].
  cbn. intros [E|[]]. discriminate E.
Qed.

(** X12.  ClientSetup returns no error exactly when "1" is among the
    versions of TOR_PT_MANAGED_TRANSPORT_VER and TOR_PT_CLIENT_TRANSPORTS
    is set and not empty.  It then has printed the line VERSION 1 and
    nothing else, and the method names of the ClientInfo are methodNames
    for the value "*", and otherwise the names of the comma-separated
    list that are in methodNames, in the order of the list.  In every
    other case it returns the error with a ClientInfo without names. *)
Theorem ClientSetup_result (methodNames : list bytes) (out : bytes) :
  let ver := Getenv (str "TOR_PT_MANAGED_TRANSPORT_VER") in
  let ct := Getenv (str "TOR_PT_CLIENT_TRANSPORTS") in
  (In (str "1") (strings.Split ver x2c) -> ct <> [] ->
   ClientSetup Getenv methodNames out
   = ((mkClientInfo
         (if pt.bytes_Equal ct (str "*") then methodNames
          else filter (fun name => offered_in name methodNames)
                      (strings.Split ct x2c)),
       None),
      out ++ str "VERSION 1" ++ [x0a])) /\
  (~ In (str "1") (strings.Split ver x2c) \/ ct = [] ->
   exists e, fst (ClientSetup Getenv methodNames out) = (mkClientInfo [], Some e)).
Proof.
  intros ver ct. subst ver ct. unfold ClientSetup.
  rewrite getManagedTransportVer_run. split.
  - intros Hver Hct. rewrite (version_offered_set Hver).
    rewrite (find_version_found _ out Hver), VERSION_line.
    unfold getClientTransports, pbind.
    rewrite (getenvRequired_set Getenv _ _ Hct).
    destruct (pt.bytes_Equal (Getenv (str "TOR_PT_CLIENT_TRANSPORTS")) (str "*"));
      [reflexivity|].
    unfold pret. rewrite requested_loop. reflexivity.
  - intros Hbad.
    destruct (is_empty (Getenv (str "TOR_PT_MANAGED_TRANSPORT_VER")));
      [eexists; reflexivity|].
    destruct (in_dec (list_eq_dec Byte.byte_eq_dec) (str "1")
                (strings.Split (Getenv (str "TOR_PT_MANAGED_TRANSPORT_VER")) x2c))
      as [Hin|Hnin].
    + destruct Hbad as [Hn|Hct]; [contradiction|].
      rewrite (find_version_found _ out Hin), VERSION_line.
      unfold getClientTransports, pbind.
      rewrite (getenvRequired_unset Getenv _ _ Hct). eexists; reflexivity.
    + rewrite (find_version_none _ out Hnin). eexists; reflexivity.
Qed.

End EnvSetup.

Section SetupExamples.
Import pt_line pt_env.

Lemma ServerSetup_cookie_witness :
  fst (ServerSetup sample_env.Getenv sample_env.ResolveTCPAddr sample_env.Quote
         sample_env.Open_long [str "obfs3"] [])
  = (mkServerInfo [mkBindAddr (str "obfs3") (str "127.0.0.1:5001")]
       (Some (str "127.0.0.1:9001")) (Some (str "127.0.0.1:9002")) sample.secret,
     Some (mkPtErr (str "ENV-ERROR")
             [str "error reading TOR_PT_AUTH_COOKIE_FILE "
                ++ sample_env.Quote sample_env.cookie_path
                ++ str ": file is longer than 64 bytes"])).
Proof.
  rewrite (ServerSetup_cookie sample_env.Getenv sample_env.ResolveTCPAddr
             sample_env.Quote sample_env.Open_long [str "obfs3"] []
             [mkBindAddr (str "obfs3") (str "127.0.0.1:5001")]
             (str "127.0.0.1:9001") (str "127.0.0.1:9002")).
  - reflexivity.
  - vm_compute. tauto.
  - vm_compute. discriminate.
  - reflexivity.
  - reflexivity.
  - reflexivity.
Defined.

End SetupExamples.

(** ** Frames on a connection that fails *)

Section FramingEdges.
Import pt.
Local Open Scope N_scope.

Lemma try_ReadFull_cases (p : bytes) (c : net.TCPConn) :
  let r := try (fun s => io.ReadFull s p) c in
  net.reads_only c (snd r) /\
  io.final (net.inp (snd r)) = io.final (net.inp c) /\
  match fst r with
  | Ok data =>
      (length p <= length (io.pending (net.inp c)))%nat /\
      data = firstn (length p) (io.pending (net.inp c)) /\
      io.pending (net.inp (snd r)) = skipn (length p) (io.pending (net.inp c))
  | Err e =>
      (length (io.pending (net.inp c)) < length p)%nat /\
      e = io.short_read (io.pending (net.inp c)) (io.final (net.inp c)) /\
      io.pending (net.inp (snd r)) = []
  end.
Proof.
  unfold try.
  destruct (Nat.le_gt_cases (length p) (length (io.pending (net.inp c))))
    as [Hen|Hsh].
  - destruct (conn_ReadFull_enough c p Hen) as (c1 & HR & Hp & Hf & Hk).
    rewrite HR. cbn [fst snd]. auto.
  - destruct (@ReadFull_short _ _ TCPConn_Stream c p I Hsh)
      as (c1 & HR & Hp & Hf & _ & Hk).
    rewrite HR. cbn [fst snd]. auto.
Qed.

Lemma frame_length (cmd : N) (body : bytes) :
  length (frame cmd body) = (4 + length body)%nat.
Proof.
  unfold frame, binary.PutUint16. rewrite !length_app. reflexivity.
Qed.

(** X13.  extOrPortRecvCommand returns a command exactly when the input
    of the connection begins with a whole frame: the command it returns
    is below 65536, its body has at most 65535 bytes, and the input was
    the frame of that command and body followed by what is still unread.
    In every other case the input ends inside the header or inside the
    body: the function returns the error that ended the input, or
    io.ErrUnexpectedEOF in place of io.EOF after some bytes, and it has
    consumed all the input.  It only makes Read calls. *)
Theorem extOrPortRecvCommand_frame_or_error (c : net.TCPConn) :
  let r := extOrPortRecvCommand c in
  net.reads_only c (snd r) /\
  match fst r with
  | Ok (cmd, body) =>
      cmd < 65536 /\ N.of_nat (length body) <= 65535 /\
      io.pending (net.inp c) = frame cmd body ++ io.pending (net.inp (snd r))
  | Err e =>
      (forall cmd body rest,
         cmd < 65536 -> N.of_nat (length body) <= 65535 ->
         io.pending (net.inp c) <> frame cmd body ++ rest) /\
      (e = io.final (net.inp c) \/ e = io_ErrUnexpectedEOF) /\
      io.pending (net.inp (snd r)) = []
  end.
Proof.
  intro r. subst r.
  destruct (extOrPortRecvCommand c) as [res c'] eqn:E. cbn [fst snd].
  assert (Hfr : forall e, res = Err e ->
            forall cmd body rest,
              cmd < 65536 -> N.of_nat (length body) <= 65535 ->
              io.pending (net.inp c) <> frame cmd body ++ rest).
  { intros e -> cmd body rest Hc Hb Hp.
    destruct (RecvCommand_frame cmd body rest c Hc Hb Hp) as (c2 & E2 & _).
    congruence. }
  revert E Hfr. unfold extOrPortRecvCommand. unfold bind at 1.
  pose proof (try_ReadFull_cases (make 4) c) as H1. cbv zeta in H1.
  destruct (try (fun s => io.ReadFull s (make 4)) c) as [[data|e] c1];
    cbn [fst snd] in H1; destruct H1 as (Hk1 & Hf1 & H1).
  - destruct H1 as (Hl1 & Hd1 & Hp1). unfold bind.
    set (bodyLen := binary.Uint16 (nth 2 data x00) (nth 3 data x00)).
    pose proof (try_ReadFull_cases (make (N.to_nat bodyLen)) c1) as H2.
    cbv zeta in H2.
    destruct (try (fun s => io.ReadFull s (make (N.to_nat bodyLen))) c1)
      as [[body|e] c2]; cbn [fst snd] in H2; destruct H2 as (Hk2 & Hf2 & H2);
      unfold ret; intros E Hfr;
      assert (Ec : c' = c2) by congruence; subst c'.
    + assert (Er : res = Ok (binary.Uint16 (nth 0 data x00) (nth 1 data x00), body))
        by congruence.
      subst res. clear E Hfr.
      destruct H2 as (Hl2 & Hd2 & Hp2). rewrite length_make in *.
      split; [exact (reads_only_trans _ _ _ Hk1 Hk2)|].
      split; [apply Uint16_lt|].
      assert (Hb : N.of_nat (length body) = bodyLen).
      { rewrite Hd2, length_firstn, Nat.min_l by exact Hl2. apply N2Nat.id. }
      pose proof (Uint16_lt (nth 2 data x00) (nth 3 data x00)) as Hlt.
      fold bodyLen in Hlt.
      split; [rewrite Hb; lia|].
      assert (Hld : length data = 4%nat)
        by (rewrite Hd1, length_firstn; lia).
      destruct data as [|d0 [|d1 [|d2 [|d3 [|]]]]]; try discriminate Hld.
      cbn [nth] in *. unfold frame, uint16. rewrite Hb.
      rewrite N.mod_small by exact Hlt.
      unfold bodyLen at 1. rewrite !PutUint16_Uint16.
      rewrite <- (firstn_skipn 4 (io.pending (net.inp c))), <- Hd1, <- Hp1.
      rewrite <- (firstn_skipn (N.to_nat bodyLen) (io.pending (net.inp c1))).
      rewrite <- Hd2, <- Hp2. reflexivity.
    + assert (Er : res = Err e) by congruence. subst res.
      destruct H2 as (Hl2 & He2 & Hp2).
      split; [exact (reads_only_trans _ _ _ Hk1 Hk2)|].
      split; [exact (Hfr e eq_refl)|]. split; [|exact Hp2].
      rewrite He2, Hf1. apply short_read_cases.
  - destruct H1 as (Hl1 & He1 & Hp1). intros E Hfr.
    assert (Ec : c' = c1) by congruence. subst c'.
    assert (Er : res = Err e) by congruence. subst res.
    split; [exact Hk1|]. split; [exact (Hfr e eq_refl)|].
    split; [|exact Hp1]. rewrite He1. apply short_read_cases.
Qed.

(** extOrPortWriteCommand, by how the next Write ends. *)
Lemma WriteCommand_run (cmd : N) (body : bytes) (c : net.TCPConn) :
  N.of_nat (length body) <= 65535 ->
  extOrPortWriteCommand cmd body c
  = match net.wres c with
    | Some (k, e) :: _ =>
        (Err e,
         net.mkConn (net.inp c) (tl (net.wres c)) (net.deadline c) (net.closed c)
           (net.log c ++ [net.CallWrite (frame cmd body)
                            (Nat.min k (length (frame cmd body))) (Some e)]))
    | _ =>
        (Ok tt,
         net.mkConn (net.inp c) (tl (net.wres c)) (net.deadline c) (net.closed c)
           (net.log c ++ [net.CallWrite (frame cmd body)
                            (length (frame cmd body)) None]))
    end.
Proof.
  intro Hl. unfold extOrPortWriteCommand.
  replace (65535 <? N.of_nat (length body)) with false
    by (symmetry; apply N.ltb_ge; exact Hl).
  unfold bind, try, net.Write.
  destruct (net.wres c) as [|[[k e]|] rest]; reflexivity.
Qed.

Lemma firstn_min_all {A} (k : nat) (l : list A) :
  firstn (Nat.min k (length l)) l = firstn k l.
Proof.
  rewrite <- firstn_firstn, firstn_all. reflexivity.
Qed.

Lemma written_snoc (l : list net.call) (p : bytes) (n : nat) (e : option error) :
  net.written (l ++ [net.CallWrite p n e]) = net.written l ++ firstn n p.
Proof.
  rewrite written_app. unfold net.written at 2. cbn [flat_map net.written_by].
  now rewrite app_nil_r.
Qed.

(** X14.  What extOrPortWriteCommand puts on the wire is a prefix of the
    frame of the command and the body, and the length field of that frame
    is the length of the body: a body of more than 65535 bytes, whose
    length does not fit the field, is refused before anything is written
    and without a call on the connection.  When the function returns no
    error the whole frame was written; when the Write fails, its error is
    returned.  The input of the connection is not read. *)
Theorem extOrPortWriteCommand_prefix (cmd : N) (body : bytes) (c : net.TCPConn) :
  let r := extOrPortWriteCommand cmd body c in
  exists w,
    net.written (net.log (snd r)) = net.written (net.log c) ++ w /\
    net.inp (snd r) = net.inp c /\
    (65535 < N.of_nat (length body) ->
     r = (Err (errors_New (str "command exceeds maximum length of 65535")), c) /\
     w = []) /\
    (N.of_nat (length body) <= 65535 ->
     w = firstn (length w) (frame cmd body) /\
     binary.Uint16 (nth 2 (frame cmd body) x00) (nth 3 (frame cmd body) x00)
     = N.of_nat (length body) /\
     (fst r = Ok tt -> w = frame cmd body) /\
     (forall k e rest, net.wres c = Some (k, e) :: rest ->
        fst r = Err e /\ w = firstn k (frame cmd body))).
Proof.
  intro r. subst r.
  destruct (N.ltb_spec 65535 (N.of_nat (length body))) as [Hlong|Hfit].
  - rewrite (WriteCommand_too_long cmd body c Hlong). exists []. cbn [fst snd].
    rewrite app_nil_r. repeat split; try reflexivity; intros; lia.
  - rewrite (WriteCommand_run cmd body c Hfit).
    assert (Hlen : binary.Uint16 (nth 2 (frame cmd body) x00)
                     (nth 3 (frame cmd body) x00) = N.of_nat (length body)).
    { rewrite frame_layout by exact Hfit. cbn [app nth].
      apply Uint16_PutUint16. lia. }
    destruct (net.wres c) as [|[[k e]|] rest] eqn:Ew; cbn [fst snd net.log net.inp].
    + exists (frame cmd body). rewrite written_snoc, firstn_all.
      repeat split; try reflexivity; try lia; try discriminate; auto.
    + exists (firstn k (frame cmd body)). rewrite written_snoc.
      rewrite firstn_min_all.
      split; [reflexivity|]. split; [reflexivity|]. split; [intros; lia|].
      intros _. split.
      { rewrite length_firstn, firstn_min_all. reflexivity. }
      split; [exact Hlen|]. split; [discriminate|].
      intros k' e' rest' E. split; congruence.
    + exists (frame cmd body). rewrite written_snoc, firstn_all.
      repeat split; try reflexivity; try lia; try discriminate; auto.
Qed.

End FramingEdges.

(** ** extOrPortSetup when a command cannot be sent *)

Section SetupEdges.
Import pt.
Local Open Scope N_scope.

Lemma wres_failing (c : net.TCPConn) (j k : nat) (e : error) :
  net.writes_ok j c = true ->
  nth_error (net.wres c) j = Some (Some (k, e)) ->
  exists rest, net.wres c = repeat None j ++ Some (k, e) :: rest.
Proof.
  unfold net.writes_ok. generalize (net.wres c). clear c.
  induction j as [|j IH]; intros l Hw Hn.
  - destruct l as [|o l]; [discriminate|]. cbn in Hn.
    exists l. cbn. congruence.
  - destruct l as [|o l]; [discriminate|].
    change (firstn (S j) (o :: l)) with (o :: firstn j l) in Hw.
    cbn [forallb] in Hw. apply andb_prop in Hw as [Ho Hw].
    destruct o as [[? ?]|]; [discriminate|].
    destruct (IH l Hw Hn) as (rest & ->). exists rest. reflexivity.
Qed.

(** X15.  extOrPortSetup stops at the first Write that fails.  When the
    Write of command number j (0 for USERADDR, 1 for TRANSPORT, 2 for
    DONE) fails after k bytes, the commands before it were written whole,
    the error of that Write is returned, no later command is written and
    the reply of the peer is not read. *)
Theorem extOrPortSetup_failed_write (remoteAddr methodName : bytes)
    (c : net.TCPConn) (j k : nat) (e : error) :
  N.of_nat (length remoteAddr) <= 65535 ->
  N.of_nat (length methodName) <= 65535 ->
  (j < 3)%nat ->
  net.writes_ok j c = true ->
  nth_error (net.wres c) j = Some (Some (k, e)) ->
  let frames := [frame extOrCmdUserAddr remoteAddr;
                 frame extOrCmdTransport methodName;
                 frame extOrCmdDone []] in
  exists c',
    extOrPortSetup remoteAddr methodName c = (Err e, c') /\
    net.inp c' = net.inp c /\
    net.log c'
    = net.log c
      ++ map (fun p => net.CallWrite p (length p) None) (firstn j frames)
      ++ [net.CallWrite (nth j frames [])
            (Nat.min k (length (nth j frames []))) (Some e)] /\
    net.written (net.log c')
    = net.written (net.log c) ++ concat (firstn j frames)
        ++ firstn k (nth j frames []).
Proof.
  intros Hr Hm Hj Hw Hn frames.
  destruct (wres_failing c j k e Hw Hn) as (rest & Ew).
  assert (Hd : N.of_nat (length (@nil byte)) <= 65535) by (cbn; lia).
  unfold extOrPortSetup, extOrPortSendUserAddr, extOrPortSendTransport,
    extOrPortSendDone.
  destruct j as [|[|[|j]]]; [| | |lia]; cbn [repeat app] in Ew.
  - unfold bind at 1. rewrite (WriteCommand_run _ _ c Hr), Ew.
    eexists. split; [reflexivity|]. cbn [net.inp net.log].
    split; [reflexivity|]. split; [reflexivity|].
    rewrite written_snoc, firstn_min_all. reflexivity.
  - unfold bind at 1. rewrite (WriteCommand_run _ _ c Hr), Ew.
    unfold bind at 1. rewrite (WriteCommand_run _ _ _ Hm).
    cbn [net.wres tl].
    eexists. split; [reflexivity|]. cbn [net.inp net.log].
    split; [reflexivity|]. split; [now rewrite <- app_assoc|].
    rewrite written_snoc, written_snoc, firstn_min_all, firstn_all.
    subst frames. cbn [firstn concat nth]. rewrite app_nil_r, <- app_assoc.
    reflexivity.
  - unfold bind at 1. rewrite (WriteCommand_run _ _ c Hr), Ew.
    unfold bind at 1. rewrite (WriteCommand_run _ _ _ Hm).
    cbn [net.wres tl].
    unfold bind at 1. rewrite (WriteCommand_run _ _ _ Hd).
    cbn [net.wres tl].
    eexists. split; [reflexivity|]. cbn [net.inp net.log].
    split; [reflexivity|]. split; [now rewrite <- !app_assoc|].
    rewrite !written_snoc, firstn_min_all, !firstn_all.
    subst frames. cbn [firstn concat nth].
    rewrite app_nil_r, <- !app_assoc. reflexivity.
Qed.

Lemma extOrPortSetup_failed_write_witness :
  fst (extOrPortSetup (str "203.0.113.7:4711") (str "obfs3")
         (net.mkConn (io.mkSource [] io_EOF)
            [None; Some (3%nat, net_OpError false (str "broken pipe"))]
            None false []))
  = Err (net_OpError false (str "broken pipe")).
Proof.
  destruct (extOrPortSetup_failed_write (str "203.0.113.7:4711") (str "obfs3")
              (net.mkConn (io.mkSource [] io_EOF)
                 [None; Some (3%nat, net_OpError false (str "broken pipe"))]
                 None false [])
              1 3 (net_OpError false (str "broken pipe")))
    as (c' & E & _).
  - vm_compute. discriminate.
  - vm_compute. discriminate.
  - lia.
  - reflexivity.
  - reflexivity.
  - rewrite E. reflexivity.
Defined.

(** X16.  A method name of more than 65535 bytes stops extOrPortSetup
    after the USERADDR command: that command is already on the wire when
    the function returns the error of the length check, TRANSPORT and
    DONE are not written and nothing is read. *)
Theorem extOrPortSetup_methodName_too_long (remoteAddr methodName : bytes)
    (c : net.TCPConn) :
  N.of_nat (length remoteAddr) <= 65535 ->
  65535 < N.of_nat (length methodName) ->
  net.writes_ok 1 c = true ->
  exists c',
    extOrPortSetup remoteAddr methodName c
    = (Err (errors_New (str "command exceeds maximum length of 65535")), c') /\
    net.inp c' = net.inp c /\
    net.log c'
    = net.log c
      ++ [net.CallWrite (frame extOrCmdUserAddr remoteAddr)
            (length (frame extOrCmdUserAddr remoteAddr)) None].
Proof.
  intros Hr Hm Hw.
  destruct (WriteCommand_ok 0 extOrCmdUserAddr remoteAddr c Hr Hw)
    as (c1 & E1 & Hi & _ & _ & Hl & _).
  unfold extOrPortSetup, extOrPortSendUserAddr, extOrPortSendTransport.
  unfold bind at 1. rewrite E1.
  unfold bind at 1. rewrite (WriteCommand_too_long _ methodName c1 Hm).
  exists c1. auto.
Qed.

Lemma extOrPortSetup_methodName_too_long_witness :
  fst (extOrPortSetup (str "203.0.113.7:4711") (repeat x61 (N.to_nat 65536))
         (sample.conn []))
  = Err (errors_New (str "command exceeds maximum length of 65535")).
Proof.
  destruct (extOrPortSetup_methodName_too_long (str "203.0.113.7:4711")
              (repeat x61 (N.to_nat 65536)) (sample.conn []))
    as (c' & E & _).
  - vm_compute. discriminate.
  - rewrite repeat_length, N2Nat.id. reflexivity.
  - reflexivity.
  - rewrite E. reflexivity.
Defined.

End SetupEdges.

(** ** The handshake and the pieces of the peer's answer *)

Section Segments.
Import pt.

Variable post : list (byte * bytes).

Lemma segments_keeps_refl (b : bufio.Reader net.TCPConn) :
  segments.keeps post b b.
Proof.
  split; auto.
Qed.

Lemma segments_keeps_trans (a b c : bufio.Reader net.TCPConn) :
  segments.keeps post a b -> segments.keeps post b c -> segments.keeps post a c.
Proof.
  intros [L1 A1] [L2 A2]. split; [lia|].
  intros Ha Hl. apply A2; [|exact Hl]. apply A1; [exact Ha|lia].
Qed.

(** One Read of the connection takes bytes of its first piece only. *)
Lemma conn_Read_pieces (n : nat) (c : net.TCPConn) :
  0 < n ->
  match io.chunks (net.inp c) with
  | [] =>
      net.Read n c
      = (([], Some (io.final (net.inp c))),
         net.mkConn (net.inp c) (net.wres c) (net.deadline c) (net.closed c)
           (net.log c ++ [net.CallRead n [] (Some (io.final (net.inp c)))]))
  | p :: cs =>
      exists b0 bs c',
        net.Read n c = ((b0 :: bs, None), c') /\
        exists l, io.chunk_bytes p = (b0 :: bs) ++ l /\
                  io.chunks (net.inp c') = io.push_chunk l cs
  end.
Proof.
  intro Hn. unfold net.Read, io.source_Read.
  destruct (io.chunks (net.inp c)) as [|p cs] eqn:E.
  - destruct (net.inp c) as [chunks fin]. cbn in *. subst chunks. reflexivity.
  - destruct n as [|n]; [lia|]. destruct p as [b0 bs].
    exists b0, (firstn n bs). eexists. split; [reflexivity|].
    exists (skipn n bs). cbn [net.inp io.chunks].
    split; [|reflexivity]. unfold io.chunk_bytes. cbn [fst snd app].
    now rewrite firstn_skipn.
Qed.

Lemma aligned_same_rd (b b' : bufio.Reader net.TCPConn) :
  io.chunks (net.inp (bufio.rd b')) = io.chunks (net.inp (bufio.rd b)) ->
  segments.aligned post b -> segments.aligned post b'.
Proof.
  intros E [q Hq]. exists q. congruence.
Qed.

(** A Read of the connection into an empty buffer, of which the first
    [k] bytes are handed on at once. *)
Lemma read_into_buffer (n : nat) (c : net.TCPConn) :
  0 < n -> io.chunks (net.inp c) <> [] ->
  exists b0 bs c',
    net.Read n c = ((b0 :: bs, None), c') /\
    forall k, 0 < k ->
      segments.keeps post (bufio.mkReader c [] None)
        (bufio.mkReader c' (skipn k (b0 :: bs)) None).
Proof.
  intros Hn Hc. pose proof (conn_Read_pieces n c Hn) as HR.
  destruct (io.chunks (net.inp c)) as [|p cs] eqn:Ec; [congruence|].
  destruct HR as (b0 & bs & c' & HR & l & Hl & Hc').
  exists b0, bs, c'. split; [exact HR|]. intros k Hk.
  assert (Hlen : length (skipn k (b0 :: bs)) < length (b0 :: bs)).
  { rewrite length_skipn. cbn [length]. lia. }
  unfold segments.keeps, segments.unread, segments.aligned, io.pending.
  cbn [bufio.buf bufio.rd app]. rewrite Hc', Ec, pending_push_chunk.
  cbn [flat_map]. rewrite Hl, !length_app.
  split; [lia|]. intros [q Hq] Hpost.
  destruct q as [|p' q].
  - cbn [app] in Hq. subst post. unfold segments.flat in Hpost.
    cbn [flat_map] in Hpost. rewrite Hl, !length_app in Hpost. lia.
  - cbn [app] in Hq. injection Hq as -> ->.
    exists (io.push_chunk l q). destruct l; reflexivity.
Qed.

Lemma read_at_end (n : nat) (c : net.TCPConn) :
  0 < n -> io.chunks (net.inp c) = [] ->
  exists c', net.Read n c = (([], Some (io.final (net.inp c))), c') /\
             net.inp c' = net.inp c.
Proof.
  intros Hn Hc. pose proof (conn_Read_pieces n c Hn) as HR.
  rewrite Hc in HR. eexists. split; [exact HR|reflexivity].
Qed.

Lemma defaultBufSize_positive : 0 < bufio.defaultBufSize.
Proof.
  unfold bufio.defaultBufSize. lia.
Qed.

(** b.Read takes bytes of the buffer, or of the next piece when the
    buffer is empty. *)
Lemma keeps_bufio_Read (n : nat) (b : bufio.Reader net.TCPConn) :
  bufio.err b = None -> 0 < n ->
  segments.keeps post b (snd (bufio.Read n b)).
Proof.
  intros He Hn. destruct b as [c buf e]. cbn in He. subst e.
  destruct n as [|n]; [lia|]. unfold bufio.Read.
  cbn [bufio.buf bufio.err bufio.rd]. destruct buf as [|x buf].
  - unfold io.Read, net.TCPConn_Reader.
    destruct (io.chunks (net.inp c)) as [|p cs] eqn:Ec.
    + destruct (read_at_end (S n) c Hn Ec) as (c1 & HR1 & Hi1).
      destruct (read_at_end bufio.defaultBufSize c defaultBufSize_positive Ec)
        as (c2 & HR2 & Hi2).
      rewrite HR1, HR2. unfold bufio.readErr.
      destruct (bufio.defaultBufSize <=? S n); cbn [snd bufio.rd bufio.buf];
        (split; [unfold segments.unread; cbn [bufio.buf bufio.rd];
                 rewrite ?Hi1, ?Hi2; lia
                |intros Ha _; revert Ha; apply aligned_same_rd;
                 cbn [bufio.rd]; congruence]).
    + assert (Hc : io.chunks (net.inp c) <> []) by (rewrite Ec; discriminate).
      destruct (read_into_buffer (S n) c Hn Hc) as (b1 & bs1 & c1 & HR1 & K1).
      destruct (read_into_buffer bufio.defaultBufSize c defaultBufSize_positive Hc)
        as (b2 & bs2 & c2 & HR2 & K2).
      rewrite HR1, HR2. unfold bufio.readErr.
      destruct (bufio.defaultBufSize <=? S n); cbn [snd bufio.rd bufio.buf].
      * specialize (K1 (length (b1 :: bs1))).
        rewrite skipn_all in K1. apply K1. cbn [length]. lia.
      * apply (K2 (S n)). lia.
  - cbn [snd]. split.
    + unfold segments.unread. cbn [bufio.buf bufio.rd].
      rewrite !length_app, length_skipn. lia.
    + intros Ha _. exact Ha.
Qed.

Lemma fill_loop_step (i : nat) (c : net.TCPConn) :
  bufio.fill_loop (S i) (bufio.mkReader c [] None)
  = let '((bs, e), rd') := net.Read bufio.defaultBufSize c in
    match e with
    | Some _ => bufio.mkReader rd' bs e
    | None =>
        if 0 <? length bs then bufio.mkReader rd' bs None
        else bufio.fill_loop i (bufio.mkReader rd' bs None)
    end.
Proof.
  reflexivity.
Qed.

(** b.ReadByte takes a byte of the buffer, or of the next piece when the
    buffer is empty. *)
Lemma keeps_bufio_ReadByte (b : bufio.Reader net.TCPConn) :
  bufio.err b = None -> segments.keeps post b (snd (bufio.ReadByte b)).
Proof.
  intro He. destruct b as [c buf e]. cbn in He. subst e.
  unfold bufio.ReadByte. cbn [bufio.buf bufio.err bufio.rd].
  destruct buf as [|x buf].
  - unfold bufio.fill, bufio.maxConsecutiveEmptyReads.
    rewrite fill_loop_step.
    destruct (io.chunks (net.inp c)) as [|p cs] eqn:Ec.
    + destruct (read_at_end bufio.defaultBufSize c defaultBufSize_positive Ec)
        as (c2 & HR2 & Hi2).
      rewrite HR2. cbn [bufio.buf bufio.err bufio.rd bufio.readErr snd].
      split; [unfold segments.unread; cbn [bufio.buf bufio.rd]; rewrite Hi2; lia|].
      intros Ha _. revert Ha. apply aligned_same_rd. cbn [bufio.rd]. congruence.
    + assert (Hc : io.chunks (net.inp c) <> []) by (rewrite Ec; discriminate).
      destruct (read_into_buffer bufio.defaultBufSize c defaultBufSize_positive Hc)
        as (b2 & bs2 & c2 & HR2 & K2).
      rewrite HR2. cbn [length Nat.ltb Nat.leb].
      cbn [bufio.buf bufio.err bufio.rd snd].
      apply (K2 1). lia.
  - cbn [snd]. split.
    + unfold segments.unread. cbn [bufio.buf bufio.rd length app]. lia.
    + intros Ha _. exact Ha.
Qed.

Lemma bufio_Read_ok (n : nat) (b b' : bufio.Reader net.TCPConn) (bs : bytes) :
  bufio.err b = None -> 0 < n -> bufio.Read n b = ((bs, None), b') ->
  bufio.err b' = None.
Proof.
  intros He Hn HR.
  destruct (segments.unread b) as [|x l] eqn:Eu.
  - destruct (@bufio_Read_end _ _ TCPConn_Stream n b (conj He I) Hn Eu)
      as (b1 & HR1 & _).
    rewrite HR1 in HR. discriminate.
  - destruct (@bufio_Read_data _ _ TCPConn_Stream n b (conj He I) Hn)
      as (bs1 & b1 & HR1 & _ & _ & _ & _ & [He1 _] & _).
    { unfold segments.unread in Eu. cbn [io.pend TCPConn_Stream].
      rewrite Eu. discriminate. }
    rewrite HR1 in HR. congruence.
Qed.

Lemma keeps_ReadAtLeast_loop (fuel : nat) :
  forall (b : bufio.Reader net.TCPConn) (got : bytes) (min len : nat),
    min <= len -> bufio.err b = None ->
    segments.keeps post b (snd (io.ReadAtLeast_loop fuel b got min len)).
Proof.
  induction fuel as [|fuel IH]; intros b got min len Hm He;
    cbn [io.ReadAtLeast_loop]; destruct (min <=? length got) eqn:E;
    try apply segments_keeps_refl.
  apply Nat.leb_gt in E.
  assert (Hn : 0 < len - length got) by lia.
  pose proof (keeps_bufio_Read (len - length got) b He Hn) as K.
  unfold io.Read, bufio.Reader_Reader.
  destruct (bufio.Read (len - length got) b) as [[bs [e|]] b'] eqn:HR;
    cbn [snd] in K; [exact K|].
  apply (segments_keeps_trans _ _ _ K). apply IH; [exact Hm|].
  exact (bufio_Read_ok _ _ _ _ He Hn HR).
Qed.

Lemma keeps_r_ReadFull (p : bytes) (st : hs) :
  hs_ok st -> segments.keeps post (r st) (r (snd (r_ReadFull p st))).
Proof.
  intro Hok. unfold r_ReadFull, io.ReadFull.
  pose proof (keeps_ReadAtLeast_loop (length p) (r st) [] (length p) (length p)
                (Nat.le_refl _) Hok) as K.
  destruct (io.ReadAtLeast_loop (length p) (r st) [] (length p) (length p))
    as [[got e] r'].
  exact K.
Qed.

Lemma keeps_r_ReadByte (st : hs) :
  hs_ok st -> segments.keeps post (r st) (r (snd (r_ReadByte st))).
Proof.
  intro Hok. unfold r_ReadByte.
  pose proof (keeps_bufio_ReadByte (r st) Hok) as K.
  destruct (bufio.ReadByte (r st)) as [be r']. exact K.
Qed.

Lemma keeps_s_Write (p : bytes) (st : hs) :
  segments.keeps post (r st) (r (snd (s_Write p st))).
Proof.
  unfold s_Write, net.Write.
  destruct (match net.wres (bufio.rd (r st)) with
            | Some (k, e) :: _ => (Nat.min k (length p), Some e)
            | _ => (length p, None)
            end) as [n e].
  cbn [snd r]. split; [reflexivity|]. intros Ha _. exact Ha.
Qed.

Lemma keeps_rand_ReadFull (p : bytes) (st : hs) :
  segments.keeps post (r st) (r (snd (rand_ReadFull p st))).
Proof.
  unfold rand_ReadFull. destruct (io.ReadFull (rand_Reader st) p) as [be g'].
  apply segments_keeps_refl.
Qed.

Lemma keeps_authTypes_loop (n : nat) :
  forall (count : nat) (authTypes : byte -> bool) (st : hs),
    hs_ok st ->
    segments.keeps post (r st) (r (snd (authTypes_loop n count authTypes st))).
Proof.
  induction n as [|n IH]; intros count authTypes st Hok;
    cbn [authTypes_loop]; [apply segments_keeps_refl|].
  unfold bind, try. pose proof (keeps_r_ReadByte st Hok) as K.
  destruct (stream st) as [|c rest] eqn:Es.
  - destruct (r_ReadByte_end st Hok Es) as (st' & HR & _).
    rewrite HR in *. exact K.
  - destruct (r_ReadByte_data st c rest Hok Es) as (st' & HR & _ & Hok' & _).
    rewrite HR in *. cbn [snd] in K.
    destruct (Byte.eqb c x00); [exact K|].
    apply (segments_keeps_trans _ _ _ K). apply IH. exact Hok'.
Qed.

(** When the bytes still to come are those of the untouched pieces, the
    buffer is empty and the connection holds these pieces. *)
Lemma aligned_at_boundary (b : bufio.Reader net.TCPConn) :
  segments.aligned post b -> segments.unread b = segments.flat post ->
  bufio.buf b = [] /\ io.chunks (net.inp (bufio.rd b)) = post.
Proof.
  intros [q Hq] Hu. unfold segments.unread, io.pending in Hu. rewrite Hq in Hu.
  rewrite flat_map_app in Hu. fold (segments.flat post) in Hu.
  assert (Hl : length (bufio.buf b ++ flat_map io.chunk_bytes q) = 0).
  { apply (f_equal (@length byte)) in Hu. rewrite !length_app in *. lia. }
  apply length_zero_iff_nil, app_eq_nil in Hl as [Hb Hf].
  split; [exact Hb|]. destruct q as [|[b0 bs] q]; [now rewrite Hq|].
  discriminate Hf.
Qed.

End Segments.

Section HandshakeTail.
Import pt.
Context `{hmac.HMAC_SHA256}.

(** The steps of the handshake up to the write of the client nonce. *)
Ltac to_nonce_sent st types rest k Hok Hs Hnz Hlen H1 Hg Hw :=
  destruct (authTypes_loop_terminated types 256 0 (fun _ => false) st
              rest Hok Hs Hnz Hlen)
    as (st1 & HL & Hs1 & (Hok1 & Hro1 & Hg1 & Hf1));
  pose proof (fun post0 =>
                keeps_authTypes_loop post0 256 0 (fun _ => false) st Hok) as K1;
  rewrite HL in K1; cbn [snd] in K1;
  unfold authenticate; unfold bind at 1; rewrite HL;
  replace (256 <=? 0 + length types) with false
    by (symmetry; apply Nat.leb_gt; lia);
  replace (fold_left set_true types (fun _ => false) x01) with true
    by (symmetry; now apply authTypes_offered);
  cbn [negb];
  assert (Hw1 : net.writes_ok (S (S k)) (sock st1) = true)
    by (now rewrite (reads_only_writes_ok _ _ _ Hro1));
  destruct (s_Write_ok (S k) [x01] st1 Hok1 Hw1)
    as (st2 & HW2 & Hs2 & Hok2 & Hg2 & Hf2 & Hd2 & Hc2 & Hl2 & Hw2);
  pose proof (fun post0 => keeps_s_Write post0 [x01] st1) as K2;
  rewrite HW2 in K2; cbn [snd] in K2;
  unfold bind at 1; unfold try at 1; rewrite HW2;
  destruct (rand_ReadFull_enough st2 (make 32)) as (g' & HR3 & Hp3);
  [rewrite length_make, Hg2, Hg1; exact Hg|];
  rewrite length_make, Hg2, Hg1 in HR3, Hp3;
  unfold bind at 1; unfold try at 1; rewrite HR3;
  destruct (s_Write_ok k (firstn 32 (io.pending (rand_Reader st)))
              (mkHs (r st2) g') Hok2 Hw2)
    as (st4 & HW4 & Hs4 & Hok4 & Hg4 & Hf4 & Hd4 & Hc4 & Hl4 & Hw4);
  pose proof (fun post0 =>
                keeps_s_Write post0 (firstn 32 (io.pending (rand_Reader st)))
                  (mkHs (r st2) g')) as K4;
  rewrite HW4 in K4; cbn [snd r] in K4;
  unfold bind at 1; unfold try at 1; rewrite HW4;
  change (stream (mkHs (r st2) g')) with (stream st2) in Hs4;
  change (sock (mkHs (r st2) g')) with (sock st2) in *;
  rewrite Hs2, Hs1 in Hs4;
  assert (Hnr4 : net.non_reads (net.log (sock st4))
            = net.non_reads (net.log (sock st))
              ++ [net.CallWrite [x01] 1 None;
                  net.CallWrite (firstn 32 (io.pending (rand_Reader st)))
                    (length (firstn 32 (io.pending (rand_Reader st)))) None])
    by (rewrite Hl4, non_reads_write, Hl2, non_reads_write,
          (reads_only_non_reads _ _ Hro1), <- app_assoc; reflexivity);
  pose proof (fun post0 =>
                segments_keeps_trans post0 _ _ _ (K1 post0)
                  (segments_keeps_trans post0 _ _ _ (K2 post0) (K4 post0)))
    as K04;
  assert (Hdc4 : net.deadline (sock st4) = net.deadline (sock st)
                 /\ net.closed (sock st4) = net.closed (sock st))
    by (destruct Hro1 as (_ & D1 & C1 & _); split; congruence);
  assert (Hfin4 : io.final (net.inp (sock st4)) = io.final (net.inp (sock st)))
    by congruence;
  assert (Hrnd4 : io.pending (rand_Reader st4)
                  = skipn 32 (io.pending (rand_Reader st)))
    by (rewrite Hg4; exact Hp3).

(** The handshake with a peer that sends the expected hash, its nonce and
    a status byte: the three writes, and the result by the status byte
    and by what r has buffered after it.  [st7] is the state before the
    status byte is read. *)
Lemma authenticate_answered (info : ServerInfo) (st : hs)
    (types sh sn rest : bytes) (status : byte) (k : nat) :
  hs_ok st -> stream st = types ++ x00 :: sh ++ sn ++ status :: rest ->
  Forall (fun b => b <> x00) types -> length types < 256 -> In x01 types ->
  length sh = 32 -> length sn = 32 ->
  32 <= length (io.pending (rand_Reader st)) ->
  net.writes_ok (S (S (S k))) (sock st) = true ->
  sh = computeServerHash info (firstn 32 (io.pending (rand_Reader st))) sn ->
  exists st7 st8,
    authenticate info st
    = (if negb (Byte.eqb status x01) then
         Err (errors_New (str "server rejected authentication"))
       else if negb (bufio.Buffered (r st8) =? 0) then
         Err (errors_New (fmt.d (bufio.Buffered (r st8)) ++
                str " bytes left after extended OR port authentication"))
       else Ok tt, st8) /\
    r_ReadFull (make 1) st7 = (([status], None), st8) /\
    hs_ok st7 /\ stream st7 = status :: rest /\ stream st8 = rest /\
    (forall post, segments.keeps post (r st) (r st7)) /\
    (forall post, segments.keeps post (r st) (r st8)) /\
    net.non_reads (net.log (sock st8))
    = net.non_reads (net.log (sock st))
      ++ [net.CallWrite [x01] 1 None;
          net.CallWrite (firstn 32 (io.pending (rand_Reader st)))
            (length (firstn 32 (io.pending (rand_Reader st)))) None;
          net.CallWrite
            (computeClientHash info (firstn 32 (io.pending (rand_Reader st))) sn)
            (length (computeClientHash info
                       (firstn 32 (io.pending (rand_Reader st))) sn)) None] /\
    (net.deadline (sock st8) = net.deadline (sock st) /\
     net.closed (sock st8) = net.closed (sock st)) /\
    net.writes_ok k (sock st8) = true /\
    io.final (net.inp (sock st8)) = io.final (net.inp (sock st)) /\
    io.pending (rand_Reader st8) = skipn 32 (io.pending (rand_Reader st)).
Proof.
  intros Hok Hs Hnz Hlen H1 Hsh Hsn Hg Hw He.
  to_nonce_sent st types (sh ++ sn ++ status :: rest) (S k)
    Hok Hs Hnz Hlen H1 Hg Hw.
  destruct (r_ReadFull_enough st4 (make 32) Hok4)
    as (st5 & HR5 & Hs5 & (Hok5 & Hro5 & Hg5 & Hf5)).
  { rewrite length_make, Hs4, length_app. lia. }
  rewrite length_make, Hs4 in HR5, Hs5.
  rewrite (firstn_app_exact sh _ 32 Hsh) in HR5.
  rewrite (skipn_app_exact sh _ 32 Hsh) in Hs5.
  pose proof (fun post0 => keeps_r_ReadFull post0 (make 32) st4 Hok4) as K5.
  rewrite HR5 in K5. cbn [snd] in K5.
  unfold bind at 1; unfold try at 1; rewrite HR5.
  destruct (r_ReadFull_enough st5 (make 32) Hok5)
    as (st6 & HR6 & Hs6 & (Hok6 & Hro6 & Hg6 & Hf6)).
  { rewrite length_make, Hs5, length_app. lia. }
  rewrite length_make, Hs5 in HR6, Hs6.
  rewrite (firstn_app_exact sn _ 32 Hsn) in HR6.
  rewrite (skipn_app_exact sn _ 32 Hsn) in Hs6.
  pose proof (fun post0 => keeps_r_ReadFull post0 (make 32) st5 Hok5) as K6.
  rewrite HR6 in K6. cbn [snd] in K6.
  unfold bind at 1; unfold try at 1; rewrite HR6.
  replace (subtle.ConstantTimeCompare sh
             (computeServerHash info (firstn 32 (io.pending (rand_Reader st))) sn)
           =? 1)%Z with true
    by (symmetry; now apply ConstantTimeCompare_eqb).
  cbn [negb].
  assert (Hw6 : net.writes_ok (S k) (sock st6) = true)
    by (rewrite (reads_only_writes_ok _ _ _ Hro6),
          (reads_only_writes_ok _ _ _ Hro5); exact Hw4).
  destruct (s_Write_ok k
              (computeClientHash info (firstn 32 (io.pending (rand_Reader st))) sn)
              st6 Hok6 Hw6)
    as (st7 & HW7 & Hs7 & Hok7 & Hg7 & Hf7 & Hd7 & Hc7 & Hl7 & Hw7).
  pose proof (fun post0 =>
                keeps_s_Write post0
                  (computeClientHash info
                     (firstn 32 (io.pending (rand_Reader st))) sn) st6) as K7.
  rewrite HW7 in K7. cbn [snd] in K7.
  unfold bind at 1; unfold try at 1; rewrite HW7.
  destruct (r_ReadFull_enough st7 (make 1) Hok7)
    as (st8 & HR8 & Hs8 & (Hok8 & Hro8 & Hg8 & Hf8)).
  { rewrite length_make, Hs7, Hs6. cbn [length]. lia. }
  rewrite length_make, Hs7, Hs6 in HR8, Hs8. cbn [firstn skipn] in HR8, Hs8.
  pose proof (fun post0 => keeps_r_ReadFull post0 (make 1) st7 Hok7) as K8.
  rewrite HR8 in K8. cbn [snd] in K8.
  unfold bind at 1; unfold try at 1; rewrite HR8.
  cbn [nth].
  assert (K07 : forall post, segments.keeps post (r st) (r st7)).
  { intro post0.
    exact (segments_keeps_trans post0 _ _ _ (K04 post0)
             (segments_keeps_trans post0 _ _ _ (K5 post0)
                (segments_keeps_trans post0 _ _ _ (K6 post0) (K7 post0)))). }
  exists st7, st8. split.
  { destruct (negb (Byte.eqb status x01)); [reflexivity|].
    unfold bind, get.
    destruct (negb (bufio.Buffered (r st8) =? 0)); reflexivity. }
  split; [exact HR8|]. split; [exact Hok7|].
  split; [rewrite Hs7; exact Hs6|]. split; [exact Hs8|].
  split; [exact K07|].
  split; [intro post0;
          exact (segments_keeps_trans post0 _ _ _ (K07 post0) (K8 post0))|].
  destruct Hdc4 as [Hd4' Hc4'].
  pose proof Hro8 as (_ & D8 & C8 & _). pose proof Hro6 as (_ & D6 & C6 & _).
  pose proof Hro5 as (_ & D5 & C5 & _).
  split.
  { rewrite (reads_only_non_reads _ _ Hro8), Hl7, non_reads_write,
      (reads_only_non_reads _ _ Hro6), (reads_only_non_reads _ _ Hro5), Hnr4.
    rewrite <- app_assoc. reflexivity. }
  split; [split; congruence|].
  split; [rewrite (reads_only_writes_ok _ _ _ Hro8); exact Hw7|].
  split; [congruence|].
  rewrite Hg8, Hg7, Hg6, Hg5. exact Hrnd4.
Qed.

Lemma written_three (l : list net.call) (a b c : bytes) :
  net.written (l ++ [net.CallWrite a (length a) None;
                     net.CallWrite b (length b) None;
                     net.CallWrite c (length c) None])
  = net.written l ++ a ++ b ++ c.
Proof.
  change [net.CallWrite a (length a) None; net.CallWrite b (length b) None;
          net.CallWrite c (length c) None]
    with ([net.CallWrite a (length a) None]
            ++ [net.CallWrite b (length b) None]
            ++ [net.CallWrite c (length c) None]).
  now rewrite !written_app, !written_complete.
Qed.

(** X17.  A peer that sends the expected hash and then a status byte
    other than 1 is refused with the error "server rejected
    authentication", whatever follows the status byte.  By then the
    client has written the selection byte, its nonce and its own hash:
    the peer has the proof that the client knows the cookie. *)
Theorem status_byte_rejects (info : ServerInfo) (s : net.TCPConn)
    (rnd : io.source) (types sh sn rest : bytes) (status : byte) :
  io.pending (net.inp s) = types ++ x00 :: sh ++ sn ++ status :: rest ->
  Forall (fun b => b <> x00) types -> length types < 256 -> In x01 types ->
  length sh = 32 -> length sn = 32 ->
  32 <= length (io.pending rnd) ->
  net.writes_ok 3 s = true ->
  let cn := firstn 32 (io.pending rnd) in
  sh = computeServerHash info cn sn ->
  status <> x01 ->
  exists s' rnd',
    extOrPortAuthenticate s rnd info
    = (Some (errors_New (str "server rejected authentication")), s', rnd') /\
    net.written (net.log s')
    = net.written (net.log s) ++ [x01] ++ cn ++ computeClientHash info cn sn /\
    io.pending rnd' = skipn 32 (io.pending rnd).
Proof.
  intros Hp Hnz Hlen H1 Hsh Hsn Hg Hw cn He Hst.
  destruct (NewReader_ok s rnd) as (Hok & Hs & Hsock).
  rewrite Hp in Hs.
  destruct (authenticate_answered info _ types sh sn rest status 0 Hok Hs Hnz
              Hlen H1 Hsh Hsn Hg Hw He)
    as (st7 & st8 & HA & _ & _ & _ & _ & _ & _ & Hnr & _ & _ & _ & Hrnd).
  apply byte_eqb_neq in Hst. rewrite Hst in HA. cbn [negb] in HA.
  exists (sock st8), (rand_Reader st8). unfold extOrPortAuthenticate.
  rewrite HA. cbn [error_of]. split; [reflexivity|]. split; [|exact Hrnd].
  rewrite Hsock in Hnr. cbn [rand_Reader] in Hnr. fold cn in Hnr.
  rewrite <- (written_non_reads (net.log (sock st8))), Hnr.
  change 1 with (length [x01]).
  rewrite written_three, written_non_reads. reflexivity.
Qed.

(** io.ReadFull of one byte through a bufio.Reader with an empty buffer:
    the next piece of the connection goes to the buffer, and all of it
    but its first byte stays there. *)
Lemma ReadFull_one_fresh (c : net.TCPConn) (b0 : byte) (bs : bytes)
    (cs : list (byte * bytes)) :
  io.chunks (net.inp c) = (b0, bs) :: cs ->
  length bs < bufio.defaultBufSize ->
  exists c',
    io.ReadFull (bufio.mkReader c [] None) (make 1)
    = (([b0], None), bufio.mkReader c' bs None) /\
    io.chunks (net.inp c') = cs.
Proof.
  intros Hc Hl. unfold io.ReadFull. change (length (make 1)) with 1.
  cbn [io.ReadAtLeast_loop length Nat.leb Nat.sub].
  unfold io.Read at 1, bufio.Reader_Reader, bufio.Read.
  cbn [bufio.buf bufio.err bufio.rd].
  replace (bufio.defaultBufSize <=? 1) with false by reflexivity.
  unfold io.Read, net.TCPConn_Reader, net.Read, io.source_Read.
  rewrite Hc. unfold io.chunk_bytes. cbn [fst snd].
  rewrite firstn_all2 by (cbn [length]; lia).
  rewrite skipn_all2 by (cbn [length]; lia).
  cbn [io.push_chunk firstn skipn app length Nat.leb].
  eexists. split; [reflexivity|]. reflexivity.
Qed.

(** The handshake with a peer whose status byte 1 is the whole of its
    piece: it succeeds, and the pieces after it are left on the
    connection. *)
Lemma handshake_unread_pieces (info : ServerInfo) (s : net.TCPConn)
    (rnd : io.source) (types sh sn : bytes) (pre more : list (byte * bytes))
    (k : nat) :
  io.chunks (net.inp s) = pre ++ (x01, []) :: more ->
  segments.flat pre = types ++ x00 :: sh ++ sn ->
  Forall (fun b => b <> x00) types -> length types < 256 -> In x01 types ->
  length sh = 32 -> length sn = 32 ->
  32 <= length (io.pending rnd) ->
  net.writes_ok (S (S (S k))) s = true ->
  sh = computeServerHash info (firstn 32 (io.pending rnd)) sn ->
  exists s' rnd',
    extOrPortAuthenticate s rnd info = (None, s', rnd') /\
    io.chunks (net.inp s') = more /\
    io.final (net.inp s') = io.final (net.inp s) /\
    net.non_reads (net.log s')
    = net.non_reads (net.log s)
      ++ [net.CallWrite [x01] 1 None;
          net.CallWrite (firstn 32 (io.pending rnd))
            (length (firstn 32 (io.pending rnd))) None;
          net.CallWrite
            (computeClientHash info (firstn 32 (io.pending rnd)) sn)
            (length (computeClientHash info (firstn 32 (io.pending rnd)) sn))
            None] /\
    (net.deadline s' = net.deadline s /\ net.closed s' = net.closed s) /\
    net.writes_ok k s' = true /\
    io.pending rnd' = skipn 32 (io.pending rnd).
Proof.
  intros Hc Hpre Hnz Hlen H1 Hsh Hsn Hg Hw He.
  destruct (NewReader_ok s rnd) as (Hok & Hs & Hsock).
  assert (Hp : io.pending (net.inp s)
               = types ++ x00 :: sh ++ sn ++ x01 :: segments.flat more).
  { unfold io.pending. rewrite Hc, flat_map_app. fold (segments.flat pre).
    rewrite Hpre. cbn [flat_map]. unfold io.chunk_bytes at 1. cbn [fst snd app].
    rewrite <- !app_assoc. cbn [app]. rewrite <- !app_assoc. reflexivity. }
  rewrite Hp in Hs.
  destruct (authenticate_answered info _ types sh sn (segments.flat more) x01 k
              Hok Hs Hnz Hlen H1 Hsh Hsn Hg Hw He)
    as (st7 & st8 & HA & HR8 & Hok7 & Hs7 & Hs8 & K7 & K8 & Hnr & Hdc & Hw8
        & Hf8 & Hrnd).
  change (negb (Byte.eqb x01 x01)) with false in HA. cbv iota in HA.
  assert (Hal : segments.aligned more (r (mkHs (bufio.NewReader s) rnd))).
  { exists (pre ++ [(x01, [])]). cbn [r bufio.NewReader bufio.rd].
    rewrite Hc, <- app_assoc. reflexivity. }
  destruct (K8 more) as [_ K].
  assert (Hal8 : segments.aligned more (r st8)).
  { apply K; [exact Hal|]. change (segments.unread (r st8)) with (stream st8).
    rewrite Hs8. lia. }
  destruct (aligned_at_boundary more (r st8) Hal8 Hs8) as [Hbuf Hch].
  unfold bufio.Buffered in HA. rewrite Hbuf in HA.
  cbn [length Nat.eqb negb] in HA.
  unfold extOrPortAuthenticate. rewrite HA. cbn [error_of].
  rewrite Hsock in *. cbn [rand_Reader] in *.
  exists (sock st8), (rand_Reader st8). auto 10.
Qed.

(** X18.  Whether bytes that follow the status byte are an error depends
    on the pieces in which they arrive.  The peer's answer up to its
    nonce has been delivered in the pieces [pre]; the next piece starts
    with the status byte 1.  When that piece holds nothing else, the
    handshake succeeds and the pieces that follow are left unread on the
    connection, for extOrPortSetup.  When it holds more, these bytes are
    in the buffer of r after the status byte is read, and the handshake
    fails with the count of "bytes left after extended OR port
    authentication". *)
Theorem leftover_depends_on_pieces (info : ServerInfo) (s : net.TCPConn)
    (rnd : io.source) (types sh sn extra : bytes)
    (pre more : list (byte * bytes)) :
  io.chunks (net.inp s) = pre ++ (x01, extra) :: more ->
  segments.flat pre = types ++ x00 :: sh ++ sn ->
  Forall (fun b => b <> x00) types -> length types < 256 -> In x01 types ->
  length sh = 32 -> length sn = 32 ->
  32 <= length (io.pending rnd) ->
  net.writes_ok 3 s = true ->
  sh = computeServerHash info (firstn 32 (io.pending rnd)) sn ->
  (extra = [] ->
   exists s' rnd',
     extOrPortAuthenticate s rnd info = (None, s', rnd') /\
     io.chunks (net.inp s') = more) /\
  (extra <> [] -> length extra < 4096 ->
   exists s' rnd',
     extOrPortAuthenticate s rnd info
     = (Some (errors_New
                (fmt.d (length extra)
                   ++ str " bytes left after extended OR port authentication")),
        s', rnd')).
Proof.
  intros Hc Hpre Hnz Hlen H1 Hsh Hsn Hg Hw He.
  destruct (NewReader_ok s rnd) as (Hok & Hs & Hsock).
  assert (Hp : io.pending (net.inp s)
               = types ++ x00 :: sh ++ sn ++ x01 :: extra ++ segments.flat more).
  { unfold io.pending. rewrite Hc, flat_map_app. fold (segments.flat pre).
    rewrite Hpre. cbn [flat_map]. unfold io.chunk_bytes at 1. cbn [fst snd].
    rewrite <- !app_assoc. cbn [app]. rewrite <- !app_assoc. reflexivity. }
  rewrite Hp in Hs.
  destruct (authenticate_answered info _ types sh sn
              (extra ++ segments.flat more) x01 0 Hok Hs Hnz Hlen H1 Hsh Hsn Hg
              Hw He)
    as (st7 & st8 & HA & HR8 & Hok7 & Hs7 & Hs8 & K7 & K8 & _).
  change (negb (Byte.eqb x01 x01)) with false in HA. cbv iota in HA.
  split.
  - intros ->.
    destruct (handshake_unread_pieces info s rnd types sh sn pre more 0
                Hc Hpre Hnz Hlen H1 Hsh Hsn Hg Hw He)
      as (s' & rnd' & HA' & Hch & _).
    exists s', rnd'. auto.
  - intros Hne Hl. unfold extOrPortAuthenticate.
    assert (Hal : segments.aligned ((x01, extra) :: more)
                    (r (mkHs (bufio.NewReader s) rnd))).
    { exists pre. exact Hc. }
    destruct (K7 ((x01, extra) :: more)) as [_ K].
    assert (Hu7 : segments.unread (r st7)
                  = segments.flat ((x01, extra) :: more)).
    { change (segments.unread (r st7)) with (stream st7). rewrite Hs7.
      reflexivity. }
    assert (Hal7 : segments.aligned ((x01, extra) :: more) (r st7)).
    { apply K; [exact Hal|]. rewrite Hu7. lia. }
    destruct (aligned_at_boundary _ (r st7) Hal7 Hu7) as [Hbuf Hch].
    destruct (ReadFull_one_fresh (bufio.rd (r st7)) x01 extra more Hch Hl)
      as (c' & HR & _).
    assert (Er : r st7 = bufio.mkReader (bufio.rd (r st7)) [] None).
    { unfold hs_ok in Hok7. destruct (r st7) as [rd0 buf0 err0].
      cbn in *. congruence. }
    unfold r_ReadFull in HR8. rewrite Er, HR in HR8.
    assert (E8 : st8 = mkHs (bufio.mkReader c' extra None) (rand_Reader st7))
      by congruence.
    assert (Hb : bufio.Buffered (r st8) = length extra) by (now rewrite E8).
    rewrite Hb in HA.
    replace (length extra =? 0) with false in HA
      by (symmetry; apply Nat.eqb_neq; destruct extra; [congruence|discriminate]).
    cbn [negb] in HA. rewrite HA.
    exists (sock st8), (rand_Reader st8). reflexivity.
Qed.

Lemma written_two (l : list net.call) (a b : bytes) :
  net.written (l ++ [net.CallWrite a (length a) None;
                     net.CallWrite b (length b) None])
  = net.written l ++ a ++ b.
Proof.
  change [net.CallWrite a (length a) None; net.CallWrite b (length b) None]
    with ([net.CallWrite a (length a) None]
            ++ [net.CallWrite b (length b) None]).
  now rewrite !written_app, !written_complete.
Qed.

(** X19.  A peer that stops sending before the 64 bytes of its hash and
    nonce are complete.  The handshake returns the error of that read,
    which is the error that ended the input, or io.ErrUnexpectedEOF in
    place of io.EOF when the read had got some bytes; on the wire are the
    selection byte and the client nonce, and the client hash is not
    written. *)
Theorem truncated_answer (info : ServerInfo) (s : net.TCPConn)
    (rnd : io.source) (types partial : bytes) :
  io.pending (net.inp s) = types ++ x00 :: partial ->
  Forall (fun b => b <> x00) types -> length types < 256 -> In x01 types ->
  length partial < 64 ->
  32 <= length (io.pending rnd) ->
  net.writes_ok 2 s = true ->
  let cn := firstn 32 (io.pending rnd) in
  let got := if length partial <? 32 then partial else skipn 32 partial in
  exists s' rnd',
    extOrPortAuthenticate s rnd info
    = (Some (io.short_read got (io.final (net.inp s))), s', rnd') /\
    (io.short_read got (io.final (net.inp s)) = io.final (net.inp s) \/
     io.short_read got (io.final (net.inp s)) = io_ErrUnexpectedEOF) /\
    net.written (net.log s') = net.written (net.log s) ++ [x01] ++ cn.
Proof.
  intros Hp Hnz Hlen H1 Hpart Hg Hw cn got.
  destruct (NewReader_ok s rnd) as (Hok & Hs & Hsock).
  rewrite Hp in Hs. unfold extOrPortAuthenticate.
  to_nonce_sent (mkHs (bufio.NewReader s) rnd) types partial 0
    Hok Hs Hnz Hlen H1 Hg Hw.
  rewrite Hsock in Hnr4, Hfin4. cbn [rand_Reader] in Hnr4. fold cn in Hnr4.
  assert (Hwr : forall st', net.reads_only (sock st4) (sock st') ->
            net.written (net.log (sock st'))
            = net.written (net.log s) ++ [x01] ++ cn).
  { intros st' Hro. rewrite (reads_only_written _ _ Hro).
    rewrite <- (written_non_reads (net.log (sock st4))), Hnr4.
    change 1 with (length [x01]).
    rewrite written_two, written_non_reads. reflexivity. }
  subst got. destruct (length partial <? 32) eqn:E32.
  - apply Nat.ltb_lt in E32.
    destruct (r_ReadFull_short st4 (make 32) Hok4)
      as (st5 & HR5 & Hs5 & (Hok5 & Hro5 & Hg5 & Hf5)).
    { rewrite length_make, Hs4. exact E32. }
    rewrite Hs4, Hfin4 in HR5.
    unfold bind at 1; unfold try at 1; rewrite HR5. cbn [error_of].
    exists (bufio.rd (r st5)), (rand_Reader st5).
    split; [reflexivity|]. split; [apply short_read_cases|].
    exact (Hwr st5 Hro5).
  - apply Nat.ltb_ge in E32.
    destruct (r_ReadFull_enough st4 (make 32) Hok4)
      as (st5 & HR5 & Hs5 & (Hok5 & Hro5 & Hg5 & Hf5)).
    { rewrite length_make, Hs4. exact E32. }
    rewrite length_make, Hs4 in HR5, Hs5.
    unfold bind at 1; unfold try at 1; rewrite HR5.
    destruct (r_ReadFull_short st5 (make 32) Hok5)
      as (st6 & HR6 & Hs6 & (Hok6 & Hro6 & Hg6 & Hf6)).
    { rewrite length_make, Hs5, length_skipn. lia. }
    rewrite Hs5, Hf5, Hfin4 in HR6.
    unfold bind at 1; unfold try at 1; rewrite HR6. cbn [error_of].
    exists (bufio.rd (r st6)), (rand_Reader st6).
    split; [reflexivity|]. split; [apply short_read_cases|].
    exact (Hwr st6 (reads_only_trans _ _ _ Hro5 Hro6)).
Qed.

(** X20.  When the Write of the selection byte fails, the handshake
    returns the error of that Write at once: rand.Reader is not read, so
    no nonce is drawn, and nothing else is written. *)
Theorem selection_write_fails (info : ServerInfo) (s : net.TCPConn)
    (rnd : io.source) (types rest : bytes) (k : nat) (e : error)
    (later : list (option (nat * error))) :
  io.pending (net.inp s) = types ++ x00 :: rest ->
  Forall (fun b => b <> x00) types -> length types < 256 -> In x01 types ->
  net.wres s = Some (k, e) :: later ->
  exists s',
    extOrPortAuthenticate s rnd info = (Some e, s', rnd) /\
    net.written (net.log s') = net.written (net.log s) ++ firstn k [x01] /\
    net.non_reads (net.log s')
    = net.non_reads (net.log s) ++ [net.CallWrite [x01] (Nat.min k 1) (Some e)].
Proof.
  intros Hp Hnz Hlen H1 Hwres.
  destruct (NewReader_ok s rnd) as (Hok & Hs & Hsock).
  rewrite Hp in Hs. unfold extOrPortAuthenticate.
  destruct (authTypes_loop_terminated types 256 0 (fun _ => false) _
              rest Hok Hs Hnz Hlen)
    as (st1 & HL & Hs1 & (Hok1 & Hro1 & Hg1 & Hf1)).
  unfold authenticate; unfold bind at 1; rewrite HL.
  replace (256 <=? 0 + length types) with false
    by (symmetry; apply Nat.leb_gt; lia).
  replace (fold_left set_true types (fun _ => false) x01) with true
    by (symmetry; now apply authTypes_offered).
  cbn [negb]. rewrite Hsock in Hro1.
  pose proof Hro1 as (W1 & _). rewrite Hwres in W1.
  unfold bind at 1, try at 1, s_Write, net.Write.
  change (bufio.rd (r st1)) with (sock st1). rewrite W1.
  cbn [error_of fst snd r bufio.rd rand_Reader net.log length].
  eexists. split; [rewrite Hg1; reflexivity|]. cbn [net.log].
  rewrite written_snoc, non_reads_write, (reads_only_written _ _ Hro1),
    (reads_only_non_reads _ _ Hro1).
  change 1 with (length [x01]). rewrite firstn_min_all. split; reflexivity.
Qed.

(** X21.  The two hashes of the handshake are HMAC-SHA256 under the
    cookie of messages that begin with two different literals of one
    length.  Whatever the nonces, the message of the server hash is never
    the message of a client hash: a hash received from the peer is not
    the HMAC of a message the client would send back. *)
Theorem hash_messages_differ (info : ServerInfo)
    (clientNonce serverNonce clientNonce' serverNonce' : bytes) :
  let server_msg := str "ExtORPort authentication server-to-client hash"
                      ++ clientNonce ++ serverNonce in
  let client_msg := str "ExtORPort authentication client-to-server hash"
                      ++ clientNonce' ++ serverNonce' in
  computeServerHash info clientNonce serverNonce
  = hmac.hmac_sha256 (AuthCookie info) server_msg /\
  computeClientHash info clientNonce' serverNonce'
  = hmac.hmac_sha256 (AuthCookie info) client_msg /\
  server_msg <> client_msg.
Proof.
  intros server_msg client_msg.
  split; [apply computeServerHash_eq|]. split; [apply computeClientHash_eq|].
  subst server_msg client_msg. intro E.
  apply (f_equal (fun l => nth 25 l x00)) in E. cbv in E. discriminate E.
Qed.

End HandshakeTail.

(** ** ConnectOr with a peer that follows the protocol *)

Section ConnectOrRun.
Import pt.
Context `{hmac.HMAC_SHA256}.

Lemma written_SetDeadline (t : option Z) (c : net.TCPConn) :
  net.written (net.log (net.SetDeadline t c)) = net.written (net.log c).
Proof.
  unfold net.SetDeadline. cbn [net.log]. rewrite written_app.
  apply app_nil_r.
Qed.

Lemma written_reads (l : list net.call) :
  forallb net.is_read l = true -> net.written l = [].
Proof.
  induction l as [|c l IH]; [reflexivity|]. cbn [forallb]. intro Hl.
  apply andb_prop in Hl as [Hc Hl]. unfold net.written. cbn [flat_map].
  fold (net.written l). rewrite (IH Hl).
  destruct c; try discriminate Hc. reflexivity.
Qed.

(** X22.  ConnectOr from end to end.  The extended OR port sends its auth
    types with type 1 among them, the hash the client expects and its
    nonce, then the status byte 1, and then an OKAY command, which is in
    a later piece than the status byte.  ConnectOr returns the connection
    and no error.  On the wire are, in this order and with nothing
    between them, the selection byte 1, the 32 bytes of the client nonce,
    the client hash, and the USERADDR, TRANSPORT and DONE commands.  The
    connection is returned open as it was dialled, with the deadline
    cleared, and what the peer sent after its OKAY command is unread. *)
Theorem ConnectOr_end_to_end (w : world) (info : ServerInfo)
    (remoteAddr methodName : bytes) (a : TCPAddr) (s : net.TCPConn)
    (types sh sn body rest : bytes) (pre more : list (byte * bytes)) :
  ExtendedOrAddr info = Some a -> DialTCP w (Some a) = Ok s ->
  io.chunks (net.inp s) = pre ++ (x01, []) :: more ->
  segments.flat pre = types ++ x00 :: sh ++ sn ->
  segments.flat more = frame extOrCmdOkay body ++ rest ->
  Forall (fun b => b <> x00) types -> length types < 256 -> In x01 types ->
  length sh = 32 -> length sn = 32 ->
  (N.of_nat (length body) <= 65535)%N ->
  (N.of_nat (length remoteAddr) <= 65535)%N ->
  (N.of_nat (length methodName) <= 65535)%N ->
  32 <= length (io.pending (rnd w)) ->
  net.writes_ok 6 s = true ->
  let cn := firstn 32 (io.pending (rnd w)) in
  sh = computeServerHash info cn sn ->
  exists s',
    ConnectOr w info remoteAddr methodName
    = mkOutcome (Some s') None (Some s')
        (rnd' (ConnectOr w info remoteAddr methodName)) /\
    io.pending (rnd' (ConnectOr w info remoteAddr methodName))
    = skipn 32 (io.pending (rnd w)) /\
    net.written (net.log s')
    = net.written (net.log s) ++ [x01] ++ cn ++ computeClientHash info cn sn
        ++ frame extOrCmdUserAddr remoteAddr
        ++ frame extOrCmdTransport methodName
        ++ frame extOrCmdDone [] /\
    net.deadline s' = None /\ net.closed s' = net.closed s /\
    io.pending (net.inp s') = rest.
Proof.
  intros Hext Hdial Hc Hpre Hmore Hnz Hlen H1 Hsh Hsn Hb Hr Hm Hg Hw cn He.
  rewrite (ConnectOr_extended w info remoteAddr methodName a s Hext Hdial).
  cbv zeta.
  set (s1 := net.SetDeadline (Some (Now w + 5 * Second)%Z) s).
  destruct (handshake_unread_pieces info s1 (rnd w) types sh sn pre more 3
              Hc Hpre Hnz Hlen H1 Hsh Hsn Hg Hw He)
    as (s2 & g & HA & Hch & Hfin & Hnr & [Hd2 Hc2] & Hw2 & Hg2).
  rewrite HA. cbn [fst snd].
  assert (Hp2 : io.pending (net.inp s2) = frame extOrCmdOkay body ++ rest).
  { unfold io.pending. rewrite Hch. exact Hmore. }
  destruct (Setup_run remoteAddr methodName s2 extOrCmdOkay body rest
              Hr Hm Hw2 eq_refl Hb Hp2)
    as (s3 & reads & HS & Hl3 & Hreads & Hp3 & Hd3 & Hc3).
  change (extOrCmdOkay =? extOrCmdDeny)%N with false in HS.
  change (negb (extOrCmdOkay =? extOrCmdOkay)%N) with false in HS.
  cbv iota in HS. rewrite HS. cbn [fst snd error_of rnd'].
  exists (net.SetDeadline None s3). split; [reflexivity|].
  split; [exact Hg2|]. split.
  - rewrite written_SetDeadline, Hl3, !written_app, (written_reads _ Hreads).
    rewrite app_nil_r.
    rewrite <- (written_non_reads (net.log s2)), Hnr.
    fold cn. change 1 with (length [x01]).
    rewrite written_three, written_non_reads.
    unfold s1. rewrite written_SetDeadline.
    change [net.CallWrite (frame extOrCmdUserAddr remoteAddr)
              (length (frame extOrCmdUserAddr remoteAddr)) None;
            net.CallWrite (frame extOrCmdTransport methodName)
              (length (frame extOrCmdTransport methodName)) None;
            net.CallWrite (frame extOrCmdDone [])
              (length (frame extOrCmdDone [])) None]
      with ([] ++ [net.CallWrite (frame extOrCmdUserAddr remoteAddr)
              (length (frame extOrCmdUserAddr remoteAddr)) None;
            net.CallWrite (frame extOrCmdTransport methodName)
              (length (frame extOrCmdTransport methodName)) None;
            net.CallWrite (frame extOrCmdDone [])
              (length (frame extOrCmdDone [])) None]).
    rewrite written_three. cbn [net.written flat_map app].
    rewrite <- !app_assoc. cbn [app]. rewrite <- !app_assoc. reflexivity.
  - cbn [net.SetDeadline net.deadline net.closed net.inp].
    split; [reflexivity|]. split; [|exact Hp3].
    rewrite Hc3, Hc2. reflexivity.
Qed.

End ConnectOrRun.

Section RunExamples.
Import pt.

Lemma status_byte_rejects_witness :
  fst (fst (@extOrPortAuthenticate sample.toy_hmac sample_run.status_zero
              sample.rand_Reader sample.info))
  = Some (errors_New (str "server rejected authentication")).
Proof.
  destruct (@status_byte_rejects sample.toy_hmac sample.info
              sample_run.status_zero sample.rand_Reader
              [x02; x01] sample.server_hash sample.server_nonce [] x00)
    as (s' & rnd' & E & _).
  - vm_compute. reflexivity.
  - repeat constructor; discriminate.
  - cbn [length]. lia.
  - cbn [In]. auto.
  - reflexivity.
  - reflexivity.
  - vm_compute. lia.
  - reflexivity.
  - vm_compute. reflexivity.
  - discriminate.
  - rewrite E. reflexivity.
Defined.

Lemma leftover_depends_on_pieces_witness :
  fst (fst (@extOrPortAuthenticate sample.toy_hmac
              (sample_run.answer [x2a; x2a]) sample.rand_Reader sample.info))
  = Some (errors_New
            (str "2 bytes left after extended OR port authentication")).
Proof.
  destruct (@leftover_depends_on_pieces sample.toy_hmac sample.info
              (sample_run.answer [x2a; x2a]) sample.rand_Reader
              [x02; x01] sample.server_hash sample.server_nonce [x2a; x2a]
              sample_run.pre sample_run.more)
    as [_ Hleft].
  - reflexivity.
  - vm_compute. reflexivity.
  - repeat constructor; discriminate.
  - cbn [length]. lia.
  - cbn [In]. auto.
  - reflexivity.
  - reflexivity.
  - vm_compute. lia.
  - reflexivity.
  - vm_compute. reflexivity.
  - destruct Hleft as (s' & rnd' & E); [discriminate | cbn [length]; lia |].
    rewrite E. reflexivity.
Defined.

Lemma truncated_answer_witness :
  fst (fst (@extOrPortAuthenticate sample.toy_hmac sample_run.cut_short
              sample.rand_Reader sample.info))
  = Some io_ErrUnexpectedEOF.
Proof.
  destruct (@truncated_answer sample.toy_hmac sample.info sample_run.cut_short
              sample.rand_Reader [x02; x01] (firstn 7 sample.server_hash))
    as (s' & rnd' & E & _).
  - vm_compute. reflexivity.
  - repeat constructor; discriminate.
  - cbn [length]. lia.
  - cbn [In]. auto.
  - vm_compute. lia.
  - vm_compute. lia.
  - reflexivity.
  - rewrite E. vm_compute. reflexivity.
Defined.

Lemma selection_write_fails_witness :
  @extOrPortAuthenticate sample.toy_hmac sample_run.broken sample.rand_Reader
    sample.info
  = (Some (net_OpError false (str "broken pipe")),
     snd (fst (@extOrPortAuthenticate sample.toy_hmac sample_run.broken
                 sample.rand_Reader sample.info)),
     sample.rand_Reader).
Proof.
  destruct (@selection_write_fails sample.toy_hmac sample.info sample_run.broken
              sample.rand_Reader [x01] [] 0
              (net_OpError false (str "broken pipe")) [])
    as (s' & E & _).
  - reflexivity.
  - repeat constructor; discriminate.
  - cbn [length]. lia.
  - cbn [In]. auto.
  - reflexivity.
  - rewrite E. reflexivity.
Defined.

Lemma ConnectOr_end_to_end_witness :
  ret_err (@ConnectOr sample.toy_hmac (sample.world (sample_run.answer []))
             sample.info (str "192.0.2.7:4711") (str "obfs3"))
  = None.
Proof.
  destruct (@ConnectOr_end_to_end sample.toy_hmac
              (sample.world (sample_run.answer [])) sample.info
              (str "192.0.2.7:4711") (str "obfs3") (str "127.0.0.1:9002")
              (sample_run.answer []) [x02; x01] sample.server_hash
              sample.server_nonce [] [x2a] sample_run.pre sample_run.more)
    as (s' & E & _).
  - reflexivity.
  - reflexivity.
  - reflexivity.
  - vm_compute. reflexivity.
  - vm_compute. reflexivity.
  - repeat constructor; discriminate.
  - cbn [length]. lia.
  - cbn [In]. auto.
  - reflexivity.
  - reflexivity.
  - vm_compute. discriminate.
  - vm_compute. discriminate.
  - vm_compute. discriminate.
  - vm_compute. lia.
  - reflexivity.
  - vm_compute. reflexivity.
  - rewrite E. reflexivity.
Defined.

End RunExamples.
